(** * ColorSnap: the colour-extraction core

    A shallow embedding of [src/lib/colorExtractor.ts] ([kMeans],
    [extractColors]) and of [rgbToHex] from [src/lib/utils.ts], with the
    properties of the palette they compute.

    Conventions of the embedding.
    - A JavaScript [number] is a value of [num]: a finite value, [+Infinity],
      [-Infinity] or [NaN].  Finite values are exact rationals kept in lowest
      terms, and arithmetic on them is that of the rationals, where the
      program computes in binary64; the sign of zero is left out.  The two
      agree wherever operands and result are integers below [2^53]: on the
      bytes of the image, the counts, the sums of channels, the squared
      distances between colours of bytes, and on every comparison of such
      values.  They can differ by the rounding of a product or a quotient
      that is not an integer: [Math.random() * points.length] and
      [Math.random() * totalDistance] in the seeding (and so the sample a
      draw selects), the means of the update step and the distances to them
      (and so the cluster of a point that is equally near to two means),
      the scaled side [height * (200 / width)] of the canvas, and the
      luminance of [isDarkBackground] where it is one half exactly.  The
      properties below are stated so that no such rounding decides them: as
      bounds, as facts of data made of bytes, or with the choice that the
      rounding may change left open.
    - [undefined] read from an array and then used only in arithmetic is
      [NaN], which is what [ToNumber] makes of it.
    - In-place mutation ([point.cluster], [centroids[i].r], the count array)
      is explicit state passing: a function returns the updated array.
    - [Math.random] is the ambient generator: the sequence of values its
      successive calls return is a stream [Rand], threaded through the code
      that draws from it.
    - A JavaScript exception is a value [Throw e] of [result]; a promise
      settles as [Resolved v] or [Rejected e]. *)

From Stdlib Require Import QArith Qround ZArith String Ascii.
From Stdlib Require Import HexadecimalString HexadecimalZ Lqa.
From stdpp Require Import base list numbers strings sorting.

Open Scope Z_scope.

(** ** JavaScript numbers *)

Inductive num : Type :=
  | Fin (q : Q)
  | PInf
  | NInf
  | NaN.

#[global] Instance Q_eq_dec : EqDecision Q.
Proof. solve_decision. Defined.

#[global] Instance num_eq_dec : EqDecision num.
Proof. solve_decision. Defined.

Definition ofZ (z : Z) : num := Fin (inject_Z z).
Definition ofNat (n : nat) : num := ofZ (Z.of_nat n).

Definition Qsgn (q : Q) : Z := Z.sgn (Qnum q).

Definition num_add (a b : num) : num :=
  match a, b with
  | NaN, _ | _, NaN => NaN
  | PInf, NInf | NInf, PInf => NaN
  | PInf, _ | _, PInf => PInf
  | NInf, _ | _, NInf => NInf
  | Fin x, Fin y => Fin (Qred (x + y))
  end.

Definition num_neg (a : num) : num :=
  match a with
  | NaN => NaN
  | PInf => NInf
  | NInf => PInf
  | Fin x => Fin (Qred (- x))
  end.

Definition num_sub (a b : num) : num :=
  match a, b with
  | Fin x, Fin y => Fin (Qred (x - y))
  | _, _ => num_add a (num_neg b)
  end.

Definition num_sgn (a : num) : option Z :=
  match a with
  | NaN => None
  | PInf => Some 1
  | NInf => Some (-1)
  | Fin x => Some (Qsgn x)
  end.

Definition inf_of_sign (s : Z) : num :=
  if (0 <? s) then PInf else if (s <? 0) then NInf else NaN.

Definition num_mul (a b : num) : num :=
  match a, b with
  | Fin x, Fin y => Fin (Qred (x * y))
  | _, _ =>
      match num_sgn a, num_sgn b with
      | Some s, Some t => inf_of_sign (s * t)
      | _, _ => NaN
      end
  end.

Definition num_div (a b : num) : num :=
  match a, b with
  | NaN, _ | _, NaN => NaN
  | Fin x, Fin y =>
      if Qeq_bool y 0 then inf_of_sign (Qsgn x) else Fin (Qred (x / y))
  | Fin _, _ => Fin 0
  | _, Fin y => inf_of_sign (match num_sgn a with Some s => s | None => 0 end
                             * (if Qsgn y <? 0 then -1 else 1))
  | _, _ => NaN
  end.

(** [a < b]; every comparison with [NaN] is false. *)
Definition num_ltb (a b : num) : bool :=
  match a, b with
  | NaN, _ | _, NaN => false
  | _, NInf => false
  | PInf, _ => false
  | NInf, _ => true
  | _, PInf => true
  | Fin x, Fin y => if Qlt_le_dec x y then true else false
  end.

(** [a <= b]. *)
Definition num_leb (a b : num) : bool :=
  match a, b with
  | NaN, _ | _, NaN => false
  | NInf, _ => true
  | _, PInf => true
  | _, NInf => false
  | PInf, _ => false
  | Fin x, Fin y => Qle_bool x y
  end.

Declare Scope num_scope.
Delimit Scope num_scope with num.
Bind Scope num_scope with num.
Infix "+" := num_add : num_scope.
Infix "-" := num_sub : num_scope.
Infix "*" := num_mul : num_scope.
Infix "/" := num_div : num_scope.
Infix "<?" := num_ltb : num_scope.
Infix "<=?" := num_leb : num_scope.
Notation "a >? b" := (num_ltb b a) (only parsing) : num_scope.

(** [Math.min(a, b)]. *)
Definition Math_min (a b : num) : num :=
  match a, b with
  | NaN, _ | _, NaN => NaN
  | _, _ => if (b <? a)%num then b else a
  end.

(** [Math.floor(a)]. *)
Definition Math_floor (a : num) : num :=
  match a with
  | Fin x => ofZ (Qfloor x)
  | _ => a
  end.

(** [Math.round(a)]: the nearest integer, a tie going up. *)
Definition Math_round (a : num) : num :=
  match a with
  | Fin x => ofZ (Qfloor (x + (1 # 2)))
  | _ => a
  end.

(** [Math.pow(a, 2)]. *)
Definition Math_pow2 (a : num) : num := (a * a)%num.

(** The array index a number denotes, if any: [arr[x]] is [undefined] when
    [x] is not a non-negative integer. *)
Definition toIndex (a : num) : option nat :=
  match a with
  | Fin x =>
      if Qeq_bool x (inject_Z (Qfloor x)) && (0 <=? Qfloor x)
      then Some (Z.to_nat (Qfloor x)) else None
  | _ => None
  end.

(** ** Exceptions and settled promises *)

Inductive JsError : Type :=
  | RangeError_invalid_array_length
  | TypeError_undefined_property.

Inductive result (A : Type) : Type :=
  | Ok (a : A)
  | Throw (e : JsError).
Arguments Ok {A} a.
Arguments Throw {A} e.

#[global] Instance result_ret : MRet result := fun A a => Ok a.
#[global] Instance result_bind : MBind result := fun A B f m =>
  match m with
  | Ok a => f a
  | Throw e => Throw e
  end.

Inductive settled (A : Type) : Type :=
  | Resolved (v : A)
  | Rejected (e : JsError).
Arguments Resolved {A} v.
Arguments Rejected {A} e.

(** ** [utils.ts]: [rgbToHex] *)

(** [n.toString(16)] for the number [Math.round] returned: an integer is
    printed in lowercase hexadecimal digits, with a leading [-] when
    negative. *)
Definition toString16 (a : num) : string :=
  match a with
  | Fin x => NilZero.string_of_int (Z.to_hex_int (Qfloor x))
  | PInf => "Infinity"
  | NInf => "-Infinity"
  | NaN => "NaN"
  end.

Definition toUpperCaseChar (c : ascii) : ascii :=
  let n := nat_of_ascii c in
  if (97 <=? n)%nat && (n <=? 122)%nat then ascii_of_nat (n - 32) else c.

Fixpoint toUpperCase (s : string) : string :=
  match s with
  | EmptyString => EmptyString
  | String c rest => String (toUpperCaseChar c) (toUpperCase rest)
  end.

Definition toHex (value : num) : string :=
  let hex := toString16 (Math_round value) in
  if (String.length hex =? 1)%nat then ("0" +:+ hex) else hex.

Definition rgbToHex (r g b : num) : string :=
  toUpperCase ("#" +:+ toHex r +:+ toHex g +:+ toHex b).

(** ** [colorExtractor.ts]: the data model *)

Module RGBColor.
Record t : Type := mk { r : num; g : num; b : num }.
End RGBColor.

Module Point.
Record t : Type :=
  mk { r : num; g : num; b : num; cluster : nat; distance : num }.
End Point.

Record ColorData : Type := mkColorData {
  color : string;
  count : num;
  percentage : num
}.

#[global] Instance RGBColor_eq_dec : EqDecision RGBColor.t.
Proof. solve_decision. Defined.

(** ** The ambient random generator *)

(** The values the successive calls of [Math.random] return. *)
Definition Rand : Type := nat -> num.

(** One call of [Math.random()]: the next value, and the generator after it. *)
Definition random (rng : Rand) : num * Rand :=
  (rng 0%nat, fun n => rng (S n)).

(** ** [kMeans] *)

Definition copyColor (p : Point.t) : RGBColor.t :=
  RGBColor.mk (Point.r p) (Point.g p) (Point.b p).

(** The squared distance of a point to a centroid, as both loops compute it. *)
Definition sqDistance (point : Point.t) (centroid : RGBColor.t) : num :=
  (Math_pow2 (Point.r point - RGBColor.r centroid)
   + Math_pow2 (Point.g point - RGBColor.g centroid)
   + Math_pow2 (Point.b point - RGBColor.b centroid))%num.

(** The callback of [points.map] in the seeding: the squared distance to the
    nearest centroid chosen so far. *)
Definition seedDistance (centroids : list RGBColor.t) (point : Point.t) : num :=
  fold_left (fun minDistance centroid =>
               Math_min minDistance (sqDistance point centroid))
            centroids PInf.

(** The walk over [distances] from index [j] on: [selectedIndex] is the first
    index at which [randomValue] has dropped to zero or below, and stays [0]
    when the walk ends without a [break]. *)
Fixpoint selectIndex (distances : list num) (j : nat) (randomValue : num) : nat :=
  match distances with
  | [] => 0%nat
  | d :: rest =>
      let randomValue := (randomValue - d)%num in
      if (randomValue <=? ofZ 0)%num then j
      else selectIndex rest (S j) randomValue
  end.

(** [points[i]] followed by a property read: a [TypeError] when the element is
    [undefined]. *)
Definition pointAt (points : list Point.t) (i : option nat) : result Point.t :=
  match i ≫= (points !!.) with
  | Some p => Ok p
  | None => Throw TypeError_undefined_property
  end.

(** The body of the seeding loop: one more centroid.  The product
    [Math.random() * totalDistance] and the subtractions of the walk are
    exact here; where binary64 rounds the product, the walk of the program
    can stop at another sample than this one. *)
Definition seedNext (points : list Point.t) (centroids : list RGBColor.t)
    (rng : Rand) : result (list RGBColor.t * Rand) :=
  let distances := map (seedDistance centroids) points in
  let totalDistance := fold_left num_add distances (ofZ 0) in
  let '(u, rng) := random rng in
  let randomValue := (u * totalDistance)%num in
  let selectedIndex := selectIndex distances 0 randomValue in
  p ← pointAt points (Some selectedIndex);
  Ok (centroids ++ [copyColor p], rng).

(** [for (let i = 1; i < k && i < points.length; i++)]: [indices] lists the
    values of [i] below [points.length] still to come, in order; the loop
    stops at the first one that is not below [k]. *)
Fixpoint seedLoop (indices : list nat) (points : list Point.t) (k : num)
    (centroids : list RGBColor.t) (rng : Rand)
    : result (list RGBColor.t * Rand) :=
  match indices with
  | [] => Ok (centroids, rng)
  | i :: indices' =>
      if (ofNat i <? k)%num then
        '(centroids, rng) ← seedNext points centroids rng;
        seedLoop indices' points k centroids rng
      else Ok (centroids, rng)
  end.

(** Lines 29-76: the initial centroids.  [Math.random() * points.length] is
    the exact product here; binary64 rounds it, so that for a draw within
    one rounding below [i / n] the program takes the sample [i] and this
    definition the one before it. *)
Definition seedCentroids (points : list Point.t) (k : num) (rng : Rand)
    : result (list RGBColor.t * Rand) :=
  if (0 <? length points)%nat then
    let '(u, rng) := random rng in
    let firstIndex := Math_floor (u * ofNat (length points)) in
    p ← pointAt points (toIndex firstIndex);
    seedLoop (seq 1 (length points - 1)) points k [copyColor p] rng
  else Ok ([], rng).

(** The inner loop of the assignment step, from index [i] on.  The
    comparison is between exact squared distances; they are the program's
    when point and centroid are made of bytes, and can differ from them in
    the last bit when the centroid is a mean that is no integer. *)
Fixpoint nearest (centroids : list RGBColor.t) (i : nat) (point : Point.t)
    (minDistance : num) (newCluster : nat) : num * nat :=
  match centroids with
  | [] => (minDistance, newCluster)
  | c :: rest =>
      let distance := sqDistance point c in
      if (distance <? minDistance)%num
      then nearest rest (S i) point distance i
      else nearest rest (S i) point minDistance newCluster
  end.

(** The body of the assignment loop: the point after it, and whether its
    cluster changed. *)
Definition assignPoint (centroids : list RGBColor.t) (point : Point.t)
    : Point.t * bool :=
  let '(minDistance, newCluster) := nearest centroids 0 point PInf 0%nat in
  let changed := negb (Point.cluster point =? newCluster)%nat in
  (Point.mk (Point.r point) (Point.g point) (Point.b point)
            (if changed then newCluster else Point.cluster point)
            minDistance,
   changed).

(** The assignment loop: the points after it and [hasChanged]. *)
Fixpoint assignPoints (centroids : list RGBColor.t) (points : list Point.t)
    (hasChanged : bool) : list Point.t * bool :=
  match points with
  | [] => ([], hasChanged)
  | point :: rest =>
      let '(point', changed) := assignPoint centroids point in
      let '(rest', hasChanged) :=
        assignPoints centroids rest (hasChanged || changed) in
      (point' :: rest', hasChanged)
  end.

(** [arr[i]++] on an array of numbers.  Out of range the array is extended up
    to [i]; the new element is [undefined + 1], that is [NaN], and so is
    what any later arithmetic reads from the holes before it. *)
Definition increment (arr : list num) (i : nat) : list num :=
  if (i <? length arr)%nat then alter (fun c => (c + ofZ 1)%num) i arr
  else arr ++ replicate (i - length arr) NaN ++ [NaN].

(** The body of the accumulation loop of the update step. *)
Definition accumulate (acc : list RGBColor.t * list num) (point : Point.t)
    : result (list RGBColor.t * list num) :=
  let '(newCentroids, counts) := acc in
  match newCentroids !! Point.cluster point with
  | None => Throw TypeError_undefined_property
  | Some s =>
      Ok (<[Point.cluster point :=
              RGBColor.mk (RGBColor.r s + Point.r point)
                          (RGBColor.g s + Point.g point)
                          (RGBColor.b s + Point.b point)]> newCentroids,
          increment counts (Point.cluster point))
  end.

Fixpoint accumulateAll (acc : list RGBColor.t * list num) (points : list Point.t)
    : result (list RGBColor.t * list num) :=
  match points with
  | [] => Ok acc
  | point :: rest => acc ← accumulate acc point; accumulateAll acc rest
  end.

(** The last loop of the update step, at index [i]. *)
Definition averageAt (newCentroids : list RGBColor.t) (counts : list num)
    (i : nat) (centroid : RGBColor.t) : RGBColor.t :=
  match counts !! i, newCentroids !! i with
  | Some n, Some s =>
      if (n >? ofZ 0)%num
      then RGBColor.mk (RGBColor.r s / n) (RGBColor.g s / n) (RGBColor.b s / n)
      else centroid
  | _, _ => centroid
  end.

(** Lines 111-129: the update step. *)
Definition updateCentroids (centroids : list RGBColor.t) (points : list Point.t)
    : result (list RGBColor.t) :=
  let newCentroids := map (fun _ => RGBColor.mk (ofZ 0) (ofZ 0) (ofZ 0)) centroids in
  let counts := replicate (length centroids) (ofZ 0) in
  '(newCentroids, counts) ← accumulateAll (newCentroids, counts) points;
  Ok (imap (averageAt newCentroids counts) centroids).

(** Lines 79-130: the refinement loop, with [iterations] rounds left. *)
Fixpoint refine (iterations : nat) (centroids : list RGBColor.t)
    (points : list Point.t) : result (list RGBColor.t * list Point.t) :=
  match iterations with
  | O => Ok (centroids, points)
  | S iterations' =>
      let '(points, hasChanged) := assignPoints centroids points false in
      if negb hasChanged then Ok (centroids, points)
      else
        centroids ← updateCentroids centroids points;
        refine iterations' centroids points
  end.

(** [kMeans(points, k, maxIterations)]: the centroids it returns, the points
    as it leaves them, and the generator after its draws. *)
Definition kMeans (points : list Point.t) (k : num) (maxIterations : nat)
    (rng : Rand) : result (list RGBColor.t * list Point.t * Rand) :=
  '(centroids, rng) ← seedCentroids points k rng;
  '(centroids, points) ← refine maxIterations centroids points;
  Ok (centroids, points, rng).

(** ** [extractColors] *)

(** Lines 147-158: the size of the canvas for an image of the given size.
    The scaled side is the floor of the exact [h * (200 / w)]; binary64
    rounds the quotient and the product, and gives one less where the exact
    value is an integer and the rounded one falls just below it. *)
Definition scaleDimensions (width height : num) : num * num :=
  let maxDimension := ofZ 200 in
  if (width >? height)%num && (width >? maxDimension)%num then
    let height := Math_floor (height * (maxDimension / width)) in
    (maxDimension, height)
  else if (height >? maxDimension)%num then
    let width := Math_floor (width * (maxDimension / height)) in
    (width, maxDimension)
  else (width, height).

Definition newPoint (r g b : num) : Point.t := Point.mk r g b 0%nat (ofZ 0).

(** Lines 176-196: the loop over the RGBA bytes of [imageData.data], four at
    a time.  The buffer of an [ImageData] holds four bytes per pixel; the
    last three cases say what the loop does were it not so: the bytes past
    the end are [undefined], and [undefined < 128] is false. *)
Fixpoint samplePixels (data : list Z) : list Point.t :=
  match data with
  | [] => []
  | r :: g :: b :: a :: rest =>
      if (ofZ a <? ofZ 128)%num then samplePixels rest
      else newPoint (ofZ r) (ofZ g) (ofZ b) :: samplePixels rest
  | [r; g; b] => [newPoint (ofZ r) (ofZ g) (ofZ b)]
  | [r; g] => [newPoint (ofZ r) (ofZ g) NaN]
  | [r] => [newPoint (ofZ r) NaN NaN]
  end.

(** [new Array(k).fill(v)]: a [RangeError] unless [k] is an integer from [0]
    to [2^32 - 1]. *)
Definition newArrayFilled (k : num) (v : num) : result (list num) :=
  match toIndex k with
  | Some n =>
      if (Z.of_nat n <? 2 ^ 32) then Ok (replicate n v)
      else Throw RangeError_invalid_array_length
  | None => Throw RangeError_invalid_array_length
  end.

(** Lines 215-217. *)
Definition countClusters (clusterCounts : list num) (points : list Point.t)
    : list num :=
  fold_left (fun counts point => increment counts (Point.cluster point))
            points clusterCounts.

(** The callback of [centroids.map] at lines 223-227.  An index past the end
    of [clusterCounts] reads [undefined], [NaN] in the comparison of the
    filter and in the percentage. *)
Definition toColorData (clusterCounts : list num) (totalPixels : num)
    (index : nat) (centroid : RGBColor.t) : ColorData :=
  let n := default NaN (clusterCounts !! index) in
  mkColorData
    (rgbToHex (RGBColor.r centroid) (RGBColor.g centroid) (RGBColor.b centroid))
    n
    ((n / totalPixels) * ofZ 100)%num.

(** [Array.prototype.sort] with a comparison function is a stable sort: an
    element goes after the ones before it unless the comparison puts it
    strictly after a later one.  [insertSorted] places [x], which came before
    every element of [l], into the sorted [l]. *)
Fixpoint insertSorted {A} (compare : A -> A -> num) (x : A) (l : list A) : list A :=
  match l with
  | [] => [x]
  | y :: l' =>
      if (compare x y >? ofZ 0)%num then y :: insertSorted compare x l'
      else x :: y :: l'
  end.

Definition sort {A} (compare : A -> A -> num) (l : list A) : list A :=
  foldr (insertSorted compare) [] l.

(** Lines 222-229. *)
Definition makeColors (centroids : list RGBColor.t) (clusterCounts : list num)
    (totalPixels : num) : list ColorData :=
  sort (fun a b => (count b - count a)%num)
    (filter (fun color => (count color >? ofZ 0)%num = true)
       (imap (toColorData clusterCounts totalPixels) centroids)).

Definition fallbackColors : list ColorData :=
  [mkColorData "#FFFFFF" (ofZ 1) (ofZ 100)].

(** Lines 206-229, inside the [try]. *)
Definition clusterColors (points : list Point.t) (colorCount : num) (rng : Rand)
    : result (list ColorData) :=
  let k := Math_min colorCount (ofNat (length points)) in
  '(centroids, points, _) ← kMeans points k 100 rng;
  clusterCounts ← newArrayFilled k (ofZ 0);
  let clusterCounts := countClusters clusterCounts points in
  let totalPixels := ofNat (length points) in
  Ok (makeColors centroids clusterCounts totalPixels).

(** [extractColors], from the pixel buffer [data] that [getImageData]
    returned on: how the promise settles.  Loading and decoding the image and
    drawing it on the canvas are the browser's. *)
Definition extractColors (data : list Z) (colorCount : num) (rng : Rand)
    : settled (list ColorData) :=
  let points := samplePixels data in
  if (length points =? 0)%nat then Resolved fallbackColors
  else
    match clusterColors points colorCount rng with
    | Ok colors => Resolved colors
    | Throw error => Rejected error
    end.

(** ** Sample inputs *)

(** A generator whose every call returns [u]. *)
Definition constRand (u : Q) : Rand := fun _ => Fin u.

(** * The vocabulary of the properties *)

Definition colorOf (p : Point.t) : num * num * num :=
  (Point.r p, Point.g p, Point.b p).

(** The cluster the assignment step gives a point. *)
Definition clusterOf (centroids : list RGBColor.t) (p : Point.t) : nat :=
  (nearest centroids 0 p PInf 0%nat).2.

(** What the refinement loop keeps of a point: its colour. *)
Definition sameColors (pts pts' : list Point.t) : Prop :=
  map colorOf pts' = map colorOf pts.

(** Every point sits in the cluster the assignment step under [cs] gives it. *)
Definition assignedBy (cs : list RGBColor.t) (pts : list Point.t) : Prop :=
  Forall (fun p => Point.cluster p = clusterOf cs p) pts.

Definition clustersBelow (n : nat) (pts : list Point.t) : Prop :=
  Forall (fun p => (Point.cluster p < n)%nat) pts.

(** The points currently assigned to centroid [i]. *)
Definition members (i : nat) (pts : list Point.t) : list Point.t :=
  filter (fun p => Point.cluster p = i) pts.

(** The sum of one channel over a list of points, from [s] on, in the order
    of the list. *)
Definition sumFrom (s : num) (f : Point.t -> num) (pts : list Point.t) : num :=
  fold_left num_add (map f pts) s.

(** The component-wise mean of a list of points. *)
Definition meanOf (pts : list Point.t) : RGBColor.t :=
  RGBColor.mk (sumFrom (ofZ 0) Point.r pts / ofNat (length pts))
              (sumFrom (ofZ 0) Point.g pts / ofNat (length pts))
              (sumFrom (ofZ 0) Point.b pts / ofNat (length pts)).

Definition addCount (n : num) (pts : list Point.t) : num :=
  fold_left (fun c _ => (c + ofZ 1)%num) pts n.

(** [Math.random] returns a value in the interval from [0] (included) to [1]
    (excluded). *)
Definition unitInterval (u : num) : bool :=
  (ofZ 0 <=? u)%num && (u <? ofZ 1)%num.

Definition validRand (rng : Rand) : Prop :=
  forall i, unitInterval (rng i) = true.

(** [Number.isInteger(a)]. *)
Definition isInteger (a : num) : bool :=
  match a with
  | Fin x => Qeq_bool x (inject_Z (Qfloor x))
  | _ => false
  end.

(** A colour count [K] of which [Math.min(K, n)] is an integer, for [n]
    samples: [K] is an integer itself, or it is [n] or more (also
    [+Infinity]). *)
Definition wholeOrAbove (K : num) (n : nat) : bool :=
  isInteger K || (ofNat n <=? K)%num.

(** A centroid that is a copy of one of the points. *)
Definition copyOf (pts : list Point.t) (c : RGBColor.t) : Prop :=
  exists p, p ∈ pts /\ c = copyColor p.

(** The number of rounds of the seeding loop over the given values of [i]. *)
Fixpoint loopRounds (k : num) (indices : list nat) : nat :=
  match indices with
  | [] => 0%nat
  | i :: rest => if (ofNat i <? k)%num then S (loopRounds k rest) else 0%nat
  end.

(** The size of cluster [i]. *)
Definition clusterSize (pts : list Point.t) (i : nat) : nat :=
  length (members i pts).

(** The order of a list sorted by decreasing [key]. *)
Definition descendingBy {A} (key : A -> nat) (a b : A) : Prop :=
  (key b <= key a)%nat.

(** The natural number a count denotes. *)
Definition natOf (x : num) : nat := default 0%nat (toIndex x).

(** The entry of a centroid whose cluster holds [n] of the [total] points. *)
Definition entryOf (total : nat) (c : RGBColor.t) (n : nat) : ColorData :=
  mkColorData (rgbToHex (RGBColor.r c) (RGBColor.g c) (RGBColor.b c))
              (ofNat n)
              ((ofNat n / ofNat total) * ofZ 100)%num.

Definition positive (e : ColorData) : Prop := (count e >? ofZ 0)%num = true.

(** The entries of the centroids [cs], the first of which has index [a],
    when cluster [i] holds [size i] of the [total] points. *)
Definition entriesFrom (total : nat) (size : nat -> nat) (a : nat)
    (cs : list RGBColor.t) : list ColorData :=
  imap (fun i c => entryOf total c (size (a + i)%nat)) cs.

(** A palette entry as the formatter makes it: a count [n] between [1] and
    [total], and its share of [total]. *)
Definition wellFormed (total : nat) (e : ColorData) : Prop :=
  exists c n, e = entryOf total c n /\ (0 < n <= total)%nat.

(** The buffer of an image given pixel by pixel: red, green, blue and alpha
    of each, in row-major order. *)
Definition imageData (pixels : list (Z * Z * Z * Z)) : list Z :=
  flat_map (fun '(r, g, b, a) => [r; g; b; a]) pixels.

Definition alpha (px : Z * Z * Z * Z) : Z := px.2.

Definition pointOfPixel (px : Z * Z * Z * Z) : Point.t :=
  let '(r, g, b, _) := px in newPoint (ofZ r) (ofZ g) (ofZ b).

(** The number of distinct colours among the samples. *)
Definition distinctColors (pts : list Point.t) : nat :=
  length (remove_dups (colorOf <$> pts)).

Definition pointOfColor (col : num * num * num) : Point.t :=
  newPoint col.1.1 col.1.2 col.2.

Definition sortedByCount (colors : list ColorData) : Prop :=
  StronglySorted (fun a b => (count b <=? count a)%num = true) colors.

(** Three red pixels, a blue one and a transparent one. *)
Definition sampleImage : list Z :=
  [255; 0; 0; 255;  255; 0; 0; 255;  255; 0; 0; 255;  0; 0; 255; 255;
   9; 9; 9; 0].

Definition transparentPixel : list Z := [0; 0; 0; 0].

Definition positiveCount (e : ColorData) : Prop :=
  exists n : nat, (0 < n)%nat /\ count e = ofNat n.

Definition percentageInRange (e : ColorData) : Prop :=
  exists q : Q, percentage e = Fin q /\ (0 <= q)%Q /\ (q <= 100)%Q.

(** The two generators return the same first [n] values. *)
Definition sameDraws (n : nat) (rng1 rng2 : Rand) : Prop :=
  forall i, (i < n)%nat -> rng1 i = rng2 i.

(** Two outcomes that differ at most in the generator left behind. *)
Definition agree {A} (r1 r2 : result (A * Rand)) : Prop :=
  match r1, r2 with
  | Ok (a1, _), Ok (a2, _) => a1 = a2
  | Throw e1, Throw e2 => e1 = e2
  | _, _ => False
  end.

Definition channelInRange (x : num) : Prop :=
  exists q : Q, x = Fin q /\ (0 <= q)%Q /\ (q <= 255)%Q.

Definition pointInRange (p : Point.t) : Prop :=
  channelInRange (Point.r p) /\ channelInRange (Point.g p)
  /\ channelInRange (Point.b p).

Definition centroidInRange (c : RGBColor.t) : Prop :=
  channelInRange (RGBColor.r c) /\ channelInRange (RGBColor.g c)
  /\ channelInRange (RGBColor.b c).

(** The uppercase hexadecimal digit of [d], from 0 to 15. *)
Definition upperDigit (d : Z) : ascii :=
  nth (Z.to_nat d)
      ["0"; "1"; "2"; "3"; "4"; "5"; "6"; "7"; "8"; "9";
       "A"; "B"; "C"; "D"; "E"; "F"]%char "?"%char.

(** The two uppercase hexadecimal digits of a byte, the high one first. *)
Definition hexByte (n : Z) : string :=
  String (upperDigit (n / 16)) (String (upperDigit (n mod 16)) EmptyString).

(** The integer [Math.round] gives for a finite number. *)
Definition roundQ (q : Q) : Z := Qfloor (q + (1 # 2)).

(** What [toHex] makes of the integer [n]. *)
Definition paddedHex (n : Z) : string :=
  let hex := NilZero.string_of_int (Z.to_hex_int n) in
  if (String.length hex =? 1)%nat then ("0" +:+ hex) else hex.

(** * Further vocabulary *)

(** A canvas dimension: an integer from [lo] to [200]. *)
Definition dimensionBetween (lo : Z) (x : num) : Prop :=
  exists z : Z, x = ofZ z /\ lo <= z <= 200.

(** A point or a centroid whose channels are finite numbers. *)
Definition finite (x : num) : Prop := exists q : Q, x = Fin q.

Definition finitePoint (p : Point.t) : Prop :=
  finite (Point.r p) /\ finite (Point.g p) /\ finite (Point.b p).

Definition finiteCentroid (c : RGBColor.t) : Prop :=
  finite (RGBColor.r c) /\ finite (RGBColor.g c) /\ finite (RGBColor.b c).

(** A channel that holds a byte, and a point or a centroid made of three:
    the samples of an image are such points, and the centroids of the
    seeding, copies of samples, such centroids. *)
Definition byteChannel (x : num) : Prop :=
  exists z : Z, x = ofZ z /\ 0 <= z <= 255.

Definition bytePoint (p : Point.t) : Prop :=
  byteChannel (Point.r p) /\ byteChannel (Point.g p) /\ byteChannel (Point.b p).

Definition byteCentroid (c : RGBColor.t) : Prop :=
  byteChannel (RGBColor.r c) /\ byteChannel (RGBColor.g c)
  /\ byteChannel (RGBColor.b c).

(** [c] is the index of the centroid of [cs] nearest to [p], the lowest such
    index, and [m] the squared distance to it. *)
Definition nearestAt (cs : list RGBColor.t) (p : Point.t) (m : num) (c : nat)
    : Prop :=
  exists cc, cs !! c = Some cc
    /\ m = sqDistance p cc
    /\ forall j cj, cs !! j = Some cj ->
         (m <=? sqDistance p cj)%num = true
         /\ ((j < c)%nat -> (m <? sqDistance p cj)%num = true).

(** The number of centroids for a requested integer [k] and [n] points, at
    least one: [k] clamped to the range from 1 to [n]. *)
Definition centroidCount (k : Z) (n : nat) : nat :=
  Z.to_nat (Z.max 1 (Z.min k (Z.of_nat n))).

(** The colour of a pixel and whether the sampler keeps it. *)
Definition rgbOf (px : Z * Z * Z * Z) : Z * Z * Z := px.1.

Definition eligible (pixels : list (Z * Z * Z * Z)) : list (Z * Z * Z * Z) :=
  filter (fun px => 128 <= alpha px) pixels.

(** A colour string [#RRGGBB]: a [#] and the uppercase hexadecimal digits of
    three bytes. *)
Definition hexColorOf (R G B : Z) : string :=
  String "#" (hexByte R +:+ hexByte G +:+ hexByte B).

Definition isByte (n : Z) : Prop := 0 <= n <= 255.

Definition wellFormedColor (s : string) : Prop :=
  exists R G B, isByte R /\ isByte G /\ isByte B /\ s = hexColorOf R G B.

(** A pixel whose red, green and blue are bytes. *)
Definition bytePixel (px : Z * Z * Z * Z) : Prop :=
  let '(r, g, b, _) := px in isByte r /\ isByte g /\ isByte b.

(** ** [utils.ts]: [isDarkBackground] *)

(** [s.replace(c, '')] for a one-character pattern: the first occurrence of
    [c] is removed. *)
Fixpoint removeFirst (c : ascii) (s : string) : string :=
  match s with
  | EmptyString => EmptyString
  | String d rest => if Ascii.eqb d c then rest else String d (removeFirst c rest)
  end.

(** The white space [parseInt] skips, among the characters below 128: tab,
    line feed, vertical tab, form feed, carriage return and space. *)
Definition isWhiteSpace (c : ascii) : bool :=
  let n := nat_of_ascii c in
  ((9 <=? n) && (n <=? 13) || (n =? 32))%nat.

Fixpoint trimStart (s : string) : string :=
  match s with
  | EmptyString => EmptyString
  | String c rest => if isWhiteSpace c then trimStart rest else s
  end.

(** The value of a hexadecimal digit, of either case. *)
Definition hexDigitValue (c : ascii) : option Z :=
  let n := Z.of_nat (nat_of_ascii c) in
  if (48 <=? n) && (n <=? 57) then Some (n - 48)
  else if (97 <=? n) && (n <=? 102) then Some (n - 87)
  else if (65 <=? n) && (n <=? 70) then Some (n - 55)
  else None.

(** The value of the longest prefix of hexadecimal digits, from [acc] on;
    [None] while no digit has been read. *)
Fixpoint parseDigits (s : string) (acc : option Z) : option Z :=
  match s with
  | EmptyString => acc
  | String c rest =>
      match hexDigitValue c with
      | Some d => parseDigits rest (Some (16 * default 0 acc + d))
      | None => acc
      end
  end.

(** [parseInt(s, 16)], for strings of characters below 128 and short enough
    for the value to be an exact number (the function below passes two
    characters): leading white space, a sign, a [0x] or [0X] prefix, then the
    digits; [NaN] without a digit. *)
Definition parseInt16 (s : string) : num :=
  let s := trimStart s in
  let '(sign, s) :=
    match s with
    | String "-" rest => (-1, rest)
    | String "+" rest => (1, rest)
    | _ => (1, s)
    end in
  let s :=
    match s with
    | String "0" (String "x" rest) => rest
    | String "0" (String "X" rest) => rest
    | _ => s
    end in
  match parseDigits s None with
  | Some v => ofZ (sign * v)
  | None => NaN
  end.

(** [isDarkBackground(hexColor)]; [0.299], [0.587], [0.114] and [0.5] are
    the rationals they denote, and the luminance is exact: it differs from
    the program's only in the last bit, which decides the comparison only
    where the luminance is one half exactly. *)
Definition isDarkBackground (hexColor : string) : bool :=
  let hex := removeFirst "#" hexColor in
  let r := parseInt16 (substring 0 2 hex) in
  let g := parseInt16 (substring 2 2 hex) in
  let b := parseInt16 (substring 4 2 hex) in
  let luminance :=
    ((Fin (299 # 1000) * r + Fin (587 # 1000) * g + Fin (57 # 500) * b)
     / ofZ 255)%num in
  (luminance <? Fin (1 # 2))%num.

(** The weighted sum of the channels, in thousandths, that the luminance
    compares with half of 255. *)
Definition weightedSum (R G B : Z) : Z := 299 * R + 587 * G + 114 * B.

(** A point whose channels are integers, as the sampler makes them. *)
Definition integerPoint (p : Point.t) : Prop :=
  exists r g b : Z, colorOf p = (ofZ r, ofZ g, ofZ b).

(** A value [Math.random] returns that is not [0]. *)
Definition openUnit (u : num) : bool :=
  (u >? ofZ 0)%num && (u <? ofZ 1)%num.

Definition positiveRand (rng : Rand) : Prop :=
  forall i, openUnit (rng i) = true.

(** The squared distance of two integer colours. *)
Definition sqDistZ (c1 c2 : Z * Z * Z) : Z :=
  let '(r1, g1, b1) := c1 in
  let '(r2, g2, b2) := c2 in
  (r1 - r2) * (r1 - r2) + (g1 - g2) * (g1 - g2) + (b1 - b2) * (b1 - b2).

Definition centroidOfZ (c : Z * Z * Z) : RGBColor.t :=
  let '(r, g, b) := c in RGBColor.mk (ofZ r) (ofZ g) (ofZ b).

Definition centroidOfColor (col : num * num * num) : RGBColor.t :=
  RGBColor.mk col.1.1 col.1.2 col.2.

(** The integer a number denotes, when it denotes one. *)
Definition zOf (x : num) : Z :=
  match x with
  | Fin q => Qfloor q
  | _ => 0
  end.

Definition nonnegInt (d : num) : Prop := exists m : Z, d = ofZ m /\ 0 <= m.

Definition integerCentroid (c : RGBColor.t) : Prop :=
  exists z : Z * Z * Z, c = centroidOfZ z.

Definition sumZ (ds : list num) : Z := foldr (fun d s => zOf d + s) 0 ds.

(** Every point has exactly the colour of the centroid of its cluster. *)
Definition onOwnCentroid (cs : list RGBColor.t) (pts : list Point.t) : Prop :=
  Forall (fun p => cs !! Point.cluster p = Some (copyColor p)) pts.

(** The colour string of a centroid and of a pixel. *)
Definition hexOfCentroid (c : RGBColor.t) : string :=
  rgbToHex (RGBColor.r c) (RGBColor.g c) (RGBColor.b c).

Definition hexOfPixel (px : Z * Z * Z * Z) : string :=
  let '(r, g, b, _) := px in rgbToHex (ofZ r) (ofZ g) (ofZ b).

(** The colour of a sample made from an integer colour. *)
Definition numColor (z : Z * Z * Z) : num * num * num :=
  let '(r, g, b) := z in (ofZ r, ofZ g, ofZ b).

(** * Properties *)

(** ** Running the model *)

Example rgbToHex_sample :
  rgbToHex (Fin (509 # 2)) (ofZ 0) (Fin (31 # 2)) = "#FF0010".
Proof. vm_compute. reflexivity. Qed.

Example extractColors_two_colours :
  extractColors [255; 0; 0; 255;  255; 0; 0; 255;  255; 0; 0; 255;
                 0; 0; 255; 255;  9; 9; 9; 0]
                (ofZ 6) (constRand (1 # 2))
  = Resolved [mkColorData "#FF0000" (ofZ 3) (ofZ 75);
              mkColorData "#0000FF" (ofZ 1) (ofZ 25)].
Proof. vm_compute. reflexivity. Qed.

(** ** Numbers *)

Lemma ofZ_add (x y : Z) : (ofZ x + ofZ y)%num = ofZ (x + y).
Proof.
  unfold ofZ; simpl. f_equal.
  rewrite <- inject_Z_plus. apply inject_Z_Qred.
Qed.

Lemma ofNat_succ (n : nat) : (ofNat n + ofZ 1)%num = ofNat (S n).
Proof. unfold ofNat. rewrite ofZ_add. f_equal. lia. Qed.

Lemma ofZ_sub (x y : Z) : (ofZ x - ofZ y)%num = ofZ (x - y).
Proof.
  unfold ofZ; simpl. f_equal.
  unfold Qminus. rewrite <- inject_Z_opp, <- inject_Z_plus.
  apply inject_Z_Qred.
Qed.

Lemma ofZ_ltb (x y : Z) : (ofZ x <? ofZ y)%num = (x <? y).
Proof.
  unfold ofZ; simpl. destruct (Qlt_le_dec _ _) as [H|H].
  - rewrite <- Zlt_Qlt in H. symmetry. apply Z.ltb_lt. exact H.
  - rewrite <- Zle_Qle in H. symmetry. apply Z.ltb_ge. exact H.
Qed.

Lemma ofZ_leb (x y : Z) : (ofZ x <=? ofZ y)%num = (x <=? y).
Proof.
  unfold ofZ; simpl. destruct (Qle_bool _ _) eqn:H.
  - apply Qle_bool_iff in H. rewrite <- Zle_Qle in H.
    symmetry. apply Z.leb_le. exact H.
  - symmetry. apply Z.leb_gt. apply Z.lt_nge. intros Hle.
    rewrite Zle_Qle in Hle. apply Qle_bool_iff in Hle. congruence.
Qed.

Lemma ofNat_ltb (i j : nat) : (ofNat i <? ofNat j)%num = (i <? j)%nat.
Proof.
  unfold ofNat. rewrite ofZ_ltb.
  destruct (Nat.ltb_spec i j); [apply Z.ltb_lt | apply Z.ltb_ge]; lia.
Qed.

Lemma toIndex_ofZ (z : Z) : 0 <= z -> toIndex (ofZ z) = Some (Z.to_nat z).
Proof.
  intros Hz. unfold toIndex, ofZ. rewrite Qfloor_Z.
  rewrite Qeq_bool_refl. simpl.
  destruct (Z.leb_spec 0 z); [reflexivity | lia].
Qed.

Lemma toIndex_ofNat (n : nat) : toIndex (ofNat n) = Some n.
Proof. unfold ofNat. rewrite toIndex_ofZ by lia. f_equal. lia. Qed.

(** A number that denotes the array index [n] compares with the integers as
    [n] does. *)
Lemma toIndex_ltb (k : num) (n i : nat) :
  toIndex k = Some n -> (ofNat i <? k)%num = (i <? n)%nat.
Proof.
  destruct k as [x| | |]; simpl; try discriminate.
  destruct (Qeq_bool x (inject_Z (Qfloor x))) eqn:Hx; simpl; try discriminate.
  destruct (Z.leb_spec 0 (Qfloor x)) as [Hf|Hf]; try discriminate.
  intros [= <-]. apply Qeq_bool_eq in Hx.
  destruct (Qlt_le_dec _ _) as [H|H]; symmetry.
  - apply Nat.ltb_lt. rewrite Hx in H. rewrite <- Zlt_Qlt in H. lia.
  - apply Nat.ltb_ge. rewrite Hx in H. rewrite <- Zle_Qle in H. lia.
Qed.

(** ** The assignment step *)

Lemma sqDistance_color (p q : Point.t) (c : RGBColor.t) :
  colorOf p = colorOf q -> sqDistance p c = sqDistance q c.
Proof. unfold colorOf, sqDistance. intros [= -> -> ->]. reflexivity. Qed.

Lemma nearest_color (cs : list RGBColor.t) (i : nat) (p q : Point.t) (m : num) (c : nat) :
  colorOf p = colorOf q -> nearest cs i p m c = nearest cs i q m c.
Proof.
  intros H. revert i m c. induction cs as [|c0 cs IH]; intros; simpl; [reflexivity|].
  rewrite (sqDistance_color p q c0 H). destruct (_ <? _)%num; apply IH.
Qed.

Lemma clusterOf_color (cs : list RGBColor.t) (p q : Point.t) :
  colorOf p = colorOf q -> clusterOf cs p = clusterOf cs q.
Proof. intros H. unfold clusterOf. by rewrite (nearest_color cs 0 p q PInf 0 H). Qed.

Lemma nearest_bound (cs : list RGBColor.t) (i : nat) (p : Point.t) (m : num) (c : nat) :
  (nearest cs i p m c).2 = c
  \/ (i <= (nearest cs i p m c).2 < i + length cs)%nat.
Proof.
  revert i m c. induction cs as [|c0 cs IH]; intros; simpl; [by left|].
  destruct (_ <? _)%num.
  - destruct (IH (S i) (sqDistance p c0) i) as [->|H]; right; lia.
  - destruct (IH (S i) m c) as [->|H]; [by left | right; lia].
Qed.

Lemma clusterOf_bound (cs : list RGBColor.t) (p : Point.t) :
  cs <> [] -> (clusterOf cs p < length cs)%nat.
Proof.
  intros Hne. unfold clusterOf.
  destruct (nearest_bound cs 0 p PInf 0) as [->|H]; [|lia].
  destruct cs; [done | simpl; lia].
Qed.

Lemma assignPoint_cluster (cs : list RGBColor.t) (p : Point.t) :
  Point.cluster (assignPoint cs p).1 = clusterOf cs p.
Proof.
  unfold assignPoint, clusterOf.
  destruct (nearest cs 0 p PInf 0) as [m c]; simpl.
  destruct (Nat.eqb_spec (Point.cluster p) c); simpl; congruence.
Qed.

Lemma assignPoint_color (cs : list RGBColor.t) (p : Point.t) :
  colorOf (assignPoint cs p).1 = colorOf p.
Proof.
  unfold assignPoint. destruct (nearest cs 0 p PInf 0) as [m c]. reflexivity.
Qed.

Lemma assignPoints_fst (cs : list RGBColor.t) (pts : list Point.t) (h : bool) :
  (assignPoints cs pts h).1 = map (fun p => (assignPoint cs p).1) pts.
Proof.
  revert h. induction pts as [|p pts IH]; intros; simpl; [reflexivity|].
  destruct (assignPoint cs p) as [p' ch] eqn:Hp.
  specialize (IH (h || ch)).
  destruct (assignPoints cs pts (h || ch)) as [rest' h']; simpl in *.
  by rewrite IH.
Qed.

Lemma assignPoints_sameColors cs pts h : sameColors pts (assignPoints cs pts h).1.
Proof.
  unfold sameColors. rewrite assignPoints_fst, map_map.
  apply map_ext. intros p. apply assignPoint_color.
Qed.

Lemma assignPoints_assignedBy cs pts h : assignedBy cs (assignPoints cs pts h).1.
Proof.
  unfold assignedBy. rewrite assignPoints_fst. apply Forall_map, Forall_true.
  intros p. simpl. rewrite assignPoint_cluster.
  apply clusterOf_color. by rewrite assignPoint_color.
Qed.

Lemma assignedBy_below cs pts :
  cs <> [] -> assignedBy cs pts -> clustersBelow (length cs) pts.
Proof.
  intros Hne H. eapply Forall_impl; [exact H|].
  intros p Hp; simpl in Hp. rewrite Hp. by apply clusterOf_bound.
Qed.

Lemma sameColors_length pts pts' : sameColors pts pts' -> length pts' = length pts.
Proof.
  unfold sameColors. intros H.
  rewrite <- (length_map colorOf pts'), H. apply length_map.
Qed.

Lemma sameColors_trans a b c : sameColors a b -> sameColors b c -> sameColors a c.
Proof. unfold sameColors. congruence. Qed.

(** ** The update step *)

Lemma addCount_ofNat (a : nat) (pts : list Point.t) :
  addCount (ofNat a) pts = ofNat (a + length pts).
Proof.
  revert a. induction pts as [|p pts IH]; intros.
  - simpl. f_equal. lia.
  - unfold addCount in *. cbn [fold_left length].
    rewrite ofNat_succ, IH. f_equal. lia.
Qed.

Lemma increment_in_range (arr : list num) (i : nat) :
  (i < length arr)%nat -> increment arr i = alter (fun c => (c + ofZ 1)%num) i arr.
Proof.
  intros H. unfold increment. by destruct (Nat.ltb_spec i (length arr)); [|lia].
Qed.

Lemma accumulate_in_range ncs counts p s0 :
  ncs !! Point.cluster p = Some s0 ->
  accumulate (ncs, counts) p
  = Ok (<[Point.cluster p :=
            RGBColor.mk (RGBColor.r s0 + Point.r p) (RGBColor.g s0 + Point.g p)
                        (RGBColor.b s0 + Point.b p)]> ncs,
        increment counts (Point.cluster p)).
Proof. intros H. unfold accumulate. by rewrite H. Qed.

Lemma accumulateAll_cons acc p pts :
  accumulateAll acc (p :: pts)
  = acc' ← accumulate acc p; accumulateAll acc' pts.
Proof. reflexivity. Qed.

Lemma bind_Ok {A B} (a : A) (f : A -> result B) : (Ok a ≫= f) = f a.
Proof. reflexivity. Qed.

Lemma accumulateAll_spec (pts : list Point.t) :
  forall (ncs : list RGBColor.t) (counts : list num),
    length counts = length ncs ->
    clustersBelow (length ncs) pts ->
    exists ncs' counts',
      accumulateAll (ncs, counts) pts = Ok (ncs', counts')
      /\ length ncs' = length ncs
      /\ length counts' = length ncs
      /\ forall i s n,
           ncs !! i = Some s -> counts !! i = Some n ->
           ncs' !! i = Some (RGBColor.mk
                               (sumFrom (RGBColor.r s) Point.r (members i pts))
                               (sumFrom (RGBColor.g s) Point.g (members i pts))
                               (sumFrom (RGBColor.b s) Point.b (members i pts)))
           /\ counts' !! i = Some (addCount n (members i pts)).
Proof.
  induction pts as [|p pts IH]; intros ncs counts Hlen Hb.
  - exists ncs, counts. repeat split; auto.
    + by destruct s.
  - apply Forall_cons in Hb as [Hp Hb].
    destruct (lookup_lt_is_Some_2 ncs (Point.cluster p) Hp) as [s0 Hs0].
    rewrite accumulateAll_cons, (accumulate_in_range _ _ _ _ Hs0), bind_Ok.
    rewrite increment_in_range by lia.
    set (ncs1 := <[Point.cluster p := _]> ncs).
    set (counts1 := alter _ (Point.cluster p) counts).
    assert (Hl1 : length ncs1 = length ncs) by apply length_insert.
    assert (Hl2 : length counts1 = length ncs1).
    { unfold counts1. rewrite length_alter. lia. }
    destruct (IH ncs1 counts1 Hl2) as (ncs' & counts' & Heq & Hn & Hc & Hi).
    { by rewrite Hl1. }
    exists ncs', counts'. rewrite Heq. split; [reflexivity|].
    split; [lia|]. split; [lia|].
    intros i s n Hs Hcn. unfold members.
    destruct (decide (Point.cluster p = i)) as [<-|Hne].
    + rewrite filter_cons_True by done.
      assert (s0 = s) as -> by congruence.
      destruct (Hi (Point.cluster p)
                  (RGBColor.mk (RGBColor.r s + Point.r p) (RGBColor.g s + Point.g p)
                               (RGBColor.b s + Point.b p))
                  (n + ofZ 1)%num) as [H1 H2].
      * unfold ncs1. by apply list_lookup_insert_eq.
      * unfold counts1. by rewrite list_lookup_alter_eq, Hcn.
      * split; [exact H1 | exact H2].
    + rewrite filter_cons_False by done.
      apply Hi.
      * unfold ncs1. by rewrite list_lookup_insert_ne.
      * unfold counts1. by rewrite list_lookup_alter_ne.
Qed.

Lemma ofNat_pos (n : nat) : (ofNat n >? ofZ 0)%num = (0 <? n)%nat.
Proof. change (ofZ 0) with (ofNat 0). apply ofNat_ltb. Qed.

Lemma updateCentroids_spec (cs : list RGBColor.t) (pts : list Point.t) :
  clustersBelow (length cs) pts ->
  exists cs',
    updateCentroids cs pts = Ok cs'
    /\ length cs' = length cs
    /\ forall i c, cs !! i = Some c ->
         cs' !! i = Some (if decide (members i pts = []) then c
                          else meanOf (members i pts)).
Proof.
  intros Hb. unfold updateCentroids.
  destruct (accumulateAll_spec pts
              (map (fun _ => RGBColor.mk (ofZ 0) (ofZ 0) (ofZ 0)) cs)
              (replicate (length cs) (ofZ 0)))
    as (ncs' & counts' & Heq & Hn & Hc & Hi).
  { by rewrite length_replicate, length_map. }
  { by rewrite length_map. }
  rewrite Heq. simpl. eexists. split; [reflexivity|].
  split; [by rewrite length_imap|].
  intros i c Hci. rewrite list_lookup_imap, Hci. simpl. f_equal.
  assert (Hlt : (i < length cs)%nat) by (by eapply lookup_lt_Some).
  destruct (Hi i (RGBColor.mk (ofZ 0) (ofZ 0) (ofZ 0)) (ofZ 0)) as [H1 H2].
  { by rewrite list_lookup_fmap, Hci. }
  { by apply lookup_replicate_2. }
  unfold averageAt. rewrite H1, H2. cbn [RGBColor.r RGBColor.g RGBColor.b].
  change (addCount (ofZ 0)) with (addCount (ofNat 0)).
  rewrite addCount_ofNat, ofNat_pos. cbn [Nat.add].
  destruct (decide (members i pts = [])) as [He|Hne].
  - by rewrite He.
  - destruct (members i pts) eqn:E; [done|]. reflexivity.
Qed.

(** ** Seeding *)

Lemma unitInterval_inv (u : num) :
  unitInterval u = true -> exists q, u = Fin q /\ (0 <= q)%Q /\ (q < 1)%Q.
Proof.
  unfold unitInterval. intros H. apply andb_prop in H as [H0 H1].
  destruct u as [q| | |]; simpl in *; try discriminate.
  exists q. split; [reflexivity|]. split.
  - by apply Qle_bool_iff.
  - by destruct (Qlt_le_dec q (inject_Z 1)).
Qed.

Lemma firstIndex_in_range (u : num) (n : nat) :
  unitInterval u = true -> (0 < n)%nat ->
  exists i, toIndex (Math_floor (u * ofNat n)) = Some i /\ (i < n)%nat.
Proof.
  intros Hu Hn. destruct (unitInterval_inv u Hu) as (q & -> & H0 & H1).
  unfold ofNat, ofZ. cbn [num_mul Math_floor].
  set (x := Qred (q * inject_Z (Z.of_nat n))).
  assert (Hx : (x == q * inject_Z (Z.of_nat n))%Q) by apply Qred_correct.
  assert (Hpos : (0 <= inject_Z (Z.of_nat n))%Q).
  { rewrite <- (Zle_Qle 0). lia. }
  assert (Hn' : (0 < inject_Z (Z.of_nat n))%Q).
  { rewrite <- (Zlt_Qlt 0). lia. }
  assert (Hlo : (0 <= x)%Q).
  { rewrite Hx. by apply Qmult_le_0_compat. }
  assert (Hhi : (x < inject_Z (Z.of_nat n))%Q).
  { rewrite Hx. rewrite <- (Qmult_1_l (inject_Z (Z.of_nat n))) at 2.
    by apply Qmult_lt_compat_r. }
  assert (Hf0 : 0 <= Qfloor x).
  { change 0 with (Qfloor 0). by apply Qfloor_resp_le. }
  assert (Hf1 : Qfloor x < Z.of_nat n).
  { rewrite Zlt_Qlt. eapply Qle_lt_trans; [apply Qfloor_le | exact Hhi]. }
  exists (Z.to_nat (Qfloor x)). split.
  - by apply toIndex_ofZ.
  - lia.
Qed.

Lemma selectIndex_bound (ds : list num) (j : nat) (rv : num) :
  selectIndex ds j rv = 0%nat
  \/ (j <= selectIndex ds j rv < j + length ds)%nat.
Proof.
  revert j rv. induction ds as [|d ds IH]; intros; simpl; [by left|].
  destruct (_ <=? _)%num; [right; lia|].
  destruct (IH (S j) (rv - d)%num) as [->|H]; [by left | right; lia].
Qed.

Lemma pointAt_in_range (pts : list Point.t) (i : nat) :
  (i < length pts)%nat -> exists p, p ∈ pts /\ pointAt pts (Some i) = Ok p.
Proof.
  intros H. destruct (lookup_lt_is_Some_2 pts i H) as [p Hp].
  exists p. split; [by eapply list_elem_of_lookup_2|].
  unfold pointAt. simpl. by rewrite Hp.
Qed.

Lemma seedNext_spec (pts : list Point.t) (cs : list RGBColor.t) (rng : Rand) :
  pts <> [] ->
  exists c, copyOf pts c
            /\ seedNext pts cs rng = Ok (cs ++ [c], (random rng).2).
Proof.
  intros Hne. unfold seedNext. cbn [random].
  set (ds := map (seedDistance cs) pts).
  set (rv := (_ * _)%num).
  assert (Hsel : (selectIndex ds 0 rv < length pts)%nat).
  { assert (length ds = length pts) as Hl by apply length_map.
    assert (0 < length pts)%nat by (destruct pts; [done | simpl; lia]).
    destruct (selectIndex_bound ds 0 rv) as [->|H']; lia. }
  destruct (pointAt_in_range pts _ Hsel) as (p & Hin & Hp).
  exists (copyColor p). split; [by exists p|].
  by rewrite Hp.
Qed.

Lemma seedLoop_spec (pts : list Point.t) (k : num) (indices : list nat) :
  pts <> [] ->
  forall (cs : list RGBColor.t) (rng : Rand),
    exists extra rng',
      seedLoop indices pts k cs rng = Ok (cs ++ extra, rng')
      /\ length extra = loopRounds k indices
      /\ Forall (copyOf pts) extra.
Proof.
  intros Hne. induction indices as [|i rest IH]; intros cs rng.
  - exists [], rng. simpl. by rewrite app_nil_r.
  - cbn [seedLoop loopRounds]. destruct (ofNat i <? k)%num.
    + destruct (seedNext_spec pts cs rng Hne) as (c & Hc & ->).
      rewrite bind_Ok.
      destruct (IH (cs ++ [c]) (random rng).2) as (extra & rng' & -> & Hl & Hf).
      exists (c :: extra), rng'. rewrite <- app_assoc. simpl.
      split; [reflexivity|]. split; [by rewrite Hl|]. by constructor.
    + exists [], rng. by rewrite app_nil_r.
Qed.

Lemma loopRounds_seq (k : num) (kn : nat) :
  (forall i, (ofNat i <? k)%num = (i <? kn)%nat) ->
  forall m a, loopRounds k (seq a m) = Nat.min m (kn - a).
Proof.
  intros Hk. induction m as [|m IH]; intros a; [reflexivity|].
  cbn [seq loopRounds]. rewrite Hk. destruct (Nat.ltb_spec a kn).
  - rewrite IH. lia.
  - lia.
Qed.

Lemma seedCentroids_spec (pts : list Point.t) (k : num) (rng : Rand) :
  pts <> [] -> validRand rng ->
  exists cs rng',
    seedCentroids pts k rng = Ok (cs, rng')
    /\ length cs = S (loopRounds k (seq 1 (length pts - 1)))
    /\ Forall (copyOf pts) cs.
Proof.
  intros Hne Hr. unfold seedCentroids.
  assert (Hlen : (0 < length pts)%nat) by (destruct pts; [done | simpl; lia]).
  destruct (Nat.ltb_spec 0 (length pts)); [|lia].
  cbn [random].
  destruct (firstIndex_in_range (rng 0%nat) (length pts) (Hr 0%nat) Hlen)
    as (i & Hi & Hlt).
  rewrite Hi.
  destruct (pointAt_in_range pts i Hlt) as (p & Hin & ->).
  rewrite bind_Ok.
  destruct (seedLoop_spec pts k (seq 1 (length pts - 1)) Hne [copyColor p]
              (fun n => rng (S n))) as (extra & rng' & -> & Hl & Hf).
  exists ([copyColor p] ++ extra), rng'. split; [reflexivity|].
  split; [simpl; by rewrite Hl|].
  constructor; [by exists p | exact Hf].
Qed.

(** ** The refinement loop *)

Lemma refine_succ (n : nat) (cs : list RGBColor.t) (pts : list Point.t) :
  refine (S n) cs pts
  = if negb (assignPoints cs pts false).2 then Ok (cs, (assignPoints cs pts false).1)
    else cs' ← updateCentroids cs (assignPoints cs pts false).1;
         refine n cs' (assignPoints cs pts false).1.
Proof. cbn [refine]. by destruct (assignPoints cs pts false). Qed.

(** The loop ends, with as many centroids as it started from, the colours of
    the points untouched, and (once a round has run) every point in the
    cluster that the last assignment step gave it. *)
Lemma refine_spec (n : nat) :
  forall (cs : list RGBColor.t) (pts : list Point.t),
    cs <> [] ->
    exists cs' pts',
      refine n cs pts = Ok (cs', pts')
      /\ length cs' = length cs
      /\ sameColors pts pts'
      /\ (n = 0%nat /\ pts' = pts
          \/ exists cs0, length cs0 = length cs /\ assignedBy cs0 pts').
Proof.
  induction n as [|n IH]; intros cs pts Hne.
  - exists cs, pts. repeat split; auto.
  - rewrite refine_succ.
    set (pts1 := (assignPoints cs pts false).1).
    assert (Hsame : sameColors pts pts1) by apply assignPoints_sameColors.
    assert (Hass : assignedBy cs pts1) by apply assignPoints_assignedBy.
    destruct (negb _).
    + exists cs, pts1. repeat split; auto. right. by exists cs.
    + destruct (updateCentroids_spec cs pts1) as (cs1 & -> & Hl1 & _).
      { by apply assignedBy_below. }
      rewrite bind_Ok.
      assert (Hne1 : cs1 <> []).
      { destruct cs1; [|done]. destruct cs; [done | discriminate]. }
      destruct (IH cs1 pts1 Hne1) as (cs' & pts' & -> & Hl & Hs & Hor).
      exists cs', pts'. split; [reflexivity|]. split; [lia|].
      split; [by eapply sameColors_trans|].
      right. destruct Hor as [[-> ->]|(cs0 & Hl0 & H0)].
      * by exists cs.
      * exists cs0. split; [lia | done].
Qed.

Lemma kMeans_spec (pts : list Point.t) (k : num) (n : nat) (rng : Rand) :
  pts <> [] -> validRand rng ->
  exists cs pts' rng',
    kMeans pts k n rng = Ok (cs, pts', rng')
    /\ length cs = S (loopRounds k (seq 1 (length pts - 1)))
    /\ sameColors pts pts'
    /\ (n = 0%nat /\ pts' = pts
        \/ exists cs0, length cs0 = length cs /\ assignedBy cs0 pts').
Proof.
  intros Hne Hr. unfold kMeans.
  destruct (seedCentroids_spec pts k rng Hne Hr) as (cs0 & rng' & -> & Hl & _).
  rewrite bind_Ok.
  assert (Hne0 : cs0 <> []) by (destruct cs0; [discriminate | done]).
  destruct (refine_spec n cs0 pts Hne0) as (cs & pts' & -> & Hlc & Hs & Hor).
  rewrite bind_Ok. exists cs, pts', rng'. split; [reflexivity|].
  split; [lia|]. split; [done|].
  destruct Hor as [?|(c & ? & ?)]; [by left | right; exists c; split; [lia|done]].
Qed.

(** ** Counting the clusters *)

Lemma countClusters_spec (pts : list Point.t) :
  forall counts : list num,
    clustersBelow (length counts) pts ->
    length (countClusters counts pts) = length counts
    /\ forall i n, counts !! i = Some n ->
         countClusters counts pts !! i = Some (addCount n (members i pts)).
Proof.
  induction pts as [|p pts IH]; intros counts Hb.
  - split; [reflexivity|]. intros i n H. exact H.
  - apply Forall_cons in Hb as [Hp Hb].
    unfold countClusters. cbn [fold_left].
    rewrite increment_in_range by done.
    set (counts1 := alter _ (Point.cluster p) counts).
    assert (Hl1 : length counts1 = length counts) by apply length_alter.
    destruct (IH counts1) as [Hl Hi]; [by rewrite Hl1|].
    fold (countClusters counts1 pts).
    split; [lia|].
    intros i n Hn. unfold members.
    destruct (decide (Point.cluster p = i)) as [<-|Hne].
    + rewrite filter_cons_True by done. apply Hi.
      unfold counts1. by rewrite list_lookup_alter_eq, Hn.
    + rewrite filter_cons_False by done. apply Hi.
      unfold counts1. by rewrite list_lookup_alter_ne.
Qed.

Lemma clusterSize_le pts i : (clusterSize pts i <= length pts)%nat.
Proof. apply length_filter. Qed.

Lemma clusterSize_below_sum (pts : list Point.t) (n : nat) :
  sum_list (clusterSize pts <$> seq 0 n)
  = length (filter (fun p => (Point.cluster p < n)%nat) pts).
Proof.
  induction n as [|n IH].
  - simpl. symmetry. apply length_zero_iff_nil.
    induction pts as [|p pts IHp]; [done|].
    rewrite filter_cons_False by lia. exact IHp.
  - rewrite seq_S, fmap_app, sum_list_with_app, IH. simpl.
    unfold clusterSize, members. clear IH.
    induction pts as [|p pts IHp]; [done|].
    destruct (decide (Point.cluster p < n)%nat) as [H|H].
    + rewrite (filter_cons_True (fun p => (Point.cluster p < n)%nat)) by done.
      rewrite (filter_cons_False (fun p => Point.cluster p = n)) by lia.
      rewrite (filter_cons_True (fun p => (Point.cluster p < S n)%nat)) by lia.
      simpl. lia.
    + rewrite (filter_cons_False (fun p => (Point.cluster p < n)%nat)) by done.
      destruct (decide (Point.cluster p = n)) as [E|E].
      * rewrite (filter_cons_True (fun p => Point.cluster p = n)) by done.
        rewrite (filter_cons_True (fun p => (Point.cluster p < S n)%nat)) by lia.
        simpl. lia.
      * rewrite (filter_cons_False (fun p => Point.cluster p = n)) by done.
        rewrite (filter_cons_False (fun p => (Point.cluster p < S n)%nat)) by lia.
        exact IHp.
Qed.

(** Every point is in exactly one cluster. *)
Lemma clusterSize_sum (pts : list Point.t) (n : nat) :
  clustersBelow n pts ->
  sum_list (clusterSize pts <$> seq 0 n) = length pts.
Proof.
  intros Hb. rewrite clusterSize_below_sum. f_equal.
  induction Hb as [|p pts Hp Hb IH]; [done|].
  rewrite filter_cons_True by done. by rewrite IH.
Qed.

Lemma countClusters_sizes (pts : list Point.t) (n i : nat) :
  clustersBelow n pts -> (i < n)%nat ->
  countClusters (replicate n (ofZ 0)) pts !! i = Some (ofNat (clusterSize pts i)).
Proof.
  intros Hb Hi.
  destruct (countClusters_spec pts (replicate n (ofZ 0))) as [_ H].
  { by rewrite length_replicate. }
  rewrite (H i (ofNat 0)); [|by apply lookup_replicate_2].
  by rewrite addCount_ofNat.
Qed.

(** ** Sorting *)

Lemma insertSorted_perm {A} (compare : A -> A -> num) (x : A) (l : list A) :
  insertSorted compare x l ≡ₚ x :: l.
Proof.
  induction l as [|y l IH]; cbn [insertSorted]; [done|].
  destruct (_ >? _)%num; [|done].
  rewrite IH. apply Permutation_swap.
Qed.

Lemma sort_cons {A} (compare : A -> A -> num) (x : A) (l : list A) :
  sort compare (x :: l) = insertSorted compare x (sort compare l).
Proof. reflexivity. Qed.

Lemma sort_perm {A} (compare : A -> A -> num) (l : list A) :
  sort compare l ≡ₚ l.
Proof.
  induction l as [|x l IH]; [done|].
  rewrite sort_cons, insertSorted_perm. by rewrite IH.
Qed.

Section sorting.
Context {A : Type} (compare : A -> A -> num) (key : A -> nat) (Q : A -> Prop).
Hypothesis compare_key :
  forall x y, Q x -> Q y -> (compare x y >? ofZ 0)%num = (key x <? key y)%nat.

Lemma insertSorted_sorted (x : A) (l : list A) :
  Q x -> Forall Q l -> StronglySorted (descendingBy key) l ->
  StronglySorted (descendingBy key) (insertSorted compare x l).
Proof.
  intros Hx Hl Hs. induction Hs as [|y l Hs IH Hy]; cbn [insertSorted].
  - repeat constructor.
  - apply Forall_cons in Hl as [HQy HQl].
    rewrite (compare_key x y Hx HQy).
    destruct (Nat.ltb_spec (key x) (key y)) as [Hlt|Hge].
    + constructor; [by apply IH|].
      rewrite insertSorted_perm.
      constructor; [unfold descendingBy; lia | exact Hy].
    + constructor; [by constructor|].
      constructor; [exact Hge|].
      eapply Forall_impl; [exact Hy|].
      unfold descendingBy. intros z Hz. simpl in Hz. lia.
Qed.

Lemma sort_sorted (l : list A) :
  Forall Q l -> StronglySorted (descendingBy key) (sort compare l).
Proof.
  induction 1 as [|x l Hx Hl IH]; [constructor|].
  rewrite sort_cons.
  apply insertSorted_sorted; [done | | done].
  by rewrite sort_perm.
Qed.
End sorting.

(** ** The palette entries *)

Lemma natOf_ofNat (n : nat) : natOf (ofNat n) = n.
Proof. unfold natOf. by rewrite toIndex_ofNat. Qed.

Lemma positive_entryOf total c n : positive (entryOf total c n) <-> (0 < n)%nat.
Proof.
  unfold positive, entryOf. cbn [count]. rewrite ofNat_pos.
  apply Nat.ltb_lt.
Qed.

Lemma compare_entryOf total c1 n1 c2 n2 :
  (count (entryOf total c2 n2) - count (entryOf total c1 n1) >? ofZ 0)%num
  = (n1 <? n2)%nat.
Proof.
  cbn [entryOf count]. unfold ofNat. rewrite ofZ_sub, ofZ_ltb.
  destruct (Nat.ltb_spec n1 n2); [apply Z.ltb_lt | apply Z.ltb_ge]; lia.
Qed.

Lemma percentage_range (n total : nat) :
  (n <= total)%nat -> (0 < total)%nat ->
  exists q, ((ofNat n / ofNat total) * ofZ 100)%num = Fin q
            /\ (0 <= q)%Q /\ (q <= 100)%Q.
Proof.
  intros Hn Ht. unfold ofNat, ofZ. cbn [num_div].
  assert (Hpos : (0 < inject_Z (Z.of_nat total))%Q).
  { rewrite <- (Zlt_Qlt 0). lia. }
  destruct (Qeq_bool (inject_Z (Z.of_nat total)) 0) eqn:E.
  { apply Qeq_bool_eq in E. rewrite E in Hpos. by apply Qlt_irrefl in Hpos. }
  cbn [num_mul]. eexists. split; [reflexivity|].
  set (x := (inject_Z (Z.of_nat n) / inject_Z (Z.of_nat total))%Q).
  assert (H0 : (0 <= x)%Q).
  { apply Qle_shift_div_l; [exact Hpos|]. rewrite Qmult_0_l.
    rewrite <- (Zle_Qle 0). lia. }
  assert (H1 : (x <= 1)%Q).
  { apply Qle_shift_div_r; [exact Hpos|]. rewrite Qmult_1_l.
    rewrite <- Zle_Qle. lia. }
  rewrite !Qred_correct. split.
  - apply Qmult_le_0_compat; [exact H0 | done].
  - apply Qle_trans with (1 * inject_Z 100)%Q.
    + apply Qmult_le_compat_r; [exact H1 | done].
    + done.
Qed.

Lemma entriesFrom_cons total size a c cs :
  entriesFrom total size a (c :: cs)
  = entryOf total c (size a) :: entriesFrom total size (S a) cs.
Proof.
  unfold entriesFrom. rewrite imap_cons. f_equal.
  - f_equal. f_equal. lia.
  - apply imap_ext. intros i x _. simpl. do 2 f_equal. lia.
Qed.

Lemma entriesFrom_filter_sum total size a cs :
  sum_list_with (fun e => natOf (count e))
                (filter positive (entriesFrom total size a cs))
  = sum_list (size <$> seq a (length cs)).
Proof.
  revert a. induction cs as [|c cs IH]; intros a; [done|].
  rewrite entriesFrom_cons. cbn [length seq fmap list_fmap sum_list_with].
  destruct (decide (0 < size a)%nat) as [H|H].
  - rewrite filter_cons_True by (by apply positive_entryOf).
    cbn [sum_list_with entryOf count]. rewrite natOf_ofNat, IH. done.
  - rewrite filter_cons_False by (by rewrite positive_entryOf).
    rewrite IH. simpl. lia.
Qed.

Lemma entriesFrom_filter_length total size a cs :
  length (filter positive (entriesFrom total size a cs))
  = length (filter (fun i => (0 < size i)%nat) (seq a (length cs))).
Proof.
  revert a. induction cs as [|c cs IH]; intros a; [done|].
  rewrite entriesFrom_cons. cbn [length seq].
  destruct (decide (0 < size a)%nat) as [H|H].
  - rewrite filter_cons_True by (by apply positive_entryOf).
    rewrite (filter_cons_True (fun i => (0 < size i)%nat)) by done.
    simpl. by rewrite IH.
  - rewrite filter_cons_False by (by rewrite positive_entryOf).
    rewrite (filter_cons_False (fun i => (0 < size i)%nat)) by done.
    apply IH.
Qed.

Lemma entriesFrom_forall total size a cs :
  Forall (fun e => exists c i, e = entryOf total c (size i))
         (entriesFrom total size a cs).
Proof.
  revert a. induction cs as [|c cs IH]; intros a; [constructor|].
  rewrite entriesFrom_cons. constructor; [by exists c, a | apply IH].
Qed.

Lemma makeColors_spec (cs : list RGBColor.t) (pts : list Point.t) :
  clustersBelow (length cs) pts ->
  let colors := makeColors cs (countClusters (replicate (length cs) (ofZ 0)) pts)
                           (ofNat (length pts)) in
  Forall (wellFormed (length pts)) colors
  /\ sum_list_with (fun e => natOf (count e)) colors = length pts
  /\ length colors
     = length (filter (fun i => (0 < clusterSize pts i)%nat) (seq 0 (length cs)))
  /\ StronglySorted (descendingBy (fun e => natOf (count e))) colors.
Proof.
  intros Hb colors.
  assert (Hent : imap (toColorData (countClusters (replicate (length cs) (ofZ 0)) pts)
                                   (ofNat (length pts))) cs
                 = entriesFrom (length pts) (clusterSize pts) 0 cs).
  { apply imap_ext. intros i c Hi. unfold toColorData.
    rewrite (countClusters_sizes pts (length cs) i Hb)
      by (by eapply lookup_lt_Some).
    reflexivity. }
  assert (Hperm : colors ≡ₚ filter positive
                    (entriesFrom (length pts) (clusterSize pts) 0 cs)).
  { unfold colors, makeColors. rewrite Hent. apply sort_perm. }
  assert (Hwf : Forall (wellFormed (length pts))
                  (filter positive (entriesFrom (length pts) (clusterSize pts) 0 cs))).
  { apply Forall_forall. intros e He.
    apply list_elem_of_filter in He as [Hpos He].
    pose proof (entriesFrom_forall (length pts) (clusterSize pts) 0 cs) as Hall.
    rewrite Forall_forall in Hall. destruct (Hall e He) as (c & i & ->).
    exists c, (clusterSize pts i). split; [reflexivity|].
    apply positive_entryOf in Hpos. split; [done | apply clusterSize_le]. }
  split; [by rewrite Hperm|].
  split.
  { rewrite Hperm, entriesFrom_filter_sum. by apply clusterSize_sum. }
  split.
  { rewrite Hperm. apply entriesFrom_filter_length. }
  unfold colors, makeColors. rewrite Hent.
  apply (sort_sorted _ (fun e => natOf (count e)) (wellFormed (length pts))).
  - intros x y (c1 & n1 & -> & _) (c2 & n2 & -> & _).
    rewrite compare_entryOf. cbn [entryOf count]. by rewrite !natOf_ofNat.
  - exact Hwf.
Qed.

(** ** [extractColors] after the sampling *)

Lemma Math_min_index_le (K : num) (len kn : nat) :
  toIndex (Math_min K (ofNat len)) = Some kn -> (kn <= len)%nat.
Proof.
  intros H.
  assert (Hc : Math_min K (ofNat len)
               = if (ofNat len <? K)%num then ofNat len else K).
  { unfold Math_min. destruct K; reflexivity. }
  rewrite Hc in H. destruct (ofNat len <? K)%num eqn:E.
  - rewrite toIndex_ofNat in H. injection H as <-. lia.
  - rewrite (toIndex_ltb K kn len H) in E. apply Nat.ltb_ge in E. lia.
Qed.

Lemma newArrayFilled_index (k v : num) (kn : nat) :
  toIndex k = Some kn -> Z.of_nat kn < 2 ^ 32 ->
  newArrayFilled k v = Ok (replicate kn v).
Proof.
  intros H Hlt. unfold newArrayFilled. rewrite H.
  by destruct (Z.ltb_spec (Z.of_nat kn) (2 ^ 32)); [|lia].
Qed.

Lemma newArrayFilled_no_index (k v : num) :
  toIndex k = None -> newArrayFilled k v = Throw RangeError_invalid_array_length.
Proof. intros H. unfold newArrayFilled. by rewrite H. Qed.

Lemma countClusters_empty_array (pts : list Point.t) :
  pts <> [] -> clustersBelow 1 pts -> countClusters [] pts = [NaN].
Proof.
  intros Hne Hb. destruct pts as [|p pts]; [done|].
  apply Forall_cons in Hb as [Hp Hb].
  assert (Point.cluster p = 0%nat) as Hp0 by lia.
  unfold countClusters. cbn [fold_left]. rewrite Hp0.
  change (increment [] 0) with [NaN].
  clear Hp Hp0 Hne. induction Hb as [|q pts Hq Hb IH]; [done|].
  cbn [fold_left]. assert (Point.cluster q = 0%nat) as -> by lia.
  exact IH.
Qed.

Lemma makeColors_NaN (c : RGBColor.t) (total : num) :
  makeColors [c] [NaN] total = [].
Proof. reflexivity. Qed.

Lemma clusterColors_kMeans (pts : list Point.t) (K : num) (rng : Rand) :
  pts <> [] -> validRand rng ->
  exists cs pts' rng' cs0,
    kMeans pts (Math_min K (ofNat (length pts))) 100 rng = Ok (cs, pts', rng')
    /\ length cs = S (loopRounds (Math_min K (ofNat (length pts)))
                                 (seq 1 (length pts - 1)))
    /\ sameColors pts pts'
    /\ length cs0 = length cs
    /\ assignedBy cs0 pts'.
Proof.
  intros Hne Hr.
  destruct (kMeans_spec pts (Math_min K (ofNat (length pts))) 100 rng Hne Hr)
    as (cs & pts' & rng' & Hk & Hl & Hs & [[? _]|(cs0 & Hl0 & Ha)]); [done|].
  by exists cs, pts', rng', cs0.
Qed.

(** [k] is not an array length: the count array cannot be allocated. *)
Lemma clusterColors_no_index (pts : list Point.t) (K : num) (rng : Rand) :
  pts <> [] -> validRand rng ->
  toIndex (Math_min K (ofNat (length pts))) = None ->
  clusterColors pts K rng = Throw RangeError_invalid_array_length.
Proof.
  intros Hne Hr Hk. unfold clusterColors.
  destruct (clusterColors_kMeans pts K rng Hne Hr)
    as (cs & pts' & rng' & cs0 & -> & _).
  rewrite bind_Ok. cbn beta iota. by rewrite newArrayFilled_no_index.
Qed.

(** [k] is [0]: one centroid, a count array that [clusterCounts[0]++] turns
    into [[NaN]], and no entry left by the filter. *)
Lemma clusterColors_zero (pts : list Point.t) (K : num) (rng : Rand) :
  pts <> [] -> validRand rng ->
  toIndex (Math_min K (ofNat (length pts))) = Some 0%nat ->
  clusterColors pts K rng = Ok [].
Proof.
  intros Hne Hr Hk. unfold clusterColors.
  destruct (clusterColors_kMeans pts K rng Hne Hr)
    as (cs & pts' & rng' & cs0 & -> & Hl & Hs & Hl0 & Ha).
  rewrite bind_Ok. cbn beta iota.
  rewrite (newArrayFilled_index _ _ 0%nat Hk) by done.
  rewrite bind_Ok. cbn [replicate].
  rewrite (loopRounds_seq _ 0%nat) in Hl by (intros i; by apply toIndex_ltb).
  replace (Nat.min (length pts - 1) (0 - 1)) with 0%nat in Hl by lia.
  destruct cs as [|c [|? ?]]; try discriminate.
  assert (Hne0 : cs0 <> []) by (destruct cs0; [discriminate | done]).
  pose proof (assignedBy_below cs0 pts' Hne0 Ha) as Hb. rewrite Hl0 in Hb.
  assert (Hne' : pts' <> []).
  { apply sameColors_length in Hs. destruct pts', pts; try done. }
  rewrite (countClusters_empty_array pts' Hne' Hb).
  by rewrite makeColors_NaN.
Qed.

(** [k] is a positive integer: that many centroids, every point counted in
    the cluster of its centroid. *)
Lemma clusterColors_positive (pts : list Point.t) (K : num) (rng : Rand) (kn : nat) :
  pts <> [] -> validRand rng -> Z.of_nat (length pts) < 2 ^ 32 ->
  toIndex (Math_min K (ofNat (length pts))) = Some kn -> (0 < kn)%nat ->
  exists cs pts' cs0,
    clusterColors pts K rng
    = Ok (makeColors cs (countClusters (replicate (length cs) (ofZ 0)) pts')
                     (ofNat (length pts')))
    /\ length cs = kn /\ (kn <= length pts)%nat
    /\ sameColors pts pts'
    /\ length cs0 = kn /\ assignedBy cs0 pts'
    /\ clustersBelow (length cs) pts'.
Proof.
  intros Hne Hr Hlen Hk Hpos. unfold clusterColors.
  pose proof (Math_min_index_le K _ _ Hk) as Hle.
  destruct (clusterColors_kMeans pts K rng Hne Hr)
    as (cs & pts' & rng' & cs0 & -> & Hl & Hs & Hl0 & Ha).
  rewrite bind_Ok. cbn beta iota.
  rewrite (newArrayFilled_index _ _ kn Hk) by lia.
  rewrite bind_Ok.
  rewrite (loopRounds_seq _ kn) in Hl by (intros i; by apply toIndex_ltb).
  assert (Hcs : length cs = kn) by lia.
  assert (Hne0 : cs0 <> []) by (destruct cs0; [simpl in Hl0; lia | done]).
  exists cs, pts', cs0. rewrite Hcs. split; [reflexivity|].
  split; [done|]. split; [done|]. split; [done|]. split; [lia|].
  split; [done|].
  rewrite <- Hcs, <- Hl0. by apply assignedBy_below.
Qed.

(** ** The sampler *)

(** The samples are the pixels whose alpha is at least 128, in order. *)
Lemma samplePixels_imageData (pixels : list (Z * Z * Z * Z)) :
  samplePixels (imageData pixels)
  = pointOfPixel <$> filter (fun px => 128 <= alpha px) pixels.
Proof.
  induction pixels as [|[[[r g] b] a] pixels IH]; [done|].
  change (imageData ((r, g, b, a) :: pixels))
    with (r :: g :: b :: a :: imageData pixels).
  cbn [samplePixels]. rewrite ofZ_ltb, IH.
  destruct (Z.ltb_spec a 128).
  - rewrite filter_cons_False; [done | unfold alpha; simpl; lia].
  - rewrite filter_cons_True; [done | unfold alpha; simpl; lia].
Qed.

Lemma extractColors_samples (data : list Z) (K : num) (rng : Rand) :
  samplePixels data <> [] ->
  extractColors data K rng
  = match clusterColors (samplePixels data) K rng with
    | Ok colors => Resolved colors
    | Throw error => Rejected error
    end.
Proof.
  intros Hne. unfold extractColors.
  destruct (samplePixels data); [done | reflexivity].
Qed.

Lemma extractColors_no_samples (data : list Z) (K : num) (rng : Rand) :
  samplePixels data = [] -> extractColors data K rng = Resolved fallbackColors.
Proof. intros H. unfold extractColors. by rewrite H. Qed.

(** ** The palette of an image with eligible pixels *)

Lemma colorOf_pointOfColor (p : Point.t) : colorOf (pointOfColor (colorOf p)) = colorOf p.
Proof. reflexivity. Qed.

(** Points of one colour are in one cluster, so the clusters that are not
    empty are no more than the colours. *)
Lemma nonempty_clusters_le_colors (cs0 : list RGBColor.t) (pts : list Point.t) (n : nat) :
  assignedBy cs0 pts ->
  (length (filter (fun i => (0 < clusterSize pts i)%nat) (seq 0 n))
   <= distinctColors pts)%nat.
Proof.
  intros Ha. unfold distinctColors.
  set (f := fun col => clusterOf cs0 (pointOfColor col)).
  rewrite <- (length_fmap f (remove_dups (colorOf <$> pts))).
  apply submseteq_length, NoDup_submseteq.
  - apply NoDup_filter, NoDup_seq.
  - intros i Hi. apply list_elem_of_filter in Hi as [Hpos _].
    unfold clusterSize, members in Hpos.
    destruct (filter (fun p => Point.cluster p = i) pts) as [|p l] eqn:E;
      [simpl in Hpos; lia|].
    assert (Hp : p ∈ filter (fun p => Point.cluster p = i) pts)
      by (rewrite E; left).
    apply list_elem_of_filter in Hp as [Hci Hp].
    apply list_elem_of_fmap. exists (colorOf p). split.
    + unfold f. rewrite <- Hci.
      unfold assignedBy in Ha. rewrite Forall_forall in Ha.
      rewrite (Ha p Hp). apply clusterOf_color.
      by rewrite colorOf_pointOfColor.
    + apply elem_of_remove_dups, list_elem_of_fmap. by exists p.
Qed.

Lemma distinctColors_sameColors pts pts' :
  sameColors pts pts' -> distinctColors pts' = distinctColors pts.
Proof.
  unfold sameColors, distinctColors. intros H.
  change (colorOf <$> pts') with (map colorOf pts').
  change (colorOf <$> pts) with (map colorOf pts). by rewrite H.
Qed.

Lemma wellFormed_sorted (total : nat) (colors : list ColorData) :
  Forall (wellFormed total) colors ->
  StronglySorted (descendingBy (fun e => natOf (count e))) colors ->
  sortedByCount colors.
Proof.
  intros Hwf Hs. induction Hs as [|e l Hs IH He]; [constructor|].
  apply Forall_cons in Hwf as [(c & n & -> & _) Hwf].
  constructor; [by apply IH|].
  rewrite Forall_forall in He, Hwf. apply Forall_forall. intros e' Hin.
  specialize (He e' Hin). destruct (Hwf e' Hin) as (c' & n' & -> & _).
  unfold descendingBy in He. cbn [entryOf count] in *.
  rewrite !natOf_ofNat in He.
  unfold ofNat. rewrite ofZ_leb. apply Z.leb_le. lia.
Qed.

(** The sum of the counts, as JavaScript adds them up from [a]. *)
Lemma wellFormed_sum (total : nat) (colors : list ColorData) (a : nat) :
  Forall (wellFormed total) colors ->
  fold_left num_add (count <$> colors) (ofNat a)
  = ofNat (a + sum_list_with (fun e => natOf (count e)) colors).
Proof.
  intros Hwf. revert a. induction Hwf as [|e l (c & n & -> & _) Hwf IH]; intros a.
  - simpl. f_equal. lia.
  - cbn [fmap list_fmap fold_left sum_list_with entryOf count].
    unfold ofNat at 1 2. rewrite ofZ_add, natOf_ofNat.
    replace (Z.of_nat a + Z.of_nat n) with (Z.of_nat (a + n)) by lia.
    fold (ofNat (a + n)). rewrite IH. f_equal. lia.
Qed.

(** With at least one sample and a [k] that denotes a positive integer, the
    promise is resolved, and the palette has these properties. *)
Lemma palette_facts (data : list Z) (K : num) (rng : Rand) (kn : nat) :
  validRand rng ->
  samplePixels data <> [] ->
  Z.of_nat (length (samplePixels data)) < 2 ^ 32 ->
  toIndex (Math_min K (ofNat (length (samplePixels data)))) = Some kn ->
  (0 < kn)%nat ->
  exists colors,
    extractColors data K rng = Resolved colors
    /\ Forall (wellFormed (length (samplePixels data))) colors
    /\ sum_list_with (fun e => natOf (count e)) colors = length (samplePixels data)
    /\ (1 <= length colors <= kn)%nat
    /\ (length colors <= distinctColors (samplePixels data))%nat
    /\ sortedByCount colors.
Proof.
  intros Hr Hne Hlen Hk Hpos.
  destruct (clusterColors_positive _ K rng kn Hne Hr Hlen Hk Hpos)
    as (cs & pts' & cs0 & Heq & Hcs & Hle & Hs & Hl0 & Ha & Hb).
  rewrite extractColors_samples, Heq by done.
  destruct (makeColors_spec cs pts' Hb) as (Hwf & Hsum & Hlc & Hsorted).
  set (colors := makeColors cs _ _) in *.
  pose proof (sameColors_length _ _ Hs) as Hlp. rewrite Hlp in *.
  exists colors. split; [reflexivity|]. split; [exact Hwf|].
  split; [exact Hsum|].
  assert (Hlen0 : (0 < length (samplePixels data))%nat).
  { destruct (samplePixels data); [done | simpl; lia]. }
  split; [split|].
  - destruct colors; [simpl in Hsum; lia | simpl; lia].
  - rewrite Hlc. etransitivity; [apply length_filter|].
    rewrite length_seq. lia.
  - split.
    + rewrite Hlc, <- (distinctColors_sameColors _ _ Hs).
      by eapply nonempty_clusters_le_colors.
    + by eapply wellFormed_sorted.
Qed.

Lemma Math_min_ofZ (z : Z) (len : nat) :
  Math_min (ofZ z) (ofNat len)
  = if Z.of_nat len <? z then ofNat len else ofZ z.
Proof.
  change (Math_min (ofZ z) (ofNat len))
    with (if (ofNat len <? ofZ z)%num then ofNat len else ofZ z).
  unfold ofNat. by rewrite ofZ_ltb.
Qed.

Lemma Math_min_negative (K : num) (len : nat) :
  (K <? ofZ 0)%num = true -> toIndex (Math_min K (ofNat len)) = None.
Proof.
  intros H. destruct K as [q| | |]; try discriminate; [|reflexivity].
  simpl in H. destruct (Qlt_le_dec q (inject_Z 0)) as [Hq|]; [|discriminate].
  assert (Hmin : Math_min (Fin q) (ofNat len) = Fin q).
  { unfold Math_min, ofNat, ofZ. cbn [num_ltb].
    destruct (Qlt_le_dec (inject_Z (Z.of_nat len)) q) as [Hl|]; [|reflexivity].
    exfalso. apply (Qlt_irrefl q).
    eapply Qlt_trans; [exact Hq|]. eapply Qle_lt_trans; [|exact Hl].
    rewrite <- Zle_Qle. lia. }
  rewrite Hmin. unfold toIndex.
  destruct (Z.leb_spec 0 (Qfloor q)) as [Hf|]; [|by rewrite andb_false_r].
  exfalso. apply (Qlt_irrefl q).
  eapply Qlt_le_trans; [exact Hq|].
  eapply Qle_trans; [|apply Qfloor_le]. rewrite <- Zle_Qle. exact Hf.
Qed.

Lemma Math_min_positive_integer (K : Z) (len : nat) :
  1 <= K -> (0 < len)%nat ->
  exists kn, toIndex (Math_min (ofZ K) (ofNat len)) = Some kn
             /\ (0 < kn)%nat /\ Z.of_nat kn <= K.
Proof.
  intros HK Hlen. rewrite Math_min_ofZ.
  destruct (Z.ltb_spec (Z.of_nat len) K).
  - exists len. rewrite toIndex_ofNat. repeat split; lia.
  - exists (Z.to_nat K). rewrite toIndex_ofZ by lia. repeat split; lia.
Qed.

Lemma nonempty_length {A} (l : list A) : l <> [] -> (0 < length l)%nat.
Proof. destruct l; [done | simpl; lia]. Qed.

Lemma ofNat_leb_trans (a b : nat) (K : num) :
  (a <= b)%nat -> (ofNat b <=? K)%num = true -> (ofNat a <=? K)%num = true.
Proof.
  intros Hab. destruct K as [q| | |]; try done.
  unfold ofNat, ofZ. cbn [num_leb]. rewrite !Qle_bool_iff. intros H.
  eapply Qle_trans; [|exact H]. rewrite <- Zle_Qle. lia.
Qed.

(** What [Math.min(K, n)] is for a colour count [K] of 1 or more, any number:
    a positive integer not above [K] when [K] is an integer or at least [n],
    and no array length otherwise. *)
Lemma Math_min_whole_or_above (K : num) (len : nat) :
  (ofZ 1 <=? K)%num = true -> (0 < len)%nat ->
  if wholeOrAbove K len
  then exists kn, toIndex (Math_min K (ofNat len)) = Some kn
                  /\ (0 < kn)%nat /\ (ofNat kn <=? K)%num = true
  else toIndex (Math_min K (ofNat len)) = None.
Proof.
  intros HK Hlen. destruct K as [q| | |]; try discriminate.
  - cbn [num_leb ofZ] in HK. apply Qle_bool_iff in HK.
    assert (Hfl : 1 <= Qfloor q).
    { rewrite <- (Qfloor_Z 1). by apply Qfloor_resp_le. }
    unfold wholeOrAbove, isInteger, Math_min, ofNat, ofZ. cbn [num_ltb num_leb].
    destruct (Qlt_le_dec (inject_Z (Z.of_nat len)) q) as [Hlt|Hle].
    + replace (Qle_bool (inject_Z (Z.of_nat len)) q) with true
        by (symmetry; by apply Qle_bool_iff, Qlt_le_weak).
      rewrite orb_true_r. exists len.
      split; [apply toIndex_ofNat|]. split; [exact Hlen|].
      by apply Qle_bool_iff, Qlt_le_weak.
    + cbn [toIndex].
      replace (0 <=? Qfloor q) with true by (symmetry; apply Z.leb_le; lia).
      rewrite andb_true_r.
      destruct (Qeq_bool q (inject_Z (Qfloor q))) eqn:E.
      * cbn [orb]. exists (Z.to_nat (Qfloor q)).
        split; [reflexivity|]. split; [lia|].
        apply Qle_bool_iff. rewrite Z2Nat.id by lia. apply Qfloor_le.
      * cbn [orb].
        destruct (Qle_bool (inject_Z (Z.of_nat len)) q) eqn:E'; [|reflexivity].
        exfalso. apply Qle_bool_iff in E'.
        assert (Heq : (q == inject_Z (Z.of_nat len))%Q) by (by apply Qle_antisym).
        assert (Hf : Qfloor q = Z.of_nat len) by (by rewrite Heq, Qfloor_Z).
        rewrite Hf in E.
        apply Qeq_bool_iff in Heq. by rewrite Heq in E.
  - unfold wholeOrAbove. cbn. exists len.
    split; [apply toIndex_ofNat|]. by split.
Qed.

Lemma validRand_const_half : validRand (constRand (1 # 2)).
Proof. intros i. reflexivity. Qed.

Lemma wellFormed_entry (total : nat) (e : ColorData) :
  wellFormed total e -> positiveCount e /\ percentageInRange e.
Proof.
  intros (c & n & -> & Hn). split.
  - exists n. split; [lia | reflexivity].
  - apply percentage_range; lia.
Qed.

(** ** The draws of the seeding *)

Lemma sameDraws_tail n rng1 rng2 :
  sameDraws (S n) rng1 rng2 -> sameDraws n (random rng1).2 (random rng2).2.
Proof. intros H i Hi. apply H. lia. Qed.

Lemma seedNext_agree pts cs rng1 rng2 :
  rng1 0%nat = rng2 0%nat ->
  (exists c, seedNext pts cs rng1 = Ok (cs ++ [c], (random rng1).2)
             /\ seedNext pts cs rng2 = Ok (cs ++ [c], (random rng2).2))
  \/ (exists e, seedNext pts cs rng1 = Throw e /\ seedNext pts cs rng2 = Throw e).
Proof.
  intros H0. unfold seedNext. cbn [random]. rewrite H0.
  destruct (pointAt pts _) as [p|e].
  - left. by exists (copyColor p).
  - right. by exists e.
Qed.

Lemma seedLoop_agree pts k indices :
  forall cs rng1 rng2,
    sameDraws (length indices) rng1 rng2 ->
    agree (seedLoop indices pts k cs rng1) (seedLoop indices pts k cs rng2).
Proof.
  induction indices as [|i rest IH]; intros cs rng1 rng2 Hd.
  - reflexivity.
  - cbn [seedLoop]. destruct (ofNat i <? k)%num; [|reflexivity].
    destruct (seedNext_agree pts cs rng1 rng2) as [(c & -> & ->)|(e & -> & ->)].
    + apply Hd. simpl. lia.
    + rewrite !bind_Ok. apply IH. by apply sameDraws_tail.
    + reflexivity.
Qed.

Lemma seedCentroids_agree pts k rng1 rng2 :
  sameDraws (length pts) rng1 rng2 ->
  agree (seedCentroids pts k rng1) (seedCentroids pts k rng2).
Proof.
  intros Hd. unfold seedCentroids.
  destruct (Nat.ltb_spec 0 (length pts)) as [Hlen|]; [|reflexivity].
  cbn [random]. rewrite (Hd 0%nat Hlen).
  destruct (pointAt pts _) as [p|e]; [|reflexivity].
  rewrite !bind_Ok. apply seedLoop_agree.
  intros i Hi. rewrite length_seq in Hi. apply Hd. lia.
Qed.

Lemma clusterColors_agree pts K rng1 rng2 :
  sameDraws (length pts) rng1 rng2 ->
  clusterColors pts K rng1 = clusterColors pts K rng2.
Proof.
  intros Hd. unfold clusterColors, kMeans.
  pose proof (seedCentroids_agree pts (Math_min K (ofNat (length pts)))
                rng1 rng2 Hd) as Ha.
  destruct (seedCentroids pts _ rng1) as [[cs1 r1]|e1],
           (seedCentroids pts _ rng2) as [[cs2 r2]|e2];
    simpl in Ha; try done; [|by subst].
  subst cs2. rewrite !bind_Ok.
  destruct (refine 100 cs1 pts) as [[cs pts']|e]; reflexivity.
Qed.

(** ** Channel bounds *)

Lemma sum_in_range (xs : list num) :
  Forall channelInRange xs ->
  forall a : Q, (0 <= a)%Q ->
    exists s : Q,
      fold_left num_add xs (Fin a) = Fin s
      /\ (0 <= s)%Q
      /\ (s <= a + 255 * inject_Z (Z.of_nat (length xs)))%Q.
Proof.
  induction 1 as [|x xs (q & -> & Hq0 & Hq1) Hxs IH]; intros a Ha.
  - exists a. split; [reflexivity|]. split; [exact Ha|].
    simpl. rewrite Qmult_0_r, Qplus_0_r. apply Qle_refl.
  - cbn [fold_left num_add].
    assert (Hred : (Qred (a + q) == a + q)%Q) by apply Qred_correct.
    destruct (IH (Qred (a + q))) as (s & Hs & Hs0 & Hs1).
    { rewrite Hred. replace 0%Q with (0 + 0)%Q by reflexivity.
      by apply Qplus_le_compat. }
    exists s. split; [exact Hs|]. split; [exact Hs0|].
    eapply Qle_trans; [exact Hs1|]. rewrite Hred.
    cbn [length]. rewrite Nat2Z.inj_succ, <- Z.add_1_r, inject_Z_plus.
    rewrite Qmult_plus_distr_r, <- Qplus_assoc.
    apply Qplus_le_compat; [apply Qle_refl|].
    rewrite (Qplus_comm (255 * inject_Z (Z.of_nat (length xs)))).
    apply Qplus_le_compat; [|apply Qle_refl].
    change (inject_Z 1) with 1%Q. by rewrite Qmult_1_r.
Qed.

Lemma mean_in_range (f : Point.t -> num) (pts : list Point.t) :
  pts <> [] -> Forall (fun p => channelInRange (f p)) pts ->
  channelInRange (sumFrom (ofZ 0) f pts / ofNat (length pts)).
Proof.
  intros Hne Hf. unfold sumFrom.
  destruct (sum_in_range (map f pts)) with (a := 0%Q) as (s & Hs & Hs0 & Hs1).
  { by apply Forall_map. }
  { apply Qle_refl. }
  change (ofZ 0) with (Fin 0). rewrite Hs.
  rewrite length_map, Qplus_0_l in Hs1.
  assert (Hlen : (0 < length pts)%nat) by by apply nonempty_length.
  assert (Hpos : (0 < inject_Z (Z.of_nat (length pts)))%Q).
  { rewrite <- (Zlt_Qlt 0). lia. }
  unfold ofNat, ofZ. cbn [num_div].
  destruct (Qeq_bool (inject_Z (Z.of_nat (length pts))) 0) eqn:E.
  { apply Qeq_bool_eq in E. rewrite E in Hpos. by apply Qlt_irrefl in Hpos. }
  eexists. split; [reflexivity|]. rewrite Qred_correct. split.
  - apply Qle_shift_div_l; [exact Hpos|]. by rewrite Qmult_0_l.
  - apply Qle_shift_div_r; [exact Hpos | exact Hs1].
Qed.

Lemma meanOf_in_range (pts : list Point.t) :
  pts <> [] -> Forall pointInRange pts -> centroidInRange (meanOf pts).
Proof.
  intros Hne Hp. unfold meanOf, centroidInRange. cbn [RGBColor.r RGBColor.g RGBColor.b].
  repeat split; apply mean_in_range; try done;
    (eapply Forall_impl; [exact Hp|]); intros p (Hr & Hg & Hb); done.
Qed.

Lemma updateCentroids_in_range (cs cs' : list RGBColor.t) (pts : list Point.t) :
  clustersBelow (length cs) pts ->
  Forall centroidInRange cs -> Forall pointInRange pts ->
  updateCentroids cs pts = Ok cs' ->
  Forall centroidInRange cs'.
Proof.
  intros Hb Hcs Hpts Heq.
  destruct (updateCentroids_spec cs pts Hb) as (cs1 & Heq1 & Hl & Hi).
  rewrite Heq in Heq1. injection Heq1 as <-.
  apply Forall_lookup. intros i c' Hc'.
  assert (Hlt : (i < length cs)%nat).
  { rewrite <- Hl. by eapply lookup_lt_Some. }
  destruct (lookup_lt_is_Some_2 cs i Hlt) as [c Hc].
  rewrite (Hi i c Hc) in Hc'. injection Hc' as <-.
  destruct (decide (members i pts = [])) as [He|Hne].
  - by eapply (proj1 (Forall_lookup _ _) Hcs).
  - apply meanOf_in_range; [exact Hne|].
    apply Forall_forall. intros p Hin.
    apply list_elem_of_filter in Hin as [_ Hin].
    rewrite Forall_forall in Hpts. by apply Hpts.
Qed.

Lemma pointInRange_sameColors (pts pts' : list Point.t) :
  sameColors pts pts' -> Forall pointInRange pts -> Forall pointInRange pts'.
Proof.
  unfold sameColors. intros Hs Hp.
  assert (Hc : Forall (fun col : num * num * num =>
                         channelInRange col.1.1 /\ channelInRange col.1.2
                         /\ channelInRange col.2) (map colorOf pts)).
  { by apply Forall_map. }
  rewrite <- Hs in Hc. by apply Forall_map in Hc.
Qed.

Lemma refine_in_range (n : nat) :
  forall cs pts cs' pts',
    cs <> [] -> Forall centroidInRange cs -> Forall pointInRange pts ->
    refine n cs pts = Ok (cs', pts') ->
    Forall centroidInRange cs'.
Proof.
  induction n as [|n IH]; intros cs pts cs' pts' Hne Hcs Hpts Heq.
  - simpl in Heq. by injection Heq as <- <-.
  - rewrite refine_succ in Heq.
    set (pts1 := (assignPoints cs pts false).1) in *.
    assert (Hp1 : Forall pointInRange pts1).
    { eapply pointInRange_sameColors; [apply assignPoints_sameColors | done]. }
    assert (Hb1 : clustersBelow (length cs) pts1).
    { apply assignedBy_below; [done | apply assignPoints_assignedBy]. }
    destruct (negb _); [by injection Heq as <- <-|].
    destruct (updateCentroids_spec cs pts1 Hb1) as (cs1 & Hu & Hl1 & _).
    rewrite Hu, bind_Ok in Heq.
    eapply (IH cs1 pts1 cs' pts'); [| |exact Hp1|exact Heq].
    + destruct cs1; [|done]. destruct cs; [done | discriminate].
    + by eapply updateCentroids_in_range.
Qed.

Lemma copyOf_in_range (pts : list Point.t) (c : RGBColor.t) :
  Forall pointInRange pts -> copyOf pts c -> centroidInRange c.
Proof.
  intros Hp (p & Hin & ->). rewrite Forall_forall in Hp. exact (Hp p Hin).
Qed.

Lemma kMeans_no_points (k : num) (maxIterations : nat) (rng : Rand) :
  kMeans [] k maxIterations rng = Ok ([], [], rng).
Proof. by destruct maxIterations. Qed.

(** ** [rgbToHex] *)

Lemma toHex_Fin (q : Q) : toHex (Fin q) = paddedHex (roundQ q).
Proof.
  unfold toHex, paddedHex, roundQ, Math_round, toString16, ofZ.
  by rewrite Qfloor_Z.
Qed.

Lemma toUpperCase_app (s1 s2 : string) :
  toUpperCase (s1 +:+ s2) = toUpperCase s1 +:+ toUpperCase s2.
Proof. induction s1 as [|c s1 IH]; [done|]. simpl. by rewrite IH. Qed.

Lemma paddedHex_bytes :
  forallb (fun m => String.eqb (toUpperCase (paddedHex (Z.of_nat m)))
                               (hexByte (Z.of_nat m)))
          (seq 0 256) = true.
Proof. vm_compute. reflexivity. Qed.

Lemma paddedHex_byte (n : Z) :
  0 <= n <= 255 -> toUpperCase (paddedHex n) = hexByte n.
Proof.
  intros Hn. pose proof paddedHex_bytes as H.
  rewrite forallb_forall in H.
  specialize (H (Z.to_nat n)). rewrite Z2Nat.id in H by lia.
  apply String.eqb_eq, H, in_seq. lia.
Qed.

Lemma roundQ_byte (q : Q) :
  (0 <= q)%Q -> (q <= 255)%Q -> 0 <= roundQ q <= 255.
Proof.
  intros H0 H1. unfold roundQ. split.
  - change 0 with (Qfloor 0). apply Qfloor_resp_le.
    replace 0%Q with (0 + 0)%Q by reflexivity.
    apply Qplus_le_compat; [exact H0 | done].
  - assert (H : Qfloor (q + (1 # 2)) <= Qfloor (255 + (1 # 2))).
    { apply Qfloor_resp_le. apply Qplus_le_compat; [exact H1 | apply Qle_refl]. }
    exact H.
Qed.

(** [roundQ q] is the integer nearest to [q], the upper one on a tie. *)
Lemma roundQ_nearest (q : Q) :
  (q - (1 # 2) < inject_Z (roundQ q))%Q /\ (inject_Z (roundQ q) <= q + (1 # 2))%Q.
Proof.
  unfold roundQ. split.
  - pose proof (Qlt_floor (q + (1 # 2))) as H.
    rewrite inject_Z_plus in H. change (inject_Z 1) with 1%Q in H.
    apply (Qplus_lt_l _ _ 1). eapply Qle_lt_trans; [|exact H].
    ring_simplify. apply Qle_refl.
  - apply Qfloor_le.
Qed.

(** * The claims *)

(** C1, as stated, fails: with one opaque pixel and a colour count of [0]
    the promise is resolved, with the empty palette, and with no eligible
    pixel and a colour count of [-1] it is resolved with the fallback
    entry.  Neither call is rejected. *)
Lemma C1_counterexample :
  extractColors [10; 20; 30; 255] (ofZ 0) (constRand (1 # 2)) = Resolved []
  /\ extractColors [10; 20; 30; 0] (ofZ (-1)) (constRand (1 # 2))
     = Resolved [mkColorData "#FFFFFF" (ofZ 1) (ofZ 100)].
Proof. split; vm_compute; reflexivity. Qed.

(** C1, amended.  [extractColors] does not validate the colour count.  With
    at least one eligible pixel, a count of [0] resolves with the empty
    palette, and a negative count (finite or [-Infinity]) or [NaN] rejects
    with the [RangeError] of [new Array(k)], so that no palette is returned;
    with no eligible pixel the promise resolves with the fallback entry,
    whatever the count is. *)
Theorem C1_degenerate_colour_count (data : list Z) (K : num) (rng : Rand) :
  validRand rng ->
  (samplePixels data = [] ->
     extractColors data K rng = Resolved fallbackColors)
  /\ (samplePixels data <> [] -> K = ofZ 0 ->
        extractColors data K rng = Resolved [])
  /\ (samplePixels data <> [] -> (K <? ofZ 0)%num = true \/ K = NaN ->
        extractColors data K rng = Rejected RangeError_invalid_array_length).
Proof.
  intros Hr. split; [apply extractColors_no_samples|]. split.
  - intros Hne ->. rewrite extractColors_samples by done.
    rewrite clusterColors_zero; [done..|].
    assert (Hlen : (0 < length (samplePixels data))%nat).
    { destruct (samplePixels data); [done | simpl; lia]. }
    rewrite Math_min_ofZ.
    destruct (Z.ltb_spec (Z.of_nat (length (samplePixels data))) 0); [lia|].
    by rewrite toIndex_ofZ.
  - intros Hne HK. rewrite extractColors_samples by done.
    rewrite clusterColors_no_index; [done..|].
    destruct HK as [HK| ->]; [by apply Math_min_negative | reflexivity].
Qed.

Lemma C1_degenerate_colour_count_witness :
  validRand (constRand (1 # 2))
  /\ extractColors [10; 20; 30; 255] (ofZ 0) (constRand (1 # 2)) = Resolved []
  /\ extractColors [10; 20; 30; 255] (ofZ (-3)) (constRand (1 # 2))
     = Rejected RangeError_invalid_array_length
  /\ extractColors [10; 20; 30; 255] NaN (constRand (1 # 2))
     = Rejected RangeError_invalid_array_length.
Proof.
  pose proof validRand_const_half as Hr.
  split; [exact Hr|]. split; [|split].
  - apply (C1_degenerate_colour_count [10; 20; 30; 255] (ofZ 0) _ Hr);
      [discriminate | reflexivity].
  - apply (C1_degenerate_colour_count [10; 20; 30; 255] (ofZ (-3)) _ Hr);
      [discriminate | left; reflexivity].
  - apply (C1_degenerate_colour_count [10; 20; 30; 255] NaN _ Hr);
      [discriminate | right; reflexivity].
Defined.

(** C2. With at least one eligible pixel and a colour count [K] of 1 or
    more, any JavaScript number, every palette that [extractColors] returns
    has counts that add up to the number of eligible pixels: each pixel is
    counted in exactly one cluster, and the clusters the filter drops hold
    none.  A palette is returned whenever [K] is an integer or is the number
    of samples or more (also [+Infinity]); for any other [K], a fraction
    below the number of samples, the count array cannot be allocated and the
    promise is rejected.  ([Math.random] is taken to return values from 0 to
    1, 1 excluded, and the array of samples to hold fewer than [2^32]
    elements, as every JavaScript array does.) *)
Theorem C2_counts_sum_to_samples (data : list Z) (K : num) (rng : Rand) :
  validRand rng ->
  samplePixels data <> [] ->
  Z.of_nat (length (samplePixels data)) < 2 ^ 32 ->
  (ofZ 1 <=? K)%num = true ->
  (forall colors,
     extractColors data K rng = Resolved colors ->
     fold_left num_add (count <$> colors) (ofZ 0)
     = ofNat (length (samplePixels data)))
  /\ (if wholeOrAbove K (length (samplePixels data))
      then exists colors, extractColors data K rng = Resolved colors
      else extractColors data K rng = Rejected RangeError_invalid_array_length).
Proof.
  intros Hr Hne Hlen HK.
  pose proof (Math_min_whole_or_above K _ HK (nonempty_length _ Hne)) as Hmin.
  destruct (wholeOrAbove K (length (samplePixels data))).
  - destruct Hmin as (kn & Hk & Hpos & _).
    destruct (palette_facts data K rng kn Hr Hne Hlen Hk Hpos)
      as (colors & Heq & Hwf & Hsum & _).
    split; [|by exists colors].
    intros colors' Heq'. rewrite Heq in Heq'. injection Heq' as <-.
    change (ofZ 0) with (ofNat 0). rewrite (wellFormed_sum _ _ 0%nat Hwf).
    by rewrite Hsum.
  - assert (Hrej : extractColors data K rng
                   = Rejected RangeError_invalid_array_length).
    { rewrite extractColors_samples by done.
      by rewrite clusterColors_no_index. }
    split; [|exact Hrej]. intros colors Heq. by rewrite Hrej in Heq.
Qed.

Lemma C2_counts_sum_to_samples_witness :
  (exists colors,
     extractColors sampleImage (ofZ 6) (constRand (1 # 2)) = Resolved colors
     /\ fold_left num_add (count <$> colors) (ofZ 0) = ofZ 4)
  /\ (exists colors,
        extractColors sampleImage PInf (constRand (1 # 2)) = Resolved colors
        /\ fold_left num_add (count <$> colors) (ofZ 0) = ofZ 4)
  /\ extractColors sampleImage (Fin (5 # 2)) (constRand (1 # 2))
     = Rejected RangeError_invalid_array_length.
Proof.
  pose proof validRand_const_half as Hr.
  assert (Hne : samplePixels sampleImage <> []) by discriminate.
  assert (Hlen : Z.of_nat (length (samplePixels sampleImage)) < 2 ^ 32)
    by (vm_compute; reflexivity).
  split; [|split].
  - destruct (C2_counts_sum_to_samples sampleImage (ofZ 6) _ Hr Hne Hlen eq_refl)
      as [Hsum [colors Heq]].
    exists colors. split; [exact Heq | exact (Hsum colors Heq)].
  - destruct (C2_counts_sum_to_samples sampleImage PInf _ Hr Hne Hlen eq_refl)
      as [Hsum [colors Heq]].
    exists colors. split; [exact Heq | exact (Hsum colors Heq)].
  - destruct (C2_counts_sum_to_samples sampleImage (Fin (5 # 2)) _ Hr Hne Hlen
                eq_refl) as [_ Hrej].
    exact Hrej.
Defined.

(** C3, as stated, fails on the sample set that is empty: for an image of
    one transparent pixel the palette has one entry, the fallback, while the
    samples have no colour at all. *)
Lemma C3_counterexample :
  exists colors,
    extractColors transparentPixel (ofZ 6) (constRand (1 # 2)) = Resolved colors
    /\ distinctColors (samplePixels transparentPixel) = 0%nat
    /\ ~ (length colors <= distinctColors (samplePixels transparentPixel))%nat.
Proof.
  eexists. split; [vm_compute; reflexivity|].
  split; [reflexivity|]. vm_compute. lia.
Qed.

(** C3, amended.  For a colour count [K] of 1 or more, any JavaScript
    number.  With at least one eligible pixel and a [K] that is an integer
    or is the number of samples or more, the palette has at least one entry,
    at most [K] entries, and no more entries than the samples have distinct
    colours: the samples of one colour are all assigned to the same
    centroid.  With at least one eligible pixel and any other [K], a
    fraction below the number of samples, the promise is rejected with the
    [RangeError] of [new Array(k)] and there is no palette.  With no
    eligible pixel the palette is the one fallback entry.  (Same assumptions
    on [Math.random] and on the number of samples as for C2.) *)
Theorem C3_palette_size (data : list Z) (K : num) (rng : Rand) :
  validRand rng ->
  Z.of_nat (length (samplePixels data)) < 2 ^ 32 ->
  (ofZ 1 <=? K)%num = true ->
  (samplePixels data = [] ->
   extractColors data K rng = Resolved fallbackColors)
  /\ (samplePixels data <> [] ->
      wholeOrAbove K (length (samplePixels data)) = true ->
      exists colors,
        extractColors data K rng = Resolved colors
        /\ (1 <= length colors)%nat
        /\ (ofNat (length colors) <=? K)%num = true
        /\ (length colors <= distinctColors (samplePixels data))%nat)
  /\ (samplePixels data <> [] ->
      wholeOrAbove K (length (samplePixels data)) = false ->
      extractColors data K rng = Rejected RangeError_invalid_array_length).
Proof.
  intros Hr Hlen HK. split; [apply extractColors_no_samples|].
  split; intros Hne Hw;
    pose proof (Math_min_whole_or_above K _ HK (nonempty_length _ Hne)) as Hmin;
    rewrite Hw in Hmin.
  - destruct Hmin as (kn & Hk & Hpos & HkK).
    destruct (palette_facts data K rng kn Hr Hne Hlen Hk Hpos)
      as (colors & Heq & _ & _ & Hl & Hd & _).
    exists colors. split; [exact Heq|]. split; [lia|]. split; [|exact Hd].
    eapply ofNat_leb_trans; [|exact HkK]. lia.
  - rewrite extractColors_samples by done.
    by rewrite clusterColors_no_index.
Qed.

Lemma C3_palette_size_witness :
  extractColors transparentPixel (ofZ 6) (constRand (1 # 2))
  = Resolved fallbackColors
  /\ (exists colors,
        extractColors sampleImage (ofZ 6) (constRand (1 # 2)) = Resolved colors
        /\ (1 <= length colors)%nat
        /\ (ofNat (length colors) <=? ofZ 6)%num = true
        /\ (length colors <= distinctColors (samplePixels sampleImage))%nat)
  /\ extractColors sampleImage (Fin (5 # 2)) (constRand (1 # 2))
     = Rejected RangeError_invalid_array_length.
Proof.
  pose proof validRand_const_half as Hr.
  assert (Hlen : Z.of_nat (length (samplePixels sampleImage)) < 2 ^ 32)
    by (vm_compute; reflexivity).
  assert (Hlen0 : Z.of_nat (length (samplePixels transparentPixel)) < 2 ^ 32)
    by (vm_compute; reflexivity).
  split; [|split].
  - destruct (C3_palette_size transparentPixel (ofZ 6) _ Hr Hlen0 eq_refl)
      as [H _].
    by apply H.
  - destruct (C3_palette_size sampleImage (ofZ 6) _ Hr Hlen eq_refl)
      as (_ & H & _).
    by apply H.
  - destruct (C3_palette_size sampleImage (Fin (5 # 2)) _ Hr Hlen eq_refl)
      as (_ & _ & H).
    by apply H.
Defined.

(** C4, as stated, fails: [extractColors] takes the image and the colour
    count and nothing else, and draws from the ambient [Math.random]; two
    runs on one image (a black and a white pixel, one colour asked for)
    return different palettes when the generator returns different values. *)
Lemma C4_counterexample :
  validRand (constRand (1 # 4)) /\ validRand (constRand (3 # 4))
  /\ extractColors [0; 0; 0; 255;  255; 255; 255; 255] (ofZ 1) (constRand (1 # 4))
     = Resolved [mkColorData "#000000" (ofZ 2) (ofZ 100)]
  /\ extractColors [0; 0; 0; 255;  255; 255; 255; 255] (ofZ 1) (constRand (3 # 4))
     = Resolved [mkColorData "#FFFFFF" (ofZ 2) (ofZ 100)].
Proof.
  split; [intros i; reflexivity|]. split; [intros i; reflexivity|].
  split; vm_compute; reflexivity.
Qed.

(** C4, amended.  The random source is the ambient [Math.random], not a
    parameter.  The palette is a function of the image, the colour count and
    the values the calls of [Math.random] return: two runs on the same input
    in which these calls (at most one for each sample) return the same values
    settle the same way, with equal colours, counts and percentages. *)
Theorem C4_same_draws_same_palette
    (data : list Z) (K : num) (rng1 rng2 : Rand) :
  sameDraws (length (samplePixels data)) rng1 rng2 ->
  extractColors data K rng1 = extractColors data K rng2.
Proof.
  intros Hd. unfold extractColors.
  destruct (length (samplePixels data) =? 0)%nat; [reflexivity|].
  by rewrite (clusterColors_agree _ K rng1 rng2 Hd).
Qed.

Lemma C4_same_draws_same_palette_witness :
  extractColors sampleImage (ofZ 6) (constRand (1 # 2))
  = extractColors sampleImage (ofZ 6)
      (fun i => if (i <? 4)%nat then Fin (1 # 2) else Fin (1 # 3)).
Proof.
  apply (C4_same_draws_same_palette sampleImage (ofZ 6)).
  intros i Hi. change (length (samplePixels sampleImage)) with 4%nat in Hi.
  unfold constRand. destruct (Nat.ltb_spec i 4); [reflexivity | lia].
Defined.

(** C5. When no pixel has an alpha of 128 or more, [extractColors] resolves
    with the single entry [{color: "#FFFFFF", count: 1, percentage: 100}],
    whatever the colour count and the random generator are: the clusterer is
    not reached and no error is raised. *)
Theorem C5_transparent_image_fallback
    (pixels : list (Z * Z * Z * Z)) (K : num) (rng : Rand) :
  Forall (fun px => alpha px < 128) pixels ->
  samplePixels (imageData pixels) = []
  /\ extractColors (imageData pixels) K rng
     = Resolved [mkColorData "#FFFFFF" (ofZ 1) (ofZ 100)].
Proof.
  intros H.
  assert (Hs : samplePixels (imageData pixels) = []).
  { rewrite samplePixels_imageData.
    replace (filter (fun px => 128 <= alpha px) pixels) with (@nil (Z*Z*Z*Z)); [done|].
    symmetry. induction H as [|px pixels Hpx H IH]; [done|].
    rewrite filter_cons_False by lia. exact IH. }
  split; [exact Hs|]. by apply extractColors_no_samples.
Qed.

Lemma C5_transparent_image_fallback_witness :
  samplePixels (imageData [(12, 34, 56, 0); (200, 100, 50, 127)]) = []
  /\ extractColors (imageData [(12, 34, 56, 0); (200, 100, 50, 127)])
                   (ofZ 6) (constRand (1 # 2))
     = Resolved [mkColorData "#FFFFFF" (ofZ 1) (ofZ 100)].
Proof.
  apply (C5_transparent_image_fallback
           [(12, 34, 56, 0); (200, 100, 50, 127)] (ofZ 6) (constRand (1 # 2))).
  repeat constructor.
Defined.

(** C6. The update step, applied to centroids [cs] and to points whose
    clusters are indices of [cs] (as the assignment step before it leaves
    them), returns as many centroids; a centroid that no point is assigned to
    is the one it was, with its three channels, and a centroid with assigned
    points is the component-wise mean of these points. *)
Theorem C6_update_keeps_empty_centroids
    (cs : list RGBColor.t) (pts : list Point.t) :
  clustersBelow (length cs) pts ->
  exists cs',
    updateCentroids cs pts = Ok cs'
    /\ length cs' = length cs
    /\ forall i c, cs !! i = Some c ->
         (members i pts = [] -> cs' !! i = Some c)
         /\ (members i pts <> [] -> cs' !! i = Some (meanOf (members i pts))).
Proof.
  intros Hb. destruct (updateCentroids_spec cs pts Hb) as (cs' & Heq & Hl & Hi).
  exists cs'. split; [exact Heq|]. split; [exact Hl|].
  intros i c Hc. rewrite (Hi i c Hc).
  split; intros H; by destruct (decide (members i pts = [])).
Qed.

Lemma C6_update_keeps_empty_centroids_witness :
  exists cs',
    updateCentroids
      [RGBColor.mk (ofZ 10) (ofZ 20) (ofZ 30); RGBColor.mk (ofZ 1) (ofZ 2) (ofZ 3)]
      [Point.mk (ofZ 0) (ofZ 50) (ofZ 100) 0 (ofZ 0);
       Point.mk (ofZ 5) (ofZ 51) (ofZ 200) 0 (ofZ 0)]
    = Ok cs'
    /\ cs' !! 1%nat = Some (RGBColor.mk (ofZ 1) (ofZ 2) (ofZ 3))
    /\ cs' !! 0%nat = Some (RGBColor.mk (Fin (5 # 2)) (Fin (101 # 2)) (ofZ 150)).
Proof.
  destruct (C6_update_keeps_empty_centroids
              [RGBColor.mk (ofZ 10) (ofZ 20) (ofZ 30);
               RGBColor.mk (ofZ 1) (ofZ 2) (ofZ 3)]
              [Point.mk (ofZ 0) (ofZ 50) (ofZ 100) 0 (ofZ 0);
               Point.mk (ofZ 5) (ofZ 51) (ofZ 200) 0 (ofZ 0)])
    as (cs' & Heq & _ & Hi).
  - repeat constructor.
  - exists cs'. split; [exact Heq|]. split.
    + apply (Hi 1%nat); reflexivity.
    + destruct (Hi 0%nat _ eq_refl) as [_ H]. rewrite H; [|discriminate].
      vm_compute. reflexivity.
Defined.

(** C7. Every palette [extractColors] resolves with, for any image and any
    colour count, is sorted by non-increasing count, and each of its entries
    has a count that is a positive integer and a percentage between 0 and
    100.  (Same assumptions on [Math.random] and on the number of samples as
    for C2.) *)
Theorem C7_palette_sorted_positive
    (data : list Z) (K : num) (rng : Rand) (colors : list ColorData) :
  validRand rng ->
  Z.of_nat (length (samplePixels data)) < 2 ^ 32 ->
  extractColors data K rng = Resolved colors ->
  sortedByCount colors
  /\ Forall (fun e => positiveCount e /\ percentageInRange e) colors.
Proof.
  intros Hr Hlen Heq.
  destruct (decide (samplePixels data = [])) as [He|Hne].
  - rewrite extractColors_no_samples in Heq by done. injection Heq as <-.
    split.
    + repeat constructor.
    + constructor; [|constructor]. split.
      * exists 1%nat. split; [lia | reflexivity].
      * exists 100%Q. repeat split; done.
  - destruct (toIndex (Math_min K (ofNat (length (samplePixels data)))))
      as [[|kn]|] eqn:Hk.
    + rewrite extractColors_samples, clusterColors_zero in Heq by done.
      injection Heq as <-. split; constructor.
    + destruct (palette_facts data K rng (S kn) Hr Hne Hlen Hk)
        as (colors' & Heq' & Hwf & _ & _ & _ & Hs); [lia|].
      rewrite Heq' in Heq. injection Heq as <-.
      split; [exact Hs|].
      eapply Forall_impl; [exact Hwf|]. intros e. apply wellFormed_entry.
    + rewrite extractColors_samples, clusterColors_no_index in Heq by done.
      discriminate.
Qed.

Lemma C7_palette_sorted_positive_witness :
  sortedByCount [mkColorData "#FF0000" (ofZ 3) (ofZ 75);
                 mkColorData "#0000FF" (ofZ 1) (ofZ 25)]
  /\ Forall (fun e => positiveCount e /\ percentageInRange e)
       [mkColorData "#FF0000" (ofZ 3) (ofZ 75);
        mkColorData "#0000FF" (ofZ 1) (ofZ 25)].
Proof.
  apply (C7_palette_sorted_positive sampleImage (ofZ 6) (constRand (1 # 2))).
  - intros i. reflexivity.
  - vm_compute. reflexivity.
  - vm_compute. reflexivity.
Defined.

(** C8. For channels [r], [g] and [b] in [[0, 255]], fractional or not,
    [rgbToHex] rounds each to the nearest integer and returns [#] followed by
    the two uppercase hexadecimal digits of each of the three integers, a
    value below 16 getting a leading [0]: seven characters in all. *)
Theorem C8_rgbToHex_format (r g b : Q) :
  (0 <= r)%Q -> (r <= 255)%Q ->
  (0 <= g)%Q -> (g <= 255)%Q ->
  (0 <= b)%Q -> (b <= 255)%Q ->
  rgbToHex (Fin r) (Fin g) (Fin b)
  = String "#" (hexByte (roundQ r) +:+ hexByte (roundQ g) +:+ hexByte (roundQ b))
  /\ String.length (rgbToHex (Fin r) (Fin g) (Fin b)) = 7%nat
  /\ (0 <= roundQ r <= 255 /\ 0 <= roundQ g <= 255 /\ 0 <= roundQ b <= 255)
  /\ ((r - (1 # 2) < inject_Z (roundQ r))%Q /\ (inject_Z (roundQ r) <= r + (1 # 2))%Q)
  /\ ((g - (1 # 2) < inject_Z (roundQ g))%Q /\ (inject_Z (roundQ g) <= g + (1 # 2))%Q)
  /\ ((b - (1 # 2) < inject_Z (roundQ b))%Q /\ (inject_Z (roundQ b) <= b + (1 # 2))%Q).
Proof.
  intros Hr0 Hr1 Hg0 Hg1 Hb0 Hb1.
  pose proof (roundQ_byte r Hr0 Hr1) as Hr.
  pose proof (roundQ_byte g Hg0 Hg1) as Hg.
  pose proof (roundQ_byte b Hb0 Hb1) as Hb.
  assert (Heq : rgbToHex (Fin r) (Fin g) (Fin b)
                = String "#" (hexByte (roundQ r) +:+ hexByte (roundQ g)
                              +:+ hexByte (roundQ b))).
  { unfold rgbToHex. rewrite !toHex_Fin, !toUpperCase_app.
    by rewrite !paddedHex_byte. }
  split; [exact Heq|]. split; [by rewrite Heq|].
  split; [done|]. repeat split; apply roundQ_nearest.
Qed.

Lemma C8_rgbToHex_format_witness :
  rgbToHex (Fin (509 # 2)) (Fin 0) (Fin (31 # 2)) = "#FF0010".
Proof.
  destruct (C8_rgbToHex_format (509 # 2) 0 (31 # 2)) as [H _];
    try discriminate.
  rewrite H. vm_compute. reflexivity.
Defined.

(** C9. When every channel of every sample is in [[0, 255]], so is every
    channel of every centroid, after the seeding ([maxIterations = 0]) and
    after any number of rounds of the refinement loop: a centroid is a copy
    of a sample or the component-wise mean of samples.  ([Math.random] is
    taken to return values from 0 to 1, 1 excluded; means are exact.) *)
Theorem C9_centroids_stay_in_range
    (pts : list Point.t) (k : num) (maxIterations : nat) (rng : Rand) :
  validRand rng -> Forall pointInRange pts ->
  exists cs pts' rng',
    kMeans pts k maxIterations rng = Ok (cs, pts', rng')
    /\ Forall centroidInRange cs.
Proof.
  intros Hr Hp.
  destruct (decide (pts = [])) as [->|Hne].
  { exists [], [], rng. split; [apply kMeans_no_points | constructor]. }
  destruct (kMeans_spec pts k maxIterations rng Hne Hr)
    as (cs & pts' & rng' & Heq & _).
  exists cs, pts', rng'. split; [exact Heq|].
  unfold kMeans in Heq.
  destruct (seedCentroids_spec pts k rng Hne Hr) as (cs0 & rng0 & Hs & Hl & Hc).
  rewrite Hs, bind_Ok in Heq.
  destruct (refine maxIterations cs0 pts) as [[cs1 pts1]|e] eqn:E; [|discriminate].
  rewrite bind_Ok in Heq. injection Heq as <- <- <-.
  eapply (refine_in_range maxIterations cs0 pts cs1 pts1); [| |exact Hp|exact E].
  - destruct cs0; [discriminate | done].
  - eapply Forall_impl; [exact Hc|]. intros c. by apply copyOf_in_range.
Qed.

Lemma C9_centroids_stay_in_range_witness :
  exists cs pts' rng',
    kMeans (samplePixels sampleImage) (ofZ 4) 100 (constRand (1 # 2))
    = Ok (cs, pts', rng')
    /\ Forall centroidInRange cs.
Proof.
  apply (C9_centroids_stay_in_range (samplePixels sampleImage) (ofZ 4) 100
           (constRand (1 # 2))).
  - intros i. reflexivity.
  - repeat constructor; eexists; (split; [reflexivity|]); split; discriminate.
Defined.

(** C10. The downscaling does not keep both dimensions positive: an image
    10000 wide and 1 high, both at least 1 and the larger above 200, gets a
    canvas of height [Math.floor(1 * (200 / 10000)) = 0]. *)
Theorem C10_downscale_can_reach_zero :
  exists width height : Z,
    1 <= width /\ 1 <= height /\ 200 < Z.max width height
    /\ scaleDimensions (ofZ width) (ofZ height) = (ofZ 200, ofZ 0).
Proof.
  exists 10000, 1. repeat split; try lia.
Qed.

(** * Further properties *)

(** ** The sampler and the canvas *)

(** X1. The sampler keeps the pixels whose alpha is 128 or more, in the order
    of the buffer, each with its red, green and blue and in cluster 0, and
    drops the others: there are no more samples than pixels. *)
Theorem X1_sampler_keeps_opaque_pixels (pixels : list (Z * Z * Z * Z)) :
  samplePixels (imageData pixels)
  = pointOfPixel <$> filter (fun px => 128 <= alpha px) pixels
  /\ (length (samplePixels (imageData pixels)) <= length pixels)%nat
  /\ Forall (fun p => Point.cluster p = 0%nat) (samplePixels (imageData pixels)).
Proof.
  rewrite samplePixels_imageData. split; [reflexivity|]. split.
  - rewrite length_fmap. apply length_filter.
  - apply Forall_fmap, Forall_true. by intros [[[r g] b] a].
Qed.

Lemma scaled_floor_bounds (x y : Z) :
  0 <= x -> x <= y -> 200 < y ->
  exists z, Math_floor (ofZ x * (ofZ 200 / ofZ y)) = ofZ z /\ 0 <= z <= 200.
Proof.
  intros Hx Hxy Hy. unfold ofZ. cbn [num_div].
  assert (Hpos : (0 < inject_Z y)%Q) by (rewrite <- (Zlt_Qlt 0); lia).
  destruct (Qeq_bool (inject_Z y) 0) eqn:E.
  { apply Qeq_bool_eq in E. rewrite E in Hpos. by apply Qlt_irrefl in Hpos. }
  cbn [num_mul Math_floor]. eexists. split; [reflexivity|].
  set (v := Qred (inject_Z x * Qred (inject_Z 200 / inject_Z y))).
  assert (Hv : (v == inject_Z x * (inject_Z 200 / inject_Z y))%Q).
  { unfold v. by rewrite !Qred_correct. }
  assert (Hx' : (0 <= inject_Z x)%Q) by (rewrite <- (Zle_Qle 0); lia).
  assert (Hr0 : (0 <= inject_Z 200 / inject_Z y)%Q).
  { apply Qle_shift_div_l; [exact Hpos|]. by rewrite Qmult_0_l. }
  assert (H0 : (0 <= v)%Q) by (rewrite Hv; by apply Qmult_le_0_compat).
  assert (H1 : (v <= inject_Z 200)%Q).
  { rewrite Hv. unfold Qdiv. rewrite Qmult_assoc.
    apply Qle_shift_div_r; [exact Hpos|].
    rewrite (Qmult_comm (inject_Z 200)).
    apply Qmult_le_compat_r; [|done]. rewrite <- Zle_Qle. lia. }
  split.
  - change 0 with (Qfloor 0). by apply Qfloor_resp_le.
  - rewrite <- (Qfloor_Z 200). by apply Qfloor_resp_le.
Qed.

(** X2. For an image [width] by [height] (integers, none negative), the
    canvas is never larger than 200 by 200 when either side is above 200:
    the longer side becomes exactly 200 and the other an integer from 0 to
    200; an image with both sides up to 200 keeps its size. *)
Theorem X2_canvas_within_200 (width height : Z) :
  0 <= width -> 0 <= height ->
  (width <= 200 -> height <= 200 ->
     scaleDimensions (ofZ width) (ofZ height) = (ofZ width, ofZ height))
  /\ (height < width -> 200 < width ->
        (scaleDimensions (ofZ width) (ofZ height)).1 = ofZ 200
        /\ dimensionBetween 0 (scaleDimensions (ofZ width) (ofZ height)).2)
  /\ (width <= height -> 200 < height ->
        dimensionBetween 0 (scaleDimensions (ofZ width) (ofZ height)).1
        /\ (scaleDimensions (ofZ width) (ofZ height)).2 = ofZ 200).
Proof.
  intros Hw Hh. unfold scaleDimensions. rewrite !ofZ_ltb.
  split; [|split].
  - intros H1 H2.
    destruct (Z.ltb_spec 200 width); [lia|]. rewrite andb_false_r.
    by destruct (Z.ltb_spec 200 height); [lia|].
  - intros H1 H2.
    destruct (Z.ltb_spec height width); [|lia].
    destruct (Z.ltb_spec 200 width); [|lia]. cbn [andb fst snd].
    split; [reflexivity|].
    destruct (scaled_floor_bounds height width Hh) as (z & -> & Hz); [lia..|].
    by exists z.
  - intros H1 H2.
    destruct (Z.ltb_spec height width); [lia|]. cbn [andb].
    destruct (Z.ltb_spec 200 height); [|lia]. cbn [fst snd].
    split; [|reflexivity].
    destruct (scaled_floor_bounds width height Hw) as (z & -> & Hz); [lia..|].
    by exists z.
Qed.

Lemma X2_canvas_within_200_witness :
  scaleDimensions (ofZ 150) (ofZ 80) = (ofZ 150, ofZ 80)
  /\ scaleDimensions (ofZ 1000) (ofZ 333) = (ofZ 200, ofZ 66)
  /\ scaleDimensions (ofZ 300) (ofZ 900) = (ofZ 66, ofZ 200).
Proof.
  split; [|split].
  - apply (X2_canvas_within_200 150 80); lia.
  - destruct (X2_canvas_within_200 1000 333) as (_ & H & _); [lia..|].
    destruct H as [H1 _]; [lia..|]. vm_compute. reflexivity.
  - destruct (X2_canvas_within_200 300 900) as (_ & _ & H); [lia..|].
    destruct H as [_ H2]; [lia..|]. vm_compute. reflexivity.
Defined.

(** ** The assignment step: the nearest centroid *)

Lemma finite_add a b : finite a -> finite b -> finite (a + b)%num.
Proof. intros [x ->] [y ->]. by eexists. Qed.

Lemma finite_sub a b : finite a -> finite b -> finite (a - b)%num.
Proof. intros [x ->] [y ->]. by eexists. Qed.

Lemma finite_mul a b : finite a -> finite b -> finite (a * b)%num.
Proof. intros [x ->] [y ->]. by eexists. Qed.

Lemma sqDistance_finite p c :
  finitePoint p -> finiteCentroid c -> finite (sqDistance p c).
Proof.
  intros (Hr & Hg & Hb) (Hr' & Hg' & Hb'). unfold sqDistance, Math_pow2.
  repeat apply finite_add; apply finite_mul; by apply finite_sub.
Qed.

Lemma finite_ltb_PInf a : finite a -> (a <? PInf)%num = true.
Proof. by intros [x ->]. Qed.

Lemma finite_leb_refl a : finite a -> (a <=? a)%num = true.
Proof. intros [x ->]. simpl. apply Qle_bool_iff, Qle_refl. Qed.

Lemma finite_ltb_false a b :
  finite a -> finite b -> (a <? b)%num = false -> (b <=? a)%num = true.
Proof.
  intros [x ->] [y ->]. simpl. destruct (Qlt_le_dec x y); [done|].
  intros _. by apply Qle_bool_iff.
Qed.

Lemma finite_ltb_leb_trans a b c :
  finite a -> finite b -> finite c ->
  (a <? b)%num = true -> (b <=? c)%num = true -> (a <? c)%num = true.
Proof.
  intros [x ->] [y ->] [z ->]. simpl.
  destruct (Qlt_le_dec x y) as [Hxy|]; [|done]. intros _ Hyz.
  apply Qle_bool_iff in Hyz.
  destruct (Qlt_le_dec x z) as [|Hzx]; [done|].
  exfalso. apply (Qlt_irrefl x).
  eapply Qlt_le_trans; [exact Hxy|]. by eapply Qle_trans.
Qed.

Lemma finite_ltb_leb a b :
  finite a -> finite b -> (a <? b)%num = true -> (a <=? b)%num = true.
Proof.
  intros [x ->] [y ->]. simpl. destruct (Qlt_le_dec x y) as [H|]; [|done].
  intros _. by apply Qle_bool_iff, Qlt_le_weak.
Qed.

Lemma nearest_spec (p : Point.t) (cs : list RGBColor.t) :
  finitePoint p ->
  forall (pre : list RGBColor.t) (m : num) (c : nat),
    Forall finiteCentroid (pre ++ cs) ->
    (pre = [] /\ m = PInf) \/ nearestAt pre p m c ->
    pre ++ cs <> [] ->
    nearestAt (pre ++ cs) p (nearest cs (length pre) p m c).1
              (nearest cs (length pre) p m c).2.
Proof.
  intros Hp. induction cs as [|c0 cs IH]; intros pre m c Hfin Hinv Hne.
  - rewrite app_nil_r in *. simpl.
    destruct Hinv as [[-> _]|H]; [done | exact H].
  - cbn [nearest].
    assert (Hc0 : finiteCentroid c0).
    { rewrite Forall_app in Hfin. destruct Hfin as [_ H].
      by apply Forall_cons in H as [H _]. }
    pose proof (sqDistance_finite p c0 Hp Hc0) as Hd.
    assert (Hpre : Forall finiteCentroid pre).
    { rewrite Forall_app in Hfin. by destruct Hfin. }
    replace (S (length pre)) with (length (pre ++ [c0]))
      by (rewrite length_app; simpl; lia).
    replace (pre ++ c0 :: cs) with ((pre ++ [c0]) ++ cs) in *
      by (by rewrite <- app_assoc).
    destruct (sqDistance p c0 <? m)%num eqn:E.
    + apply IH; [done | | by destruct pre].
      right. exists c0. split; [by rewrite lookup_app_r, Nat.sub_diag|].
      split; [reflexivity|]. intros j cj Hj.
      destruct (decide (j < length pre)%nat) as [Hlt|Hge].
      * rewrite lookup_app_l in Hj by done.
        destruct Hinv as [[-> _]|(cc & Hcc & -> & Hall)]; [simpl in Hlt; lia|].
        destruct (Hall j cj Hj) as [Hle _].
        assert (Hcj : finiteCentroid cj).
        { rewrite Forall_forall in Hpre. apply Hpre.
          by eapply list_elem_of_lookup_2. }
        assert (Hcc' : finiteCentroid cc).
        { rewrite Forall_forall in Hpre. apply Hpre.
          by eapply list_elem_of_lookup_2. }
        assert (Hlt' : (sqDistance p c0 <? sqDistance p cj)%num = true).
        { eapply (finite_ltb_leb_trans _ (sqDistance p cc));
            try apply sqDistance_finite; done. }
        split; [|done].
        apply finite_ltb_leb; try apply sqDistance_finite; done.
      * rewrite lookup_app_r in Hj by lia.
        destruct (j - length pre)%nat as [|n] eqn:En; [|by destruct n].
        injection Hj as <-. split; [by apply finite_leb_refl | lia].
    + apply IH; [done | | by destruct pre].
      destruct Hinv as [[-> ->]|(cc & Hcc & -> & Hall)].
      { by rewrite finite_ltb_PInf in E. }
      right. exists cc.
      assert (Hclt : (c < length pre)%nat) by (by eapply lookup_lt_Some).
      split; [by rewrite lookup_app_l|]. split; [reflexivity|].
      intros j cj Hj.
      destruct (decide (j < length pre)%nat) as [Hlt|Hge].
      * rewrite lookup_app_l in Hj by done. by apply Hall.
      * rewrite lookup_app_r in Hj by lia.
        destruct (j - length pre)%nat as [|n] eqn:En; [|by destruct n].
        injection Hj as <-. split; [|lia].
        assert (Hcc' : finiteCentroid cc).
        { rewrite Forall_forall in Hpre. apply Hpre.
          by eapply list_elem_of_lookup_2. }
        apply finite_ltb_false; try apply sqDistance_finite; done.
Qed.

Lemma ofZ_mul (x y : Z) : (ofZ x * ofZ y)%num = ofZ (x * y).
Proof.
  unfold ofZ; simpl. f_equal. rewrite <- inject_Z_mult. apply inject_Z_Qred.
Qed.

Lemma byteChannel_finite (x : num) : byteChannel x -> finite x.
Proof. intros (z & -> & _). by eexists. Qed.

Lemma bytePoint_finite (p : Point.t) : bytePoint p -> finitePoint p.
Proof. intros (Hr & Hg & Hb). repeat split; by apply byteChannel_finite. Qed.

Lemma byteCentroid_finite (c : RGBColor.t) : byteCentroid c -> finiteCentroid c.
Proof. intros (Hr & Hg & Hb). repeat split; by apply byteChannel_finite. Qed.

Lemma square_diff_bytes (x y : Z) :
  0 <= x <= 255 -> 0 <= y <= 255 -> 0 <= (x - y) * (x - y) <= 65025.
Proof.
  intros Hx Hy. split; [apply Z.square_nonneg|].
  destruct (Z.le_ge_cases y x).
  - change 65025 with (255 * 255). apply Z.mul_le_mono_nonneg; lia.
  - replace ((x - y) * (x - y)) with ((y - x) * (y - x)) by ring.
    change 65025 with (255 * 255). apply Z.mul_le_mono_nonneg; lia.
Qed.

(** Between colours of bytes the squared distance is an integer of at most
    [3 * 255^2]: every step of its computation is exact in binary64 as
    well. *)
Lemma sqDistance_bytes (p : Point.t) (c : RGBColor.t) :
  bytePoint p -> byteCentroid c ->
  exists d : Z, sqDistance p c = ofZ d /\ 0 <= d <= 195075.
Proof.
  intros ((r & Hr & Hr') & (g & Hg & Hg') & (b & Hb & Hb'))
         ((r0 & Hr0 & Hr0') & (g0 & Hg0 & Hg0') & (b0 & Hb0 & Hb0')).
  unfold sqDistance, Math_pow2. rewrite Hr, Hg, Hb, Hr0, Hg0, Hb0.
  rewrite !ofZ_sub, !ofZ_mul, !ofZ_add. eexists. split; [reflexivity|].
  pose proof (square_diff_bytes r r0 Hr' Hr0').
  pose proof (square_diff_bytes g g0 Hg' Hg0').
  pose proof (square_diff_bytes b b0 Hb' Hb0').
  lia.
Qed.

(** X3. On a sample and centroids whose channels are bytes (the samples of
    an image; the centroids of the first round, which are copies of
    samples), the assignment step puts the sample in the cluster of the
    nearest centroid, the one of lowest index among equally near ones, and
    stores the squared distance to it, an integer of at most [3 * 255^2]: no
    centroid is nearer, and every centroid before it is strictly farther.
    The colour of the sample is untouched. *)
Theorem X3_assignment_takes_nearest_centroid
    (cs : list RGBColor.t) (p : Point.t) :
  cs <> [] -> Forall byteCentroid cs -> bytePoint p ->
  nearestAt cs p (Point.distance (assignPoint cs p).1)
            (Point.cluster (assignPoint cs p).1)
  /\ (exists d : Z,
        Point.distance (assignPoint cs p).1 = ofZ d /\ 0 <= d <= 195075)
  /\ colorOf (assignPoint cs p).1 = colorOf p.
Proof.
  intros Hne Hcs Hp.
  assert (Hfin : Forall finiteCentroid cs).
  { eapply Forall_impl; [exact Hcs|]. apply byteCentroid_finite. }
  pose proof (nearest_spec p cs (bytePoint_finite p Hp) [] PInf 0%nat Hfin
                (or_introl (conj eq_refl eq_refl)) Hne) as H.
  assert (Hd : Point.distance (assignPoint cs p).1 = (nearest cs 0 p PInf 0%nat).1).
  { unfold assignPoint. by destruct (nearest cs 0 p PInf 0%nat). }
  rewrite assignPoint_cluster, Hd. unfold clusterOf.
  split; [exact H|]. split; [|apply assignPoint_color].
  destruct H as (cc & Hcc & Hm & _). simpl in Hm. rewrite Hm.
  apply sqDistance_bytes; [exact Hp|].
  rewrite Forall_forall in Hcs. apply Hcs. by eapply list_elem_of_lookup_2.
Qed.

Lemma X3_assignment_takes_nearest_centroid_witness :
  nearestAt [RGBColor.mk (ofZ 0) (ofZ 0) (ofZ 0);
             RGBColor.mk (ofZ 20) (ofZ 0) (ofZ 0);
             RGBColor.mk (ofZ 0) (ofZ 0) (ofZ 20)]
            (newPoint (ofZ 10) (ofZ 0) (ofZ 10)) (ofZ 200) 0%nat.
Proof.
  destruct (X3_assignment_takes_nearest_centroid
              [RGBColor.mk (ofZ 0) (ofZ 0) (ofZ 0);
               RGBColor.mk (ofZ 20) (ofZ 0) (ofZ 0);
               RGBColor.mk (ofZ 0) (ofZ 0) (ofZ 20)]
              (newPoint (ofZ 10) (ofZ 0) (ofZ 10))) as [H _].
  - discriminate.
  - repeat constructor; eexists; (split; [reflexivity | lia]).
  - repeat split; eexists; (split; [reflexivity | lia]).
  - exact H.
Defined.

(** ** The number of centroids *)

Lemma ofNat_ltb_ofZ (i : nat) (z : Z) :
  (ofNat i <? ofZ z)%num = (i <? Z.to_nat z)%nat.
Proof.
  unfold ofNat. rewrite ofZ_ltb.
  destruct (Nat.ltb_spec i (Z.to_nat z)); [apply Z.ltb_lt | apply Z.ltb_ge]; lia.
Qed.

Lemma seed_rounds_integer (z : Z) (n : nat) :
  (0 < n)%nat ->
  S (loopRounds (ofZ z) (seq 1 (n - 1))) = centroidCount z n.
Proof.
  intros Hn.
  rewrite (loopRounds_seq (ofZ z) (Z.to_nat z) (fun i => ofNat_ltb_ofZ i z)).
  unfold centroidCount. lia.
Qed.

(** X4. The seeding of a non-empty set of points with an integer [k] (zero
    and negative ones too) returns [k] centroids, clamped to at least one and
    at most one for each point, and every one of them is a copy of a
    point.  ([Math.random] is taken to return values from 0 to 1, 1
    excluded.) *)
Theorem X4_seeding_copies_samples
    (pts : list Point.t) (k : Z) (rng : Rand) :
  pts <> [] -> validRand rng ->
  exists cs rng',
    seedCentroids pts (ofZ k) rng = Ok (cs, rng')
    /\ length cs = centroidCount k (length pts)
    /\ Forall (copyOf pts) cs.
Proof.
  intros Hne Hr.
  destruct (seedCentroids_spec pts (ofZ k) rng Hne Hr) as (cs & rng' & Heq & Hl & Hc).
  exists cs, rng'. split; [exact Heq|]. split; [|exact Hc].
  rewrite Hl. apply seed_rounds_integer. by apply nonempty_length.
Qed.

Lemma X4_seeding_copies_samples_witness :
  exists cs rng',
    seedCentroids (samplePixels sampleImage) (ofZ 3) (constRand (1 # 2))
    = Ok (cs, rng')
    /\ length cs = 3%nat
    /\ Forall (copyOf (samplePixels sampleImage)) cs.
Proof.
  apply (X4_seeding_copies_samples (samplePixels sampleImage) 3 (constRand (1 # 2))).
  - discriminate.
  - apply validRand_const_half.
Defined.

(** X5. [kMeans] on a non-empty set of points, with an integer [k] and any
    iteration cap, does not throw; it returns [k] centroids, clamped to at
    least one and at most one for each point, and leaves the points in their
    order with their colours: only [cluster] and [distance] are written. *)
Theorem X5_kMeans_centroid_count
    (pts : list Point.t) (k : Z) (maxIterations : nat) (rng : Rand) :
  pts <> [] -> validRand rng ->
  exists cs pts' rng',
    kMeans pts (ofZ k) maxIterations rng = Ok (cs, pts', rng')
    /\ length cs = centroidCount k (length pts)
    /\ length pts' = length pts
    /\ colorOf <$> pts' = colorOf <$> pts.
Proof.
  intros Hne Hr.
  destruct (kMeans_spec pts (ofZ k) maxIterations rng Hne Hr)
    as (cs & pts' & rng' & Heq & Hl & Hs & _).
  exists cs, pts', rng'. split; [exact Heq|]. split.
  - rewrite Hl. apply seed_rounds_integer. by apply nonempty_length.
  - split; [by apply sameColors_length | exact Hs].
Qed.

Lemma X5_kMeans_centroid_count_witness :
  exists cs pts' rng',
    kMeans (samplePixels sampleImage) (ofZ 6) 100 (constRand (1 # 2))
    = Ok (cs, pts', rng')
    /\ length cs = 4%nat
    /\ length pts' = 4%nat
    /\ colorOf <$> pts' = colorOf <$> samplePixels sampleImage.
Proof.
  apply (X5_kMeans_centroid_count (samplePixels sampleImage) 6 100
           (constRand (1 # 2))).
  - discriminate.
  - apply validRand_const_half.
Defined.

(** ** A stable assignment *)

Lemma assignPoint_changed (cs : list RGBColor.t) (p : Point.t) :
  (assignPoint cs p).2 = negb (Point.cluster p =? clusterOf cs p)%nat.
Proof.
  unfold assignPoint, clusterOf. by destruct (nearest cs 0 p PInf 0%nat).
Qed.

Lemma assignPoints_changed (cs : list RGBColor.t) (pts : list Point.t) (h : bool) :
  (assignPoints cs pts h).2
  = h || existsb (fun p => (assignPoint cs p).2) pts.
Proof.
  revert h. induction pts as [|p pts IH]; intros; simpl.
  - by rewrite orb_false_r.
  - destruct (assignPoint cs p) as [p' ch] eqn:Hp.
    specialize (IH (h || ch)).
    destruct (assignPoints cs pts (h || ch)) as [rest' h']; simpl in *.
    rewrite IH. by rewrite orb_assoc.
Qed.

Lemma assignedBy_unchanged (cs : list RGBColor.t) (pts : list Point.t) :
  assignedBy cs pts ->
  (assignPoints cs pts false).2 = false
  /\ Point.cluster <$> (assignPoints cs pts false).1 = Point.cluster <$> pts.
Proof.
  intros Ha. rewrite assignPoints_changed, assignPoints_fst. simpl.
  induction Ha as [|p pts Hp Ha [IH1 IH2]]; [done|].
  cbn [existsb map fmap list_fmap]. rewrite assignPoint_changed, assignPoint_cluster.
  rewrite <- Hp, Nat.eqb_refl. simpl. split; [exact IH1|]. by f_equal.
Qed.

(** X6. On samples and centroids whose channels are bytes, when every
    sample already is in the cluster of its nearest centroid (the lowest
    index among equally near ones), the refinement loop stops in its first
    round: it returns the centroids as they are, runs no update step, and
    leaves every sample in its cluster, whatever the iteration cap (of at
    least one round) is. *)
Theorem X6_stable_assignment_stops_refinement
    (n : nat) (cs : list RGBColor.t) (pts : list Point.t) :
  Forall byteCentroid cs -> Forall bytePoint pts ->
  assignedBy cs pts ->
  exists pts',
    refine (S n) cs pts = Ok (cs, pts')
    /\ Point.cluster <$> pts' = Point.cluster <$> pts
    /\ colorOf <$> pts' = colorOf <$> pts.
Proof.
  intros _ _ Ha. destruct (assignedBy_unchanged cs pts Ha) as [H1 H2].
  exists (assignPoints cs pts false).1.
  rewrite refine_succ, H1. simpl. split; [reflexivity|].
  split; [exact H2 | apply assignPoints_sameColors].
Qed.

Lemma X6_stable_assignment_stops_refinement_witness :
  exists pts',
    refine 100 [RGBColor.mk (ofZ 0) (ofZ 0) (ofZ 0);
                RGBColor.mk (ofZ 90) (ofZ 90) (ofZ 90)]
               [Point.mk (ofZ 10) (ofZ 0) (ofZ 0) 0 (ofZ 0);
                Point.mk (ofZ 80) (ofZ 80) (ofZ 80) 1 (ofZ 0)]
    = Ok ([RGBColor.mk (ofZ 0) (ofZ 0) (ofZ 0);
           RGBColor.mk (ofZ 90) (ofZ 90) (ofZ 90)], pts')
    /\ Point.cluster <$> pts' = [0; 1]%nat.
Proof.
  destruct (X6_stable_assignment_stops_refinement 99
              [RGBColor.mk (ofZ 0) (ofZ 0) (ofZ 0);
               RGBColor.mk (ofZ 90) (ofZ 90) (ofZ 90)]
              [Point.mk (ofZ 10) (ofZ 0) (ofZ 0) 0 (ofZ 0);
               Point.mk (ofZ 80) (ofZ 80) (ofZ 80) 1 (ofZ 0)])
    as (pts' & H1 & H2 & _).
  - repeat constructor; eexists; (split; [reflexivity | lia]).
  - repeat constructor; eexists; (split; [reflexivity | lia]).
  - repeat constructor.
  - exists pts'. split; [exact H1 | exact H2].
Defined.

(** ** An image of one colour *)

Lemma num_sub_diag (x : num) : finite x -> (x - x)%num = ofZ 0.
Proof.
  intros [q ->]. unfold ofZ. simpl. f_equal.
  rewrite (Qred_complete (q - q) 0); [reflexivity|]. ring.
Qed.

Lemma sqDistance_same (p : Point.t) (c : RGBColor.t) :
  finitePoint p -> copyColor p = c -> sqDistance p c = ofZ 0.
Proof.
  intros (Hr & Hg & Hb) <-. unfold sqDistance, copyColor.
  cbn [RGBColor.r RGBColor.g RGBColor.b].
  rewrite !num_sub_diag by done. reflexivity.
Qed.

Lemma nearest_no_better (cs : list RGBColor.t) (i : nat) (p : Point.t) (c : nat) :
  Forall (fun c0 => sqDistance p c0 = ofZ 0) cs ->
  nearest cs i p (ofZ 0) c = (ofZ 0, c).
Proof.
  intros H. revert i. induction H as [|c0 cs H0 H IH]; intros i; [done|].
  cbn [nearest]. rewrite H0. change (ofZ 0 <? ofZ 0)%num with false. apply IH.
Qed.

Lemma clusterOf_all_same (cs : list RGBColor.t) (p : Point.t) :
  Forall (fun c0 => sqDistance p c0 = ofZ 0) cs -> clusterOf cs p = 0%nat.
Proof.
  intros H. unfold clusterOf. destruct H as [|c0 cs H0 H]; [done|].
  cbn [nearest]. rewrite H0. change (ofZ 0 <? PInf)%num with true.
  by rewrite nearest_no_better.
Qed.

Lemma makeColors_entries (cs : list RGBColor.t) (pts : list Point.t) :
  clustersBelow (length cs) pts ->
  makeColors cs (countClusters (replicate (length cs) (ofZ 0)) pts)
             (ofNat (length pts))
  = sort (fun a b => (count b - count a)%num)
         (filter positive (entriesFrom (length pts) (clusterSize pts) 0 cs)).
Proof.
  intros Hb. unfold makeColors. f_equal. f_equal.
  apply imap_ext. intros i c Hi. unfold toColorData.
  rewrite (countClusters_sizes pts (length cs) i Hb) by (by eapply lookup_lt_Some).
  reflexivity.
Qed.

Lemma entriesFrom_all_empty total size a cs :
  (forall i, (a <= i)%nat -> size i = 0%nat) ->
  filter positive (entriesFrom total size a cs) = [].
Proof.
  intros H. revert a H. induction cs as [|c cs IH]; intros a H; [done|].
  rewrite entriesFrom_cons, filter_cons_False.
  - apply IH. intros i Hi. apply H. lia.
  - rewrite positive_entryOf, (H a); lia.
Qed.

Lemma clusterSize_all_zero (pts : list Point.t) :
  Forall (fun p => Point.cluster p = 0%nat) pts ->
  clusterSize pts 0 = length pts
  /\ forall i, (1 <= i)%nat -> clusterSize pts i = 0%nat.
Proof.
  intros H. unfold clusterSize, members.
  induction H as [|p pts Hp H [IH1 IH2]]; [done|]. split.
  - rewrite filter_cons_True by done. simpl. by rewrite IH1.
  - intros i Hi. rewrite filter_cons_False by lia. by apply IH2.
Qed.

Lemma full_share (n : nat) :
  (0 < n)%nat -> ((ofNat n / ofNat n) * ofZ 100)%num = ofZ 100.
Proof.
  intros Hn. unfold ofNat, ofZ. cbn [num_div].
  assert (Hpos : (0 < inject_Z (Z.of_nat n))%Q) by (rewrite <- (Zlt_Qlt 0); lia).
  destruct (Qeq_bool (inject_Z (Z.of_nat n)) 0) eqn:E.
  { apply Qeq_bool_eq in E. rewrite E in Hpos. by apply Qlt_irrefl in Hpos. }
  rewrite (Qred_complete (inject_Z (Z.of_nat n) / inject_Z (Z.of_nat n)) 1).
  - reflexivity.
  - apply Qmult_inv_r. intros H0. rewrite H0 in Hpos. by apply Qlt_irrefl in Hpos.
Qed.

(** The palette of samples that all have the colour of [p0]. *)
Lemma clusterColors_one_colour
    (pts : list Point.t) (p0 : Point.t) (K : Z) (rng : Rand) :
  pts <> [] -> validRand rng -> Z.of_nat (length pts) < 2 ^ 32 -> 1 <= K ->
  finitePoint p0 ->
  Forall (fun p => colorOf p = colorOf p0 /\ Point.cluster p = 0%nat) pts ->
  clusterColors pts (ofZ K) rng
  = Ok [mkColorData (rgbToHex (Point.r p0) (Point.g p0) (Point.b p0))
                    (ofNat (length pts)) (ofZ 100)].
Proof.
  intros Hne Hr Hlen HK Hfin Hall.
  pose proof (nonempty_length _ Hne) as Hpos.
  destruct (Math_min_positive_integer K (length pts) HK Hpos) as (kn & Hk & Hkn & _).
  pose proof (Math_min_index_le _ _ _ Hk) as Hle.
  unfold clusterColors, kMeans.
  destruct (seedCentroids_spec pts (Math_min (ofZ K) (ofNat (length pts))) rng Hne Hr)
    as (cs & rng' & -> & Hl & Hc).
  rewrite bind_Ok.
  rewrite (loopRounds_seq _ kn) in Hl by (intros i; by apply toIndex_ltb).
  assert (Hcs : length cs = kn) by lia.
  assert (Hsame : Forall (fun c => c = copyColor p0) cs).
  { eapply Forall_impl; [exact Hc|]. intros c (p & Hin & ->).
    rewrite Forall_forall in Hall. destruct (Hall p Hin) as [Hcol _].
    unfold copyColor. unfold colorOf in Hcol. by injection Hcol as -> -> ->. }
  assert (Hzero : forall p, p ∈ pts ->
                    Forall (fun c0 => sqDistance p c0 = ofZ 0) cs).
  { intros p Hin. eapply Forall_impl; [exact Hsame|]. intros c ->.
    rewrite Forall_forall in Hall. destruct (Hall p Hin) as [Hcol _].
    rewrite (sqDistance_color p p0 _ Hcol). by apply sqDistance_same. }
  assert (Ha : assignedBy cs pts).
  { apply Forall_forall. intros p Hin.
    rewrite (clusterOf_all_same cs p (Hzero p Hin)).
    rewrite Forall_forall in Hall. by destruct (Hall p Hin). }
  destruct (assignedBy_unchanged cs pts Ha) as [Hch Hcl].
  rewrite refine_succ, Hch. cbn [negb]. rewrite !bind_Ok.
  set (pts' := (assignPoints cs pts false).1) in *.
  assert (Hlp : length pts' = length pts).
  { apply sameColors_length, assignPoints_sameColors. }
  assert (Hcl0 : Forall (fun p => Point.cluster p = 0%nat) pts').
  { assert (H : Forall (fun n => n = 0%nat) (Point.cluster <$> pts')).
    { rewrite Hcl. apply Forall_fmap. eapply Forall_impl; [exact Hall|].
      by intros p [_ ?]. }
    by apply Forall_fmap in H. }
  rewrite (newArrayFilled_index _ _ kn Hk) by lia. rewrite bind_Ok.
  rewrite <- Hcs, makeColors_entries.
  2:{ eapply Forall_impl; [exact Hcl0|]. intros p Hp. simpl in Hp. lia. }
  destruct (clusterSize_all_zero pts' Hcl0) as [Hs0 Hsi].
  destruct cs as [|c0 cs]; [simpl in Hcs; lia|].
  rewrite entriesFrom_cons, filter_cons_True
    by (rewrite positive_entryOf, Hs0; lia).
  rewrite entriesFrom_all_empty by exact Hsi.
  apply Forall_cons in Hsame as [-> _].
  rewrite Hs0, Hlp. unfold entryOf. rewrite full_share by done.
  reflexivity.
Qed.

(** X7. An image whose eligible pixels (at least one) all have the same red,
    green and blue gets, for every colour count of 1 or more, a palette of
    exactly one entry: that colour, counted once for each eligible pixel,
    at 100 percent.  The other centroids, all copies of it, stay empty and
    are dropped. *)
Theorem X7_one_colour_one_entry
    (pixels : list (Z * Z * Z * Z)) (r g b : Z) (K : Z) (rng : Rand) :
  validRand rng -> 1 <= K ->
  eligible pixels <> [] ->
  Z.of_nat (length (eligible pixels)) < 2 ^ 32 ->
  Forall (fun px => rgbOf px = (r, g, b)) (eligible pixels) ->
  extractColors (imageData pixels) (ofZ K) rng
  = Resolved [mkColorData (rgbToHex (ofZ r) (ofZ g) (ofZ b))
                          (ofNat (length (eligible pixels))) (ofZ 100)].
Proof.
  intros Hr HK Hne Hlen Hall.
  assert (Hs : samplePixels (imageData pixels) = pointOfPixel <$> eligible pixels)
    by apply samplePixels_imageData.
  assert (Hne' : samplePixels (imageData pixels) <> []).
  { rewrite Hs. by destruct (eligible pixels). }
  rewrite extractColors_samples by done. rewrite Hs.
  rewrite (clusterColors_one_colour _ (newPoint (ofZ r) (ofZ g) (ofZ b)) K rng).
  - by rewrite length_fmap.
  - by destruct (eligible pixels).
  - exact Hr.
  - by rewrite length_fmap.
  - exact HK.
  - repeat split; by eexists.
  - apply Forall_fmap. eapply Forall_impl; [exact Hall|].
    intros [[[r' g'] b'] a']. unfold rgbOf. simpl. by intros [= -> -> ->].
Qed.

Lemma X7_one_colour_one_entry_witness :
  extractColors
    (imageData [(18, 52, 86, 255); (1, 2, 3, 0); (18, 52, 86, 200);
                (18, 52, 86, 128)])
    (ofZ 6) (constRand (1 # 2))
  = Resolved [mkColorData "#123456" (ofZ 3) (ofZ 100)].
Proof.
  apply (X7_one_colour_one_entry
           [(18, 52, 86, 255); (1, 2, 3, 0); (18, 52, 86, 200); (18, 52, 86, 128)]
           18 52 86 6 (constRand (1 # 2))).
  - apply validRand_const_half.
  - lia.
  - discriminate.
  - vm_compute. reflexivity.
  - repeat constructor.
Defined.

(** ** The promise for a colour count of 1 or more *)

(** X8. For a colour count of 1 or more (the page asks for 6),
    [extractColors] never rejects, whatever the pixel buffer holds: it
    resolves with a palette of at least one entry and at most as many as
    asked for, the fallback entry when no pixel is eligible. *)
Theorem X8_positive_count_always_resolves
    (data : list Z) (K : Z) (rng : Rand) :
  validRand rng ->
  Z.of_nat (length (samplePixels data)) < 2 ^ 32 ->
  1 <= K ->
  exists colors,
    extractColors data (ofZ K) rng = Resolved colors
    /\ (1 <= length colors)%nat
    /\ Z.of_nat (length colors) <= K.
Proof.
  intros Hr Hlen HK.
  destruct (decide (samplePixels data = [])) as [He|Hne].
  - exists fallbackColors. rewrite extractColors_no_samples by done.
    split; [reflexivity|]. simpl. lia.
  - destruct (Math_min_positive_integer K _ HK (nonempty_length _ Hne))
      as (kn & Hk & Hpos & HkK).
    destruct (palette_facts data (ofZ K) rng kn Hr Hne Hlen Hk Hpos)
      as (colors & Heq & _ & _ & Hl & _).
    exists colors. split; [exact Heq|]. lia.
Qed.

Lemma X8_positive_count_always_resolves_witness :
  exists colors,
    extractColors [7; 7; 7; 255;  1; 2] (ofZ 6) (constRand (1 # 2))
    = Resolved colors
    /\ (1 <= length colors)%nat
    /\ Z.of_nat (length colors) <= 6.
Proof.
  apply (X8_positive_count_always_resolves [7; 7; 7; 255;  1; 2] 6
           (constRand (1 # 2))).
  - apply validRand_const_half.
  - vm_compute. reflexivity.
  - lia.
Defined.

(** ** The colour strings of the palette *)

Lemma rgbToHex_bytes (c : RGBColor.t) :
  centroidInRange c ->
  wellFormedColor (rgbToHex (RGBColor.r c) (RGBColor.g c) (RGBColor.b c)).
Proof.
  intros ((r & -> & Hr0 & Hr1) & (g & -> & Hg0 & Hg1) & (b & -> & Hb0 & Hb1)).
  pose proof (roundQ_byte r Hr0 Hr1) as Hr.
  pose proof (roundQ_byte g Hg0 Hg1) as Hg.
  pose proof (roundQ_byte b Hb0 Hb1) as Hb.
  exists (roundQ r), (roundQ g), (roundQ b). repeat split; try lia.
  unfold rgbToHex, hexColorOf. rewrite !toHex_Fin, !toUpperCase_app.
  by rewrite !paddedHex_byte.
Qed.

Lemma kMeans_in_range pts k n rng cs pts' rng' :
  pts <> [] -> validRand rng -> Forall pointInRange pts ->
  kMeans pts k n rng = Ok (cs, pts', rng') ->
  Forall centroidInRange cs.
Proof.
  intros Hne Hr Hp Heq. unfold kMeans in Heq.
  destruct (seedCentroids_spec pts k rng Hne Hr) as (cs0 & rng0 & Hs & Hl & Hc).
  rewrite Hs, bind_Ok in Heq.
  destruct (refine n cs0 pts) as [[cs1 pts1]|e] eqn:E; [|discriminate].
  rewrite bind_Ok in Heq. injection Heq as <- <- <-.
  eapply (refine_in_range n cs0 pts cs1 pts1); [| |exact Hp|exact E].
  - destruct cs0; [discriminate | done].
  - eapply Forall_impl; [exact Hc|]. intros c. by apply copyOf_in_range.
Qed.

Lemma makeColors_colors (cs : list RGBColor.t) (counts : list num) (total : num) :
  Forall (fun e => exists c, c ∈ cs
            /\ color e = rgbToHex (RGBColor.r c) (RGBColor.g c) (RGBColor.b c))
         (makeColors cs counts total).
Proof.
  unfold makeColors. rewrite sort_perm.
  apply Forall_forall. intros e He.
  apply list_elem_of_filter in He as [_ He].
  apply elem_of_lookup_imap in He as (i & c & -> & Hc).
  exists c. split; [by eapply list_elem_of_lookup_2 | reflexivity].
Qed.

Lemma byte_in_range (z : Z) : isByte z -> channelInRange (ofZ z).
Proof.
  intros [H0 H1]. exists (inject_Z z). split; [reflexivity|]. split.
  - change (inject_Z 0 <= inject_Z z)%Q. by rewrite <- Zle_Qle.
  - change (inject_Z z <= inject_Z 255)%Q. by rewrite <- Zle_Qle.
Qed.

Lemma samples_in_range (pixels : list (Z * Z * Z * Z)) :
  Forall bytePixel pixels ->
  Forall pointInRange (samplePixels (imageData pixels)).
Proof.
  intros H. rewrite samplePixels_imageData. apply Forall_fmap.
  apply Forall_forall. intros px Hin.
  apply list_elem_of_filter in Hin as [_ Hin].
  rewrite Forall_forall in H. specialize (H px Hin).
  destruct px as [[[r g] b] a]. destruct H as (Hr & Hg & Hb).
  repeat split; by apply byte_in_range.
Qed.

(** X9. For an image whose pixels have bytes for red, green and blue, every
    colour string of every palette [extractColors] resolves with, for any
    colour count, is [#] followed by the uppercase two-digit hexadecimal
    form of three bytes: the rounded channels of a centroid never leave
    [[0, 255]], and no [NaN] or three-digit group is printed. *)
Theorem X9_palette_colours_are_hex_strings
    (pixels : list (Z * Z * Z * Z)) (K : num) (rng : Rand)
    (colors : list ColorData) :
  validRand rng -> Forall bytePixel pixels ->
  extractColors (imageData pixels) K rng = Resolved colors ->
  Forall (fun e => wellFormedColor (color e)) colors.
Proof.
  intros Hr Hb Heq.
  destruct (decide (samplePixels (imageData pixels) = [])) as [He|Hne].
  - rewrite extractColors_no_samples in Heq by done. injection Heq as <-.
    constructor; [|constructor]. exists 255, 255, 255.
    unfold isByte. repeat split; try lia.
  - rewrite extractColors_samples in Heq by done.
    unfold clusterColors in Heq.
    set (pts := samplePixels (imageData pixels)) in *.
    destruct (kMeans pts _ 100 rng) as [[[cs pts'] rng']|e] eqn:Ek;
      [|discriminate].
    rewrite bind_Ok in Heq.
    destruct (newArrayFilled _ _) as [arr|e]; [|discriminate].
    rewrite bind_Ok in Heq. injection Heq as <-.
    pose proof (kMeans_in_range _ _ _ _ _ _ _ Hne Hr (samples_in_range _ Hb) Ek)
      as Hcs.
    eapply Forall_impl; [apply makeColors_colors|].
    intros e (c & Hin & ->). apply rgbToHex_bytes.
    rewrite Forall_forall in Hcs. by apply Hcs.
Qed.

Lemma X9_palette_colours_are_hex_strings_witness :
  Forall (fun e => wellFormedColor (color e))
    [mkColorData "#000000" (ofZ 2) (ofZ 100)].
Proof.
  apply (X9_palette_colours_are_hex_strings
           [(0, 0, 0, 255); (255, 255, 255, 255)] (ofZ 1) (constRand (1 # 4))).
  - intros i. reflexivity.
  - repeat constructor; unfold isByte; lia.
  - vm_compute. reflexivity.
Defined.

(** ** [isDarkBackground] *)

Example isDarkBackground_samples :
  isDarkBackground "#000000" = true /\ isDarkBackground "#FFFFFF" = false
  /\ isDarkBackground "#7f7f7f" = true /\ isDarkBackground "808080" = false.
Proof. vm_compute. repeat split. Qed.

Lemma parseInt16_bytes :
  forallb (fun m => bool_decide (parseInt16 (hexByte (Z.of_nat m)) = ofZ (Z.of_nat m)))
          (seq 0 256) = true.
Proof. vm_compute. reflexivity. Qed.

Lemma parseInt16_hexByte (n : Z) : isByte n -> parseInt16 (hexByte n) = ofZ n.
Proof.
  intros Hn. unfold isByte in Hn. pose proof parseInt16_bytes as H.
  rewrite forallb_forall in H.
  specialize (H (Z.to_nat n)). rewrite Z2Nat.id in H by lia.
  eapply bool_decide_eq_true_1, H, in_seq. lia.
Qed.

Lemma luminance_value (R G B : Z) :
  exists q : Q,
    ((Fin (299 # 1000) * ofZ R + Fin (587 # 1000) * ofZ G + Fin (57 # 500) * ofZ B)
     / ofZ 255)%num = Fin q
    /\ (q == inject_Z (weightedSum R G B) / 255000)%Q.
Proof.
  unfold ofZ. cbn [num_mul num_add num_div]. 
  change (Qeq_bool (inject_Z 255) 0) with false. cbv iota.
  eexists. split; [reflexivity|].
  rewrite !Qred_correct. unfold weightedSum.
  rewrite !inject_Z_plus, !inject_Z_mult. field.
Qed.

(** X10. For a colour string [#RRGGBB] of three bytes in uppercase digits
    (the form of every palette colour), [isDarkBackground] reads the three
    bytes back and answers by the weighted sum [299 R + 587 G + 114 B]: dark
    when it is below 127500, not dark when it is above. *)
Theorem X10_dark_by_weighted_sum (R G B : Z) :
  isByte R -> isByte G -> isByte B ->
  (weightedSum R G B < 127500 -> isDarkBackground (hexColorOf R G B) = true)
  /\ (127500 < weightedSum R G B -> isDarkBackground (hexColorOf R G B) = false).
Proof.
  intros HR HG HB.
  assert (Heq : isDarkBackground (hexColorOf R G B)
          = (((Fin (299 # 1000) * ofZ R + Fin (587 # 1000) * ofZ G
               + Fin (57 # 500) * ofZ B) / ofZ 255) <? Fin (1 # 2))%num).
  { unfold isDarkBackground, hexColorOf.
    change (removeFirst "#" (String "#" ?s)) with s.
    change (substring 0 2 (hexByte R +:+ hexByte G +:+ hexByte B)) with (hexByte R).
    change (substring 2 2 (hexByte R +:+ hexByte G +:+ hexByte B)) with (hexByte G).
    change (substring 4 2 (hexByte R +:+ hexByte G +:+ hexByte B)) with (hexByte B).
    by rewrite !parseInt16_hexByte. }
  rewrite Heq. destruct (luminance_value R G B) as (q & -> & Hq).
  cbn [num_ltb].
  assert (H255 : (0 < 255000)%Q) by done.
  assert (Ehalf : ((1 # 2) * 255000 == inject_Z 127500)%Q) by reflexivity.
  split; intros H; destruct (Qlt_le_dec q (1 # 2)) as [Hlt|Hge]; try reflexivity;
    exfalso; rewrite Hq in *.
  - assert (Hlt : (inject_Z (weightedSum R G B) / 255000 < 1 # 2)%Q).
    { apply Qlt_shift_div_r; [exact H255|].
      rewrite Ehalf, <- Zlt_Qlt. exact H. }
    exact (Qlt_not_le _ _ Hlt Hge).
  - apply (Qlt_not_le _ _ Hlt).
    apply Qle_shift_div_l; [exact H255|].
    rewrite Ehalf, <- Zle_Qle. lia.
Qed.

Lemma X10_dark_by_weighted_sum_witness :
  isDarkBackground "#123456" = true /\ isDarkBackground "#FFEE00" = false.
Proof.
  split.
  - apply (X10_dark_by_weighted_sum 18 52 86); unfold isByte, weightedSum; lia.
  - apply (X10_dark_by_weighted_sum 255 238 0); unfold isByte, weightedSum; lia.
Defined.

Lemma substring_beyond (n m : nat) (s : string) :
  (String.length s <= n)%nat -> substring n m s = EmptyString.
Proof.
  revert s. induction n as [|n IH]; intros s H.
  - destruct s; [|simpl in H; lia]. by destruct m.
  - destruct s as [|c s]; [done|]. simpl in *. apply IH. lia.
Qed.

Lemma num_add_NaN (a : num) : (a + NaN)%num = NaN.
Proof. by destruct a. Qed.

(** X11. [isDarkBackground] answers "not dark" for every string that, its
    first [#] removed, has fewer than five characters: the blue group is
    empty, [parseInt] gives [NaN], and no comparison with [NaN] holds.  The
    three-digit colours are among them, black [#000] too. *)
Theorem X11_short_colour_is_never_dark (hexColor : string) :
  (String.length (removeFirst "#" hexColor) <= 4)%nat ->
  isDarkBackground hexColor = false.
Proof.
  intros H. unfold isDarkBackground.
  rewrite (substring_beyond 4 2 _ H).
  change (parseInt16 EmptyString) with NaN.
  change (Fin (57 # 500) * NaN)%num with NaN.
  by rewrite num_add_NaN.
Qed.

Lemma X11_short_colour_is_never_dark_witness :
  isDarkBackground "#000" = false /\ isDarkBackground "#1234" = false.
Proof.
  split.
  - apply (X11_short_colour_is_never_dark "#000"). simpl. lia.
  - apply (X11_short_colour_is_never_dark "#1234"). simpl. lia.
Defined.

(** ** The first entry *)

Lemma descending_sum_le {A} (key : A -> nat) (x : A) (l : list A) :
  Forall (descendingBy key x) l ->
  (sum_list_with key l <= key x * length l)%nat.
Proof.
  induction 1 as [|y l Hy H IH]; simpl; [lia|].
  unfold descendingBy in Hy. lia.
Qed.

Lemma sortedByCount_descending (total : nat) (colors : list ColorData) :
  Forall (wellFormed total) colors -> sortedByCount colors ->
  StronglySorted (descendingBy (fun e => natOf (count e))) colors.
Proof.
  intros Hwf Hs. induction Hs as [|e l Hs IH He]; [constructor|].
  apply Forall_cons in Hwf as [(c & n & -> & _) Hwf].
  constructor; [by apply IH|].
  rewrite Forall_forall in He, Hwf. apply Forall_forall. intros e' Hin.
  specialize (He e' Hin). destruct (Hwf e' Hin) as (c' & n' & -> & _).
  unfold descendingBy. cbn [entryOf count] in *. rewrite !natOf_ofNat.
  unfold ofNat in He. rewrite ofZ_leb in He. apply Z.leb_le in He. lia.
Qed.

(** X12. With at least one eligible pixel and a colour count [K] of 1 or
    more, the first entry of the palette, the dominant colour, counts at
    least one [K]-th of the eligible pixels. *)
Theorem X12_dominant_colour_share (data : list Z) (K : Z) (rng : Rand) :
  validRand rng ->
  samplePixels data <> [] ->
  Z.of_nat (length (samplePixels data)) < 2 ^ 32 ->
  1 <= K ->
  exists first rest (n : nat),
    extractColors data (ofZ K) rng = Resolved (first :: rest)
    /\ count first = ofNat n
    /\ Z.of_nat (length (samplePixels data)) <= Z.of_nat n * K.
Proof.
  intros Hr Hne Hlen HK.
  destruct (Math_min_positive_integer K _ HK (nonempty_length _ Hne))
    as (kn & Hk & Hpos & HkK).
  destruct (palette_facts data (ofZ K) rng kn Hr Hne Hlen Hk Hpos)
    as (colors & Heq & Hwf & Hsum & Hl & _ & Hs).
  destruct colors as [|first rest]; [simpl in Hl; lia|].
  pose proof (sortedByCount_descending _ _ Hwf Hs) as Hd.
  apply StronglySorted_inv in Hd as [_ Hd].
  pose proof (descending_sum_le _ _ _ Hd) as Hle.
  pose proof Hwf as Hwf'. apply Forall_cons in Hwf' as [(c & n & -> & Hn) _].
  exists (entryOf (length (samplePixels data)) c n), rest, n.
  split; [exact Heq|]. split; [reflexivity|].
  cbn [sum_list_with entryOf count length] in *. rewrite natOf_ofNat in *.
  nia.
Qed.

Lemma X12_dominant_colour_share_witness :
  exists first rest (n : nat),
    extractColors sampleImage (ofZ 6) (constRand (1 # 2)) = Resolved (first :: rest)
    /\ count first = ofNat n
    /\ Z.of_nat (length (samplePixels sampleImage)) <= Z.of_nat n * 6.
Proof.
  apply (X12_dominant_colour_share sampleImage 6 (constRand (1 # 2))).
  - apply validRand_const_half.
  - discriminate.
  - vm_compute. reflexivity.
  - lia.
Defined.

(** ** The seeding spreads the centroids *)

Lemma Math_min_ofZ_ofZ (x y : Z) : Math_min (ofZ x) (ofZ y) = ofZ (Z.min x y).
Proof.
  change (Math_min (ofZ x) (ofZ y))
    with (if (ofZ y <? ofZ x)%num then ofZ y else ofZ x).
  rewrite ofZ_ltb. destruct (Z.ltb_spec y x); f_equal; lia.
Qed.

Lemma sqDistance_ofZ (p : Point.t) (r1 g1 b1 : Z) (c2 : Z * Z * Z) :
  colorOf p = (ofZ r1, ofZ g1, ofZ b1) ->
  sqDistance p (centroidOfZ c2) = ofZ (sqDistZ (r1, g1, b1) c2).
Proof.
  destruct c2 as [[r2 g2] b2].
  unfold colorOf. intros [= Hr Hg Hb].
  unfold sqDistance, Math_pow2, sqDistZ.
  cbn [centroidOfZ RGBColor.r RGBColor.g RGBColor.b]. rewrite Hr, Hg, Hb.
  by rewrite !ofZ_sub, !ofZ_mul, !ofZ_add.
Qed.

Lemma sqDistZ_nonneg c1 c2 : 0 <= sqDistZ c1 c2.
Proof.
  destruct c1 as [[r1 g1] b1], c2 as [[r2 g2] b2]. unfold sqDistZ.
  pose proof (Z.square_nonneg (r1 - r2)).
  pose proof (Z.square_nonneg (g1 - g2)).
  pose proof (Z.square_nonneg (b1 - b2)). lia.
Qed.

Lemma sqDistZ_zero c1 c2 : sqDistZ c1 c2 = 0 <-> c1 = c2.
Proof.
  destruct c1 as [[r1 g1] b1], c2 as [[r2 g2] b2]. unfold sqDistZ. split.
  - intros H.
    pose proof (Z.square_nonneg (r1 - r2)).
    pose proof (Z.square_nonneg (g1 - g2)).
    pose proof (Z.square_nonneg (b1 - b2)).
    assert (r1 - r2 = 0) by (apply Z.eq_square_0; lia).
    assert (g1 - g2 = 0) by (apply Z.eq_square_0; lia).
    assert (b1 - b2 = 0) by (apply Z.eq_square_0; lia).
    f_equal; [f_equal|]; lia.
  - intros [= -> -> ->]. lia.
Qed.

Lemma zOf_ofZ (z : Z) : zOf (ofZ z) = z.
Proof. apply Qfloor_Z. Qed.

Lemma Math_min_PInf_ofZ (d : Z) : Math_min PInf (ofZ d) = ofZ d.
Proof. reflexivity. Qed.

Lemma integerPoint_copy (p : Point.t) (r g b : Z) :
  colorOf p = (ofZ r, ofZ g, ofZ b) -> copyColor p = centroidOfZ (r, g, b).
Proof. unfold colorOf, copyColor. by intros [= -> -> ->]. Qed.

Lemma centroidOfZ_inj (z1 z2 : Z * Z * Z) :
  centroidOfZ z1 = centroidOfZ z2 -> z1 = z2.
Proof.
  destruct z1 as [[r1 g1] b1], z2 as [[r2 g2] b2]. simpl.
  intros [= H1 H2 H3]. by subst.
Qed.

Lemma seedDistance_fold (p : Point.t) (r g b : Z) :
  colorOf p = (ofZ r, ofZ g, ofZ b) ->
  forall (cs seen : list RGBColor.t) (acc : num),
    Forall integerCentroid cs ->
    (acc = PInf /\ seen = []
     \/ exists a, acc = ofZ a /\ 0 <= a /\ (a = 0 <-> copyColor p ∈ seen)) ->
    seen ++ cs <> [] ->
    exists m,
      fold_left (fun minDistance centroid =>
                   Math_min minDistance (sqDistance p centroid)) cs acc = ofZ m
      /\ 0 <= m /\ (m = 0 <-> copyColor p ∈ seen ++ cs).
Proof.
  intros Hp. induction cs as [|c cs IH]; intros seen acc Hcs Hacc Hne.
  - rewrite app_nil_r in *. simpl.
    destruct Hacc as [[_ ->]|(a & -> & Ha & Hiff)]; [done|]. by exists a.
  - apply Forall_cons in Hcs as [[z ->] Hcs]. cbn [fold_left].
    rewrite (sqDistance_ofZ p r g b z Hp).
    pose proof (sqDistZ_nonneg (r, g, b) z) as Hd0.
    pose proof (sqDistZ_zero (r, g, b) z) as Hdz.
    rewrite (integerPoint_copy p r g b Hp) in *.
    replace (seen ++ centroidOfZ z :: cs) with ((seen ++ [centroidOfZ z]) ++ cs)
      by (by rewrite <- app_assoc).
    apply IH; [done | | by destruct seen].
    right. destruct Hacc as [[-> ->]|(a & -> & Ha & Hiff)].
    + exists (sqDistZ (r, g, b) z). rewrite Math_min_PInf_ofZ.
      split; [reflexivity|]. split; [done|].
      change ([] ++ [centroidOfZ z]) with [centroidOfZ z].
      rewrite list_elem_of_singleton. split.
      * intros H0. apply Hdz in H0. by subst z.
      * intros Heq. apply centroidOfZ_inj in Heq. by apply Hdz.
    + exists (Z.min a (sqDistZ (r, g, b) z)). rewrite Math_min_ofZ_ofZ.
      split; [reflexivity|]. split; [lia|].
      rewrite elem_of_app, list_elem_of_singleton. split.
      * intros Hmin. destruct (decide (a = 0)) as [Ha0|Ha0]; [left; tauto|].
        right. assert (Hz : (r, g, b) = z) by (apply Hdz; lia). by subst z.
      * intros [Hin|Heq].
        -- apply Hiff in Hin. lia.
        -- apply centroidOfZ_inj in Heq. apply Hdz in Heq. lia.
Qed.

Lemma seedDistance_integer (cs : list RGBColor.t) (p : Point.t) :
  integerPoint p -> Forall integerCentroid cs -> cs <> [] ->
  exists m, seedDistance cs p = ofZ m /\ 0 <= m
            /\ (m = 0 <-> copyColor p ∈ cs).
Proof.
  intros (r & g & b & Hp) Hcs Hne. unfold seedDistance.
  apply (seedDistance_fold p r g b Hp cs [] PInf Hcs); [by left | done].
Qed.

Lemma total_ofZ (ds : list num) :
  Forall nonnegInt ds ->
  forall a, fold_left num_add ds (ofZ a) = ofZ (a + sumZ ds).
Proof.
  induction 1 as [|d ds (m & -> & Hm) H IH]; intros a.
  - simpl. f_equal. lia.
  - cbn [fold_left sumZ foldr]. rewrite ofZ_add, IH, zOf_ofZ.
    f_equal. fold (sumZ ds). lia.
Qed.

Lemma sumZ_nonneg (ds : list num) : Forall nonnegInt ds -> 0 <= sumZ ds.
Proof.
  induction 1 as [|d ds (m & -> & Hm) H IH]; [done|].
  cbn [sumZ foldr]. fold (sumZ ds). rewrite zOf_ofZ. lia.
Qed.

Lemma sumZ_positive (ds : list num) (j : nat) (m : Z) :
  Forall nonnegInt ds -> ds !! j = Some (ofZ m) -> 0 < m -> 0 < sumZ ds.
Proof.
  intros H. revert j. induction H as [|d ds (m0 & -> & Hm0) H IH]; intros j Hj Hm.
  - done.
  - cbn [sumZ foldr]. fold (sumZ ds). rewrite zOf_ofZ.
    pose proof (sumZ_nonneg ds H). destruct j as [|j].
    + injection Hj as Hj. lia.
    + specialize (IH j Hj Hm). lia.
Qed.

(** The walk stops at a distance that is not zero, when it starts from a
    positive value that is at most the total. *)
Lemma selectIndex_positive (ds : list num) :
  Forall nonnegInt ds ->
  forall (j : nat) (x : Q),
    (0 < x)%Q -> (x <= inject_Z (sumZ ds))%Q ->
    exists m, (j <= selectIndex ds j (Fin x))%nat
              /\ ds !! (selectIndex ds j (Fin x) - j)%nat = Some (ofZ m)
              /\ 0 < m.
Proof.
  induction 1 as [|d ds (m0 & -> & Hm0) H IH]; intros j x Hx Hle.
  - simpl in Hle. exfalso. apply (Qlt_irrefl 0). by eapply Qlt_le_trans.
  - cbn [selectIndex sumZ foldr] in *. fold (sumZ ds) in Hle.
    rewrite zOf_ofZ in Hle.
    change (Fin x - ofZ m0)%num with (Fin (Qred (x - inject_Z m0))).
    cbn [num_leb ofZ].
    assert (Hred : (Qred (x - inject_Z m0) == x - inject_Z m0)%Q)
      by apply Qred_correct.
    destruct (Qle_bool (Qred (x - inject_Z m0)) (inject_Z 0)) eqn:E.
    + apply Qle_bool_iff in E. rewrite Hred in E.
      exists m0. split; [lia|]. rewrite Nat.sub_diag. split; [reflexivity|].
      rewrite Zlt_Qlt. change (inject_Z 0) with 0%Q in *. lra.
    + assert (Hpos : (0 < Qred (x - inject_Z m0))%Q).
      { apply Qnot_le_lt. intros Hc. apply Qle_bool_iff in Hc.
        change (inject_Z 0) with 0%Q in E. congruence. }
      destruct (IH (S j) (Qred (x - inject_Z m0)) Hpos) as (m & Hj & Hm & Hm1).
      { rewrite Hred. rewrite inject_Z_plus in Hle. lra. }
      exists m. split; [lia|]. split; [|exact Hm1].
      replace (selectIndex ds (S j) (Fin (Qred (x - inject_Z m0))) - j)%nat
        with (S (selectIndex ds (S j) (Fin (Qred (x - inject_Z m0))) - S j))
        by lia.
      exact Hm.
Qed.

Lemma openUnit_inv (u : num) :
  openUnit u = true -> exists q, u = Fin q /\ (0 < q)%Q /\ (q < 1)%Q.
Proof.
  unfold openUnit. intros H. apply andb_prop in H as [H0 H1].
  destruct u as [q| | |]; simpl in *; try discriminate.
  exists q. split; [reflexivity|].
  destruct (Qlt_le_dec (inject_Z 0) q); [|discriminate].
  destruct (Qlt_le_dec q (inject_Z 1)); [|discriminate]. by split.
Qed.

Lemma positiveRand_valid (rng : Rand) : positiveRand rng -> validRand rng.
Proof.
  intros H i. destruct (openUnit_inv _ (H i)) as (q & Hq & H0 & H1).
  rewrite Hq. unfold unitInterval. simpl.
  apply andb_true_intro. split.
  - apply Qle_bool_iff. by apply Qlt_le_weak.
  - destruct (Qlt_le_dec q (inject_Z 1)) as [|Hge]; [done|].
    exfalso. apply (Qlt_irrefl q). by eapply Qlt_le_trans.
Qed.

Lemma positiveRand_tail (rng : Rand) :
  positiveRand rng -> positiveRand (random rng).2.
Proof. intros H i. apply (H (S i)). Qed.

Lemma copyOf_integer (pts : list Point.t) (c : RGBColor.t) :
  Forall integerPoint pts -> copyOf pts c -> integerCentroid c.
Proof.
  intros Hp (p & Hin & ->). rewrite Forall_forall in Hp.
  destruct (Hp p Hin) as (r & g & b & Hc).
  exists (r, g, b). by apply integerPoint_copy.
Qed.

(** While a point differs from every centroid chosen so far, and
    [Math.random] does not return [0], the next centroid is a copy of such a
    point. *)
Lemma seedNext_fresh (pts : list Point.t) (cs : list RGBColor.t) (rng : Rand) :
  Forall integerPoint pts -> Forall integerCentroid cs -> cs <> [] ->
  openUnit (rng 0%nat) = true ->
  (exists p0, p0 ∈ pts /\ copyColor p0 ∉ cs) ->
  exists p, p ∈ pts /\ (copyColor p ∉ cs)
            /\ seedNext pts cs rng = Ok (cs ++ [copyColor p], (random rng).2).
Proof.
  intros Hpts Hcs Hne Hu (p0 & Hin0 & Hfresh0).
  unfold seedNext. cbn [random].
  change (map (seedDistance cs) pts) with (seedDistance cs <$> pts).
  set (ds := seedDistance cs <$> pts).
  assert (Hds : Forall nonnegInt ds).
  { apply Forall_fmap. eapply Forall_impl; [exact Hpts|]. intros p Hp. simpl.
    destruct (seedDistance_integer cs p Hp Hcs Hne) as (m & -> & Hm & _).
    by exists m. }
  rewrite (total_ofZ ds Hds 0). rewrite Z.add_0_l.
  assert (HT : 0 < sumZ ds).
  { apply list_elem_of_lookup in Hin0 as [j0 Hj0].
    rewrite Forall_forall in Hpts.
    destruct (seedDistance_integer cs p0 (Hpts p0 (list_elem_of_lookup_2 _ _ _ Hj0)) Hcs Hne)
      as (m0 & Hm0 & Hge & Hiff).
    apply (sumZ_positive ds j0 m0 Hds).
    - unfold ds. by rewrite list_lookup_fmap, Hj0, <- Hm0.
    - destruct (decide (m0 = 0)) as [E|E]; [|lia]. apply Hiff in E. done. }
  destruct (openUnit_inv _ Hu) as (q & -> & Hq0 & Hq1).
  change (Fin q * ofZ (sumZ ds))%num
    with (Fin (Qred (q * inject_Z (sumZ ds)))).
  assert (HTq : (0 < inject_Z (sumZ ds))%Q) by (by rewrite <- (Zlt_Qlt 0)).
  destruct (selectIndex_positive ds Hds 0 (Qred (q * inject_Z (sumZ ds))))
    as (m & _ & Hm & Hmpos).
  { rewrite Qred_correct. by apply Qmult_lt_0_compat. }
  { rewrite Qred_correct.
    rewrite <- (Qmult_1_l (inject_Z (sumZ ds))) at 2.
    apply Qmult_le_compat_r; [by apply Qlt_le_weak | by apply Qlt_le_weak]. }
  rewrite Nat.sub_0_r in Hm.
  set (i := selectIndex ds 0 _) in *.
  unfold ds in Hm. rewrite list_lookup_fmap in Hm.
  destruct (pts !! i) as [p|] eqn:Hp; [|discriminate].
  injection Hm as Hm.
  exists p. split; [by eapply list_elem_of_lookup_2|]. split.
  - rewrite Forall_forall in Hpts.
    destruct (seedDistance_integer cs p (Hpts p (list_elem_of_lookup_2 _ _ _ Hp)) Hcs Hne)
      as (m' & Hm' & _ & Hiff).
    rewrite Hm' in Hm. injection Hm as Hm. intros Hin. apply Hiff in Hin. lia.
  - unfold pointAt. simpl. by rewrite Hp.
Qed.

Lemma centroidOfColor_inj : Inj eq eq centroidOfColor.
Proof. intros [[r1 g1] b1] [[r2 g2] b2]. unfold centroidOfColor. simpl. congruence. Qed.

(** Fewer centroids than colours: a point has none of their colours. *)
Lemma fresh_point_exists (pts : list Point.t) (cs : list RGBColor.t) :
  (length cs < distinctColors pts)%nat ->
  exists p0, p0 ∈ pts /\ copyColor p0 ∉ cs.
Proof.
  intros Hlt.
  destruct (decide (Forall (fun p => copyColor p ∈ cs) pts)) as [Hall|Hex].
  - exfalso. unfold distinctColors in Hlt.
    assert (Hle : (length (centroidOfColor <$> remove_dups (colorOf <$> pts))
                   <= length cs)%nat).
    { apply submseteq_length, NoDup_submseteq.
      - apply (@NoDup_fmap_2 _ _ centroidOfColor centroidOfColor_inj).
        apply NoDup_remove_dups.
      - intros c Hc. apply list_elem_of_fmap in Hc as (col & -> & Hcol).
        apply elem_of_remove_dups, list_elem_of_fmap in Hcol as (p & -> & Hp).
        rewrite Forall_forall in Hall. exact (Hall p Hp). }
    rewrite length_fmap in Hle. lia.
  - apply not_Forall_Exists in Hex; [|apply _].
    apply Exists_exists in Hex as (p0 & Hin & Hp0). by exists p0.
Qed.

Lemma seedLoop_distinct (pts : list Point.t) (k : num) :
  Forall integerPoint pts ->
  forall (m a : nat) (cs : list RGBColor.t) (rng : Rand),
    length cs = a -> (1 <= a)%nat ->
    NoDup cs -> Forall (copyOf pts) cs -> positiveRand rng ->
    (forall i, (a <= i < a + m)%nat -> (ofNat i <? k)%num = true ->
               (i < distinctColors pts)%nat) ->
    exists cs' rng',
      seedLoop (seq a m) pts k cs rng = Ok (cs', rng') /\ NoDup cs'.
Proof.
  intros Hpts. induction m as [|m IH]; intros a cs rng Hl Ha Hnd Hc Hr Hk.
  - by exists cs, rng.
  - cbn [seq seedLoop]. destruct (ofNat a <? k)%num eqn:E.
    + assert (Hlt : (length cs < distinctColors pts)%nat).
      { rewrite Hl. apply Hk; [lia | done]. }
      destruct (seedNext_fresh pts cs rng Hpts) as (p & Hin & Hfresh & ->).
      * eapply Forall_impl; [exact Hc|]. intros c. by apply copyOf_integer.
      * destruct cs; [simpl in Hl; lia | done].
      * apply Hr.
      * by apply fresh_point_exists.
      * rewrite bind_Ok. apply IH.
        -- rewrite length_app. simpl. lia.
        -- lia.
        -- apply NoDup_app. split; [done|]. split.
           ++ intros c Hc1 Hc2. apply list_elem_of_singleton in Hc2. by subst.
           ++ apply NoDup_singleton.
        -- apply Forall_app. split; [done|]. constructor; [by exists p|done].
        -- by apply positiveRand_tail.
        -- intros i Hi. apply Hk. lia.
    + by exists cs, rng.
Qed.

Lemma seedCentroids_distinct
    (pts : list Point.t) (k : Z) (rng : Rand) :
  pts <> [] -> Forall integerPoint pts -> positiveRand rng ->
  (centroidCount k (length pts) <= distinctColors pts)%nat ->
  exists cs rng',
    seedCentroids pts (ofZ k) rng = Ok (cs, rng')
    /\ length cs = centroidCount k (length pts)
    /\ NoDup cs
    /\ Forall (copyOf pts) cs.
Proof.
  intros Hne Hpts Hr Hk.
  pose proof (positiveRand_valid rng Hr) as Hv.
  pose proof (nonempty_length _ Hne) as Hlen.
  destruct (seedCentroids_spec pts (ofZ k) rng Hne Hv) as (cs & rng' & Heq & Hl & Hcopies).
  exists cs, rng'. split; [exact Heq|].
  rewrite seed_rounds_integer in Hl by done. split; [exact Hl|].
  split; [|exact Hcopies].
  unfold seedCentroids in Heq.
  destruct (Nat.ltb_spec 0 (length pts)); [|lia].
  cbn [random] in Heq.
  destruct (firstIndex_in_range (rng 0%nat) (length pts) (Hv 0%nat) Hlen)
    as (i & Hi & Hlt).
  rewrite Hi in Heq.
  destruct (pointAt_in_range pts i Hlt) as (p & Hin & Hp).
  rewrite Hp, bind_Ok in Heq.
  destruct (seedLoop_distinct pts (ofZ k) Hpts (length pts - 1) 1 [copyColor p]
              (fun n => rng (S n))) as (cs' & rng'' & Heq' & Hnd).
  - reflexivity.
  - lia.
  - apply NoDup_singleton.
  - constructor; [by exists p | done].
  - intros j. apply (Hr (S j)).
  - intros j Hj Hjk. rewrite ofNat_ltb_ofZ in Hjk. apply Nat.ltb_lt in Hjk.
    unfold centroidCount in Hk. lia.
  - rewrite Heq' in Heq. by injection Heq as <- <-.
Qed.

(** X13. On samples with integer channels, when [Math.random] never returns
    [0] and the samples have at least as many distinct colours as centroids
    are made, the seeding returns centroids that are pairwise different:
    every centroid after the first is a copy of a sample that differs from
    all the centroids before it. *)
Theorem X13_seeding_centroids_are_distinct
    (pts : list Point.t) (k : Z) (rng : Rand) :
  pts <> [] -> Forall integerPoint pts -> positiveRand rng ->
  (centroidCount k (length pts) <= distinctColors pts)%nat ->
  exists cs rng',
    seedCentroids pts (ofZ k) rng = Ok (cs, rng')
    /\ length cs = centroidCount k (length pts)
    /\ NoDup cs.
Proof.
  intros Hne Hpts Hr Hk.
  destruct (seedCentroids_distinct pts k rng Hne Hpts Hr Hk)
    as (cs & rng' & Heq & Hl & Hnd & _).
  by exists cs, rng'.
Qed.

Lemma X13_seeding_centroids_are_distinct_witness :
  exists cs rng',
    seedCentroids (samplePixels sampleImage) (ofZ 2) (constRand (1 # 2))
    = Ok (cs, rng')
    /\ length cs = 2%nat
    /\ NoDup cs.
Proof.
  apply (X13_seeding_centroids_are_distinct (samplePixels sampleImage) 2
           (constRand (1 # 2))).
  - discriminate.
  - repeat constructor; by eexists _, _, _.
  - intros i. reflexivity.
  - vm_compute. lia.
Defined.

(** ** Samples that are all of different colours *)

Lemma integerPoint_finite (p : Point.t) : integerPoint p -> finitePoint p.
Proof.
  intros (r & g & b & H). unfold colorOf in H. injection H as Hr Hg Hb.
  unfold finitePoint. rewrite Hr, Hg, Hb. repeat split; by eexists.
Qed.

Lemma integerCentroid_finite (c : RGBColor.t) : integerCentroid c -> finiteCentroid c.
Proof. intros [[[r g] b] ->]. repeat split; by eexists. Qed.

(** A point whose colour is the colour of a centroid is assigned to that
    centroid. *)
Lemma own_centroid (cs : list RGBColor.t) (p : Point.t) :
  Forall integerCentroid cs -> integerPoint p -> copyColor p ∈ cs ->
  cs !! clusterOf cs p = Some (copyColor p).
Proof.
  intros Hcs Hp Hin.
  assert (Hne : cs <> []) by (intros ->; by apply not_elem_of_nil in Hin).
  pose proof (nearest_spec p cs (integerPoint_finite p Hp) [] PInf 0%nat) as H.
  destruct H as (cc & Hcc & Hm & Hall).
  { eapply Forall_impl; [exact Hcs|]. apply integerCentroid_finite. }
  { by left. }
  { done. }
  simpl in Hcc. unfold clusterOf. rewrite Hcc. f_equal.
  apply list_elem_of_lookup in Hin as [j Hj].
  destruct (Hall j _ Hj) as [Hle _]. rewrite Hm in Hle.
  destruct Hp as (r & g & b & Hp).
  rewrite (sqDistance_same p (copyColor p)) in Hle;
    [|apply integerPoint_finite; by exists r, g, b | done].
  rewrite Forall_forall in Hcs.
  destruct (Hcs cc (list_elem_of_lookup_2 _ _ _ Hcc)) as [z ->].
  rewrite (sqDistance_ofZ p r g b z Hp), ofZ_leb in Hle.
  apply Z.leb_le in Hle. pose proof (sqDistZ_nonneg (r, g, b) z).
  assert (Hz : (r, g, b) = z) by (apply sqDistZ_zero; lia).
  subst z. symmetry. by apply integerPoint_copy.
Qed.

Lemma sumFrom_constant (f : Point.t -> num) (x : Z) (l : list Point.t) :
  Forall (fun q => f q = ofZ x) l ->
  forall a, sumFrom (ofZ a) f l = ofZ (a + Z.of_nat (length l) * x).
Proof.
  unfold sumFrom. induction 1 as [|q l Hq H IH]; intros a.
  - simpl. f_equal. lia.
  - cbn [map fold_left length]. rewrite Hq, ofZ_add, IH. f_equal. lia.
Qed.

Lemma mean_of_copies (n : nat) (x : Z) :
  (0 < n)%nat -> (ofZ (0 + Z.of_nat n * x) / ofNat n)%num = ofZ x.
Proof.
  intros Hn. unfold ofNat, ofZ. cbn [num_div].
  assert (Hpos : (0 < inject_Z (Z.of_nat n))%Q) by (rewrite <- (Zlt_Qlt 0); lia).
  destruct (Qeq_bool (inject_Z (Z.of_nat n)) 0) eqn:E.
  { apply Qeq_bool_eq in E. rewrite E in Hpos. by apply Qlt_irrefl in Hpos. }
  f_equal. rewrite <- (inject_Z_Qred x). apply Qred_complete.
  rewrite Z.add_0_l, inject_Z_mult. field.
  intros H0. rewrite H0 in Hpos. by apply Qlt_irrefl in Hpos.
Qed.

Lemma meanOf_copies (l : list Point.t) (z : Z * Z * Z) :
  l <> [] -> Forall (fun q => copyColor q = centroidOfZ z) l ->
  meanOf l = centroidOfZ z.
Proof.
  intros Hne Hall. destruct z as [[r g] b].
  pose proof (nonempty_length _ Hne) as Hlen.
  unfold meanOf, centroidOfZ.
  rewrite (sumFrom_constant Point.r r l), (sumFrom_constant Point.g g l),
    (sumFrom_constant Point.b b l).
  - by rewrite !mean_of_copies.
  - eapply Forall_impl; [exact Hall|]. intros q. unfold copyColor. simpl. congruence.
  - eapply Forall_impl; [exact Hall|]. intros q. unfold copyColor. simpl. congruence.
  - eapply Forall_impl; [exact Hall|]. intros q. unfold copyColor. simpl. congruence.
Qed.

(** When every point has exactly the colour of its centroid, the update step
    changes no centroid. *)
Lemma updateCentroids_fixed (cs : list RGBColor.t) (pts : list Point.t) :
  Forall integerCentroid cs -> onOwnCentroid cs pts ->
  updateCentroids cs pts = Ok cs.
Proof.
  intros Hcs Hown.
  assert (Hb : clustersBelow (length cs) pts).
  { eapply Forall_impl; [exact Hown|]. intros p Hp. simpl in Hp.
    eapply lookup_lt_Some. exact Hp. }
  destruct (updateCentroids_spec cs pts Hb) as (cs' & -> & Hl & Hi).
  f_equal. apply list_eq. intros i.
  destruct (cs !! i) as [c|] eqn:Hc.
  - rewrite (Hi i c Hc). f_equal.
    destruct (decide (members i pts = [])) as [|Hne]; [done|].
    rewrite Forall_forall in Hcs.
    destruct (Hcs c (list_elem_of_lookup_2 _ _ _ Hc)) as [z ->].
    apply meanOf_copies; [done|].
    apply Forall_forall. intros q Hq.
    apply list_elem_of_filter in Hq as [Hqi Hq].
    unfold onOwnCentroid in Hown. rewrite Forall_forall in Hown.
    specialize (Hown q Hq). rewrite Hqi in Hown. congruence.
  - apply lookup_ge_None in Hc. apply lookup_ge_None. lia.
Qed.

Lemma copyColor_color (p q : Point.t) :
  colorOf p = colorOf q -> copyColor p = copyColor q.
Proof. unfold colorOf, copyColor. by intros [= -> -> ->]. Qed.

Lemma integerPoint_color (p q : Point.t) :
  colorOf p = colorOf q -> integerPoint q -> integerPoint p.
Proof. intros H (r & g & b & Hq). exists r, g, b. by rewrite H. Qed.

Lemma assignPoints_onOwnCentroid (cs : list RGBColor.t) (pts : list Point.t) :
  Forall integerCentroid cs -> Forall integerPoint pts ->
  Forall (fun p => copyColor p ∈ cs) pts ->
  onOwnCentroid cs (assignPoints cs pts false).1.
Proof.
  intros Hcs Hpts Hin. unfold onOwnCentroid.
  rewrite assignPoints_fst. apply Forall_map.
  rewrite Forall_forall in Hpts, Hin. apply Forall_forall. intros p Hp. simpl.
  rewrite assignPoint_cluster, (copyColor_color _ p (assignPoint_color cs p)).
  apply own_centroid; auto.
Qed.

(** With every colour of a point among the centroids, the refinement loop
    returns the centroids it was given, whatever the cap is. *)
Lemma refine_fixed (n : nat) :
  forall (cs : list RGBColor.t) (pts : list Point.t),
    Forall integerCentroid cs -> Forall integerPoint pts ->
    Forall (fun p => copyColor p ∈ cs) pts ->
    exists pts',
      refine n cs pts = Ok (cs, pts')
      /\ sameColors pts pts'
      /\ (n = 0%nat /\ pts' = pts \/ onOwnCentroid cs pts').
Proof.
  induction n as [|n IH]; intros cs pts Hcs Hpts Hin.
  - exists pts. split; [reflexivity|]. split; [reflexivity | by left].
  - rewrite refine_succ.
    pose proof (assignPoints_onOwnCentroid cs pts Hcs Hpts Hin) as Hown.
    pose proof (assignPoints_sameColors cs pts false) as Hsame.
    set (pts1 := (assignPoints cs pts false).1) in *.
    destruct (negb _).
    + exists pts1. split; [reflexivity|]. split; [done | by right].
    + rewrite (updateCentroids_fixed cs pts1 Hcs Hown), bind_Ok.
      assert (Hcol : forall p1, p1 ∈ pts1 -> exists p, p ∈ pts /\ colorOf p1 = colorOf p).
      { intros p1 Hp1. unfold pts1 in Hp1. rewrite assignPoints_fst in Hp1.
        apply list_elem_of_In, in_map_iff in Hp1 as (p & <- & Hp).
        exists p. split; [by apply list_elem_of_In | apply assignPoint_color]. }
      destruct (IH cs pts1 Hcs) as (pts' & -> & Hs & Hor).
      * apply Forall_forall. intros p1 Hp1. destruct (Hcol p1 Hp1) as (p & Hp & Hc).
        rewrite Forall_forall in Hpts. by eapply integerPoint_color; [exact Hc | apply Hpts].
      * apply Forall_forall. intros p1 Hp1. destruct (Hcol p1 Hp1) as (p & Hp & Hc).
        rewrite Forall_forall in Hin. rewrite (copyColor_color _ _ Hc). by apply Hin.
      * exists pts'. split; [reflexivity|]. split; [by eapply sameColors_trans|].
        right. destruct Hor as [[_ ->]|H]; [exact Hown | exact H].
Qed.

Lemma remove_dups_NoDup {A} `{EqDecision A} (l : list A) :
  NoDup l -> remove_dups l = l.
Proof.
  induction 1 as [|x l Hx H IH]; [done|].
  simpl. destruct (decide_rel elem_of x l); [done|]. by rewrite IH.
Qed.

Lemma filter_all {A} (P : A -> Prop) `{forall x, Decision (P x)} (l : list A) :
  Forall P l -> filter P l = l.
Proof.
  induction 1 as [|x l Hx Hl IH]; [done|].
  rewrite filter_cons_True by done. by rewrite IH.
Qed.

Lemma filter_none {A} (P : A -> Prop) `{forall x, Decision (P x)} (l : list A) :
  Forall (fun x => ~ P x) l -> filter P l = [].
Proof.
  induction 1 as [|x l Hx Hl IH]; [done|].
  rewrite filter_cons_False by done. exact IH.
Qed.

Lemma copyColor_centroidOfColor (p : Point.t) :
  copyColor p = centroidOfColor (colorOf p).
Proof. reflexivity. Qed.

Lemma copyColor_colorOf (p q : Point.t) :
  copyColor p = copyColor q -> colorOf p = colorOf q.
Proof. rewrite !copyColor_centroidOfColor. apply centroidOfColor_inj. Qed.

(** Among points of pairwise different colours, at most one has the colour
    of a given centroid. *)
Lemma at_most_one_member (P : Point.t -> Prop) `{forall q, Decision (P q)}
    (c : RGBColor.t) (l : list Point.t) :
  NoDup (colorOf <$> l) ->
  Forall (fun q => P q -> copyColor q = c) l ->
  (length (filter P l) <= 1)%nat.
Proof.
  induction l as [|q l IH]; intros Hnd Hall; [simpl; lia|].
  rewrite fmap_cons in Hnd. apply NoDup_cons in Hnd as [Hq Hnd].
  apply Forall_cons in Hall as [Hqc Hall].
  destruct (decide (P q)) as [HP|HP].
  - rewrite filter_cons_True by done.
    rewrite (filter_none P l); [simpl; lia|].
    apply Forall_forall. intros q' Hq' HP'.
    rewrite Forall_forall in Hall. apply Hq.
    apply list_elem_of_fmap. exists q'. split; [|done].
    apply copyColor_colorOf. rewrite (Hqc HP). symmetry. by apply Hall.
  - rewrite filter_cons_False by done. by apply IH.
Qed.

Lemma sum_at_most (f : nat -> nat) (n : nat) :
  (forall i, (i < n)%nat -> (f i <= 1)%nat) ->
  (sum_list (f <$> seq 0 n) <= n)%nat.
Proof.
  induction n as [|n IH]; intros H; [simpl; lia|].
  rewrite seq_S, fmap_app, sum_list_with_app. simpl.
  specialize (IH (fun i Hi => H i (Nat.lt_lt_succ_r _ _ Hi))).
  specialize (H n (Nat.lt_succ_diag_r n)). lia.
Qed.

Lemma all_ones (f : nat -> nat) (n : nat) :
  (forall i, (i < n)%nat -> (f i <= 1)%nat) ->
  sum_list (f <$> seq 0 n) = n ->
  forall i, (i < n)%nat -> f i = 1%nat.
Proof.
  induction n as [|n IH]; intros H Hsum i Hi; [lia|].
  rewrite seq_S, fmap_app, sum_list_with_app in Hsum. simpl in Hsum.
  pose proof (sum_at_most f n (fun i Hi => H i (Nat.lt_lt_succ_r _ _ Hi))) as Hle.
  pose proof (H n (Nat.lt_succ_diag_r n)) as Hn.
  destruct (decide (i = n)) as [->|Hne]; [lia|].
  apply IH; [intros j Hj; apply H; lia | lia | lia].
Qed.

Lemma onOwnCentroid_sizes (cs : list RGBColor.t) (pts : list Point.t) :
  NoDup (colorOf <$> pts) -> onOwnCentroid cs pts -> length cs = length pts ->
  forall i, (i < length cs)%nat -> clusterSize pts i = 1%nat.
Proof.
  intros Hnd Hown Hlen.
  assert (Hb : clustersBelow (length cs) pts).
  { eapply Forall_impl; [exact Hown|]. intros p Hp. simpl in Hp.
    eapply lookup_lt_Some. exact Hp. }
  apply all_ones.
  - intros i Hi. destruct (lookup_lt_is_Some_2 cs i Hi) as [c Hc].
    unfold clusterSize, members. apply (at_most_one_member _ c); [done|].
    eapply Forall_impl; [exact Hown|]. intros q Hq Hqi. simpl in Hq.
    rewrite Hqi in Hq. congruence.
  - rewrite Hlen. apply clusterSize_sum. by rewrite <- Hlen.
Qed.

Lemma entriesFrom_ones (total : nat) (size : nat -> nat) (cs : list RGBColor.t) :
  (forall i, (i < length cs)%nat -> size i = 1%nat) ->
  entriesFrom total size 0 cs = (fun c => entryOf total c 1) <$> cs.
Proof.
  intros H. unfold entriesFrom.
  rewrite <- (imap_const (fun c => entryOf total c 1) cs).
  apply imap_ext. intros i c Hc. simpl.
  rewrite H; [done | by eapply lookup_lt_Some].
Qed.

Lemma Math_min_at_least (K : Z) (n : nat) :
  Z.of_nat n <= K -> Math_min (ofZ K) (ofNat n) = ofZ (Z.of_nat n).
Proof.
  intros H. rewrite Math_min_ofZ.
  destruct (Z.ltb_spec (Z.of_nat n) K); [reflexivity|]. f_equal. lia.
Qed.

Lemma numColor_inj : Inj eq eq numColor.
Proof. intros [[r1 g1] b1] [[r2 g2] b2] [= -> -> ->]. reflexivity. Qed.

(** The palette of samples of pairwise different colours, when at least as
    many colours are asked for. *)
Lemma clusterColors_all_distinct
    (pts : list Point.t) (K : Z) (rng : Rand) :
  pts <> [] -> Forall integerPoint pts -> NoDup (colorOf <$> pts) ->
  positiveRand rng ->
  Z.of_nat (length pts) <= K -> Z.of_nat (length pts) < 2 ^ 32 ->
  exists colors cs,
    clusterColors pts (ofZ K) rng = Ok colors
    /\ cs ≡ₚ copyColor <$> pts
    /\ colors ≡ₚ (fun c => entryOf (length pts) c 1) <$> cs.
Proof.
  intros Hne Hpts Hnd Hr HK Hlen.
  pose proof (nonempty_length _ Hne) as Hpos.
  unfold clusterColors, kMeans. rewrite (Math_min_at_least K _ HK).
  assert (Hcount : centroidCount (Z.of_nat (length pts)) (length pts) = length pts).
  { unfold centroidCount. lia. }
  destruct (seedCentroids_distinct pts (Z.of_nat (length pts)) rng Hne Hpts Hr)
    as (cs & rng' & -> & Hl & Hndcs & Hcopies).
  { rewrite Hcount. unfold distinctColors.
    rewrite remove_dups_NoDup by done. by rewrite length_fmap. }
  rewrite Hcount in Hl. rewrite bind_Ok.
  assert (Hperm : cs ≡ₚ copyColor <$> pts).
  { apply submseteq_length_Permutation; [|by rewrite length_fmap, Hl].
    apply NoDup_submseteq; [done|]. intros c Hc.
    rewrite Forall_forall in Hcopies. destruct (Hcopies c Hc) as (p & Hp & ->).
    apply list_elem_of_fmap. by exists p. }
  assert (Hcs : Forall integerCentroid cs).
  { eapply Forall_impl; [exact Hcopies|]. intros c. by apply copyOf_integer. }
  assert (Hin : Forall (fun p => copyColor p ∈ cs) pts).
  { apply Forall_forall. intros p Hp. rewrite Hperm.
    apply list_elem_of_fmap. by exists p. }
  destruct (refine_fixed 100 cs pts Hcs Hpts Hin) as (pts' & -> & Hs & Hor).
  destruct Hor as [[? _]|Hown]; [done|].
  rewrite !bind_Ok. cbn beta iota.
  pose proof (sameColors_length _ _ Hs) as Hlp.
  rewrite (newArrayFilled_index _ _ (length pts) (toIndex_ofNat _) Hlen).
  rewrite !bind_Ok.
  replace (replicate (length pts) (ofZ 0)) with (replicate (length cs) (ofZ 0))
    by (by rewrite Hl).
  assert (Hb : clustersBelow (length cs) pts').
  { eapply Forall_impl; [exact Hown|]. intros p Hp. simpl in Hp.
    eapply lookup_lt_Some. exact Hp. }
  rewrite (makeColors_entries cs pts' Hb).
  assert (Hnd' : NoDup (colorOf <$> pts')).
  { change (colorOf <$> pts') with (map colorOf pts'). unfold sameColors in Hs.
    by rewrite Hs. }
  assert (Hlcs : length cs = length pts') by lia.
  rewrite (entriesFrom_ones _ _ cs (onOwnCentroid_sizes cs pts' Hnd' Hown Hlcs)).
  rewrite filter_all.
  2:{ apply Forall_fmap, Forall_true. intros c.
      apply (proj2 (positive_entryOf (length pts') c 1)). lia. }
  eexists _, cs. split; [reflexivity|]. split; [exact Hperm|].
  rewrite sort_perm. by rewrite Hlp.
Qed.

(** X14. An image whose eligible pixels (at least one) all have different
    colours, with a colour count of at least their number and a
    [Math.random] that never returns [0], gets a palette with exactly the
    colours of these pixels, each counted once: the seeding takes every
    colour, and the refinement moves no centroid. *)
Theorem X14_all_different_colours_are_all_returned
    (pixels : list (Z * Z * Z * Z)) (K : Z) (rng : Rand) :
  positiveRand rng ->
  eligible pixels <> [] ->
  NoDup (rgbOf <$> eligible pixels) ->
  Z.of_nat (length (eligible pixels)) <= K ->
  Z.of_nat (length (eligible pixels)) < 2 ^ 32 ->
  exists colors,
    extractColors (imageData pixels) (ofZ K) rng = Resolved colors
    /\ color <$> colors ≡ₚ hexOfPixel <$> eligible pixels
    /\ Forall (fun e => count e = ofZ 1) colors.
Proof.
  intros Hr Hne Hnd HK Hlen.
  assert (Hs : samplePixels (imageData pixels) = pointOfPixel <$> eligible pixels)
    by apply samplePixels_imageData.
  assert (Hne' : pointOfPixel <$> eligible pixels <> [])
    by (by destruct (eligible pixels)).
  rewrite extractColors_samples by (by rewrite Hs). rewrite Hs.
  destruct (clusterColors_all_distinct (pointOfPixel <$> eligible pixels) K rng)
    as (colors & cs & -> & Hcs & Hcolors); try done.
  - apply Forall_fmap, Forall_true. intros [[[r g] b] a]. by exists r, g, b.
  - replace (colorOf <$> (pointOfPixel <$> eligible pixels))
      with (numColor <$> (rgbOf <$> eligible pixels)).
    + apply (@NoDup_fmap_2 _ _ numColor numColor_inj). exact Hnd.
    + rewrite <- !list_fmap_compose. apply list_fmap_ext.
      by intros i [[[r g] b] a] _.
  - by rewrite length_fmap.
  - by rewrite length_fmap.
  - exists colors. split; [reflexivity|]. split.
    + rewrite Hcolors, Hcs, <- !list_fmap_compose.
      replace ((color ∘ (fun c => entryOf (length (pointOfPixel <$> eligible pixels)) c 1)
                ∘ copyColor ∘ pointOfPixel) <$> eligible pixels)
        with (hexOfPixel <$> eligible pixels); [done|].
      apply list_fmap_ext. by intros i [[[r g] b] a] _.
    + rewrite Hcolors. apply Forall_fmap, Forall_true. by intros c.
Qed.

Lemma X14_all_different_colours_are_all_returned_witness :
  exists colors,
    extractColors
      (imageData [(255, 0, 0, 255); (0, 255, 0, 255); (9, 9, 9, 0); (0, 0, 255, 200)])
      (ofZ 6) (constRand (1 # 2))
    = Resolved colors
    /\ color <$> colors ≡ₚ ["#FF0000"; "#00FF00"; "#0000FF"]
    /\ Forall (fun e => count e = ofZ 1) colors.
Proof.
  apply (X14_all_different_colours_are_all_returned
           [(255, 0, 0, 255); (0, 255, 0, 255); (9, 9, 9, 0); (0, 0, 255, 200)]
           6 (constRand (1 # 2))).
  - intros i. reflexivity.
  - discriminate.
  - apply (bool_decide_unpack _). vm_compute. exact I.
  - vm_compute. discriminate.
  - vm_compute. reflexivity.
Defined.

(** ** One colour asked for *)

Lemma clusterOf_single (c : RGBColor.t) (p : Point.t) : clusterOf [c] p = 0%nat.
Proof.
  unfold clusterOf. destruct (nearest_bound [c] 0 p PInf 0) as [H|H]; [exact H|].
  cbn [length] in H. lia.
Qed.

Lemma seedCentroids_one (pts : list Point.t) (rng : Rand) :
  pts <> [] -> validRand rng ->
  exists i p,
    toIndex (Math_floor (rng 0%nat * ofNat (length pts))) = Some i
    /\ pts !! i = Some p
    /\ seedCentroids pts (ofZ 1) rng = Ok ([copyColor p], (random rng).2).
Proof.
  intros Hne Hr. pose proof (nonempty_length _ Hne) as Hlen.
  unfold seedCentroids. destruct (Nat.ltb_spec 0 (length pts)); [|lia].
  cbn [random].
  destruct (firstIndex_in_range (rng 0%nat) (length pts) (Hr 0%nat) Hlen)
    as (i & Hi & Hlt).
  destruct (lookup_lt_is_Some_2 pts i Hlt) as [p Hp].
  exists i, p. split; [exact Hi|]. split; [exact Hp|].
  rewrite Hi. unfold pointAt. simpl. rewrite Hp. rewrite bind_Ok.
  destruct (length pts - 1)%nat; [reflexivity|].
  cbn [seq seedLoop]. by rewrite ofNat_ltb_ofZ.
Qed.

Lemma samplePixels_cluster_upto (n : nat) :
  forall data, (length data <= n)%nat ->
    Forall (fun q => Point.cluster q = 0%nat) (samplePixels data).
Proof.
  induction n as [|n IH]; intros data Hn.
  - destruct data; [constructor | simpl in Hn; lia].
  - destruct data as [|r [|g [|b [|a rest]]]]; try (repeat constructor).
    cbn [samplePixels]. simpl in Hn.
    destruct (ofZ a <? ofZ 128)%num; [|constructor; [done|]]; apply IH; lia.
Qed.

Lemma samplePixels_cluster (data : list Z) :
  Forall (fun q => Point.cluster q = 0%nat) (samplePixels data).
Proof. by apply (samplePixels_cluster_upto (length data)). Qed.

(** X15. With one colour asked for, the palette is one entry that counts
    every sample, at 100 percent, and its colour is the colour of one of the
    samples, the one the first draw of [Math.random] selects, not a mean:
    every sample starts in cluster 0 and stays there, so the loop stops
    before any update step. *)
Theorem X15_one_colour_asked_returns_a_sample
    (data : list Z) (rng : Rand) :
  validRand rng ->
  samplePixels data <> [] ->
  Z.of_nat (length (samplePixels data)) < 2 ^ 32 ->
  exists p,
    p ∈ samplePixels data
    /\ extractColors data (ofZ 1) rng
       = Resolved [mkColorData (rgbToHex (Point.r p) (Point.g p) (Point.b p))
                               (ofNat (length (samplePixels data))) (ofZ 100)].
Proof.
  intros Hr Hne Hlen. set (pts := samplePixels data) in *.
  pose proof (nonempty_length _ Hne) as Hpos.
  destruct (seedCentroids_one pts rng Hne Hr) as (i & p & Hi & Hp & Hseed).
  exists p. split; [by eapply list_elem_of_lookup_2|].
  rewrite extractColors_samples by done. fold pts.
  unfold clusterColors, kMeans.
  assert (Hk : Math_min (ofZ 1) (ofNat (length pts)) = ofZ 1).
  { rewrite Math_min_ofZ. destruct (Z.ltb_spec (Z.of_nat (length pts)) 1); [lia|done]. }
  rewrite Hk, Hseed, bind_Ok.
  assert (Hcl : Forall (fun q => Point.cluster q = 0%nat) pts)
    by apply samplePixels_cluster.
  assert (Ha : assignedBy [copyColor p] pts).
  { eapply Forall_impl; [exact Hcl|]. intros q Hq. simpl. by rewrite clusterOf_single. }
  destruct (assignedBy_unchanged [copyColor p] pts Ha) as [Hch Hcls].
  rewrite refine_succ, Hch. cbn [negb]. rewrite !bind_Ok. cbn beta iota.
  set (pts' := (assignPoints [copyColor p] pts false).1) in *.
  assert (Hlp : length pts' = length pts).
  { apply sameColors_length, assignPoints_sameColors. }
  assert (Hcl0 : Forall (fun q => Point.cluster q = 0%nat) pts').
  { assert (H : Forall (fun n => n = 0%nat) (Point.cluster <$> pts')).
    { rewrite Hcls. by apply Forall_fmap. }
    by apply Forall_fmap in H. }
  rewrite (newArrayFilled_index _ _ 1%nat) by done. rewrite !bind_Ok.
  change (replicate 1 (ofZ 0)) with (replicate (length [copyColor p]) (ofZ 0)).
  rewrite makeColors_entries.
  2:{ eapply Forall_impl; [exact Hcl0|]. intros q Hq. simpl in *. lia. }
  destruct (clusterSize_all_zero pts' Hcl0) as [Hs0 _].
  rewrite entriesFrom_cons, filter_cons_True
    by (rewrite positive_entryOf, Hs0; lia).
  change (entriesFrom _ _ 1 []) with (@nil ColorData).
  rewrite Hs0, Hlp. unfold entryOf. rewrite full_share by done. reflexivity.
Qed.

Lemma X15_one_colour_asked_returns_a_sample_witness :
  exists p,
    p ∈ samplePixels [0; 0; 0; 255;  255; 255; 255; 255;  90; 90; 90; 255]
    /\ extractColors [0; 0; 0; 255;  255; 255; 255; 255;  90; 90; 90; 255]
                     (ofZ 1) (constRand (1 # 2))
       = Resolved [mkColorData (rgbToHex (Point.r p) (Point.g p) (Point.b p))
                               (ofZ 3) (ofZ 100)].
Proof.
  apply (X15_one_colour_asked_returns_a_sample
           [0; 0; 0; 255;  255; 255; 255; 255;  90; 90; 90; 255]
           (constRand (1 # 2))).
  - apply validRand_const_half.
  - discriminate.
  - vm_compute. reflexivity.
Defined.

(** ** The canvas is not larger than the image *)

Lemma scaled_floor_le (x y : Z) :
  0 <= x -> 200 < y ->
  exists z, Math_floor (ofZ x * (ofZ 200 / ofZ y)) = ofZ z /\ 0 <= z <= x.
Proof.
  intros Hx Hy. unfold ofZ. cbn [num_div].
  assert (Hpos : (0 < inject_Z y)%Q) by (rewrite <- (Zlt_Qlt 0); lia).
  destruct (Qeq_bool (inject_Z y) 0) eqn:E.
  { apply Qeq_bool_eq in E. rewrite E in Hpos. by apply Qlt_irrefl in Hpos. }
  cbn [num_mul Math_floor]. eexists. split; [reflexivity|].
  set (v := Qred (inject_Z x * Qred (inject_Z 200 / inject_Z y))).
  assert (Hv : (v == inject_Z x * (inject_Z 200 / inject_Z y))%Q).
  { unfold v. by rewrite !Qred_correct. }
  assert (Hx' : (0 <= inject_Z x)%Q) by (rewrite <- (Zle_Qle 0); lia).
  assert (Hr0 : (0 <= inject_Z 200 / inject_Z y)%Q).
  { apply Qle_shift_div_l; [exact Hpos|]. by rewrite Qmult_0_l. }
  assert (Hr1 : (inject_Z 200 / inject_Z y <= 1)%Q).
  { apply Qle_shift_div_r; [exact Hpos|]. rewrite Qmult_1_l, <- Zle_Qle. lia. }
  assert (H0 : (0 <= v)%Q) by (rewrite Hv; by apply Qmult_le_0_compat).
  assert (H1 : (v <= inject_Z x)%Q).
  { rewrite Hv. rewrite <- (Qmult_1_r (inject_Z x)) at 2.
    rewrite !(Qmult_comm (inject_Z x)). by apply Qmult_le_compat_r. }
  split.
  - change 0 with (Qfloor 0). by apply Qfloor_resp_le.
  - rewrite <- (Qfloor_Z x). by apply Qfloor_resp_le.
Qed.

(** X16. The canvas is never larger than the image: for an image [width] by
    [height] (integers, none negative) both sides of the canvas are integers
    from 0 to the side of the image. *)
Theorem X16_canvas_not_larger_than_image (width height : Z) :
  0 <= width -> 0 <= height ->
  exists w' h' : Z,
    scaleDimensions (ofZ width) (ofZ height) = (ofZ w', ofZ h')
    /\ 0 <= w' <= width /\ 0 <= h' <= height.
Proof.
  intros Hw Hh. unfold scaleDimensions. rewrite !ofZ_ltb.
  destruct (Z.ltb_spec height width); cbn [andb].
  - destruct (Z.ltb_spec 200 width).
    + destruct (scaled_floor_le height width Hh) as (z & -> & Hz); [lia|].
      exists 200, z. split; [reflexivity | lia].
    + destruct (Z.ltb_spec 200 height); [lia|].
      exists width, height. split; [reflexivity | lia].
  - destruct (Z.ltb_spec 200 height).
    + destruct (scaled_floor_le width height Hw) as (z & -> & Hz); [lia|].
      exists z, 200. split; [reflexivity | lia].
    + exists width, height. split; [reflexivity | lia].
Qed.

Lemma X16_canvas_not_larger_than_image_witness :
  exists w' h' : Z,
    scaleDimensions (ofZ 640) (ofZ 480) = (ofZ w', ofZ h')
    /\ 0 <= w' <= 640 /\ 0 <= h' <= 480.
Proof. apply (X16_canvas_not_larger_than_image 640 480); lia. Defined.

(** ** [rgbToHex] does not clamp *)

Lemma toUpperCase_length (s : string) :
  String.length (toUpperCase s) = String.length s.
Proof. induction s as [|c s IH]; [done|]. simpl. by rewrite IH. Qed.

Lemma append_length (s1 s2 : string) :
  String.length (s1 +:+ s2) = (String.length s1 + String.length s2)%nat.
Proof. induction s1 as [|c s1 IH]; [done|]. simpl. by rewrite IH. Qed.

Lemma roundQ_integer (z : Z) : roundQ (inject_Z z) = z.
Proof.
  unfold roundQ. apply Z.le_antisymm.
  - assert (H : Qfloor (inject_Z z + (1 # 2)) < z + 1); [|lia].
    rewrite Zlt_Qlt. eapply Qle_lt_trans; [apply Qfloor_le|].
    rewrite inject_Z_plus. apply Qplus_lt_r. reflexivity.
  - rewrite <- (Qfloor_Z z) at 1. apply Qfloor_resp_le.
    rewrite <- (Qplus_0_r (inject_Z z)) at 1. apply Qplus_le_r. done.
Qed.

Lemma paddedHex_three_digits :
  forallb (fun m => (String.length (paddedHex (Z.of_nat m)) =? 3)%nat)
          (seq 256 3840) = true.
Proof. vm_compute. reflexivity. Qed.

Lemma paddedHex_two_digits :
  forallb (fun m => (String.length (paddedHex (Z.of_nat m)) =? 2)%nat)
          (seq 0 256) = true.
Proof. vm_compute. reflexivity. Qed.

Lemma toHex_length (z : Z) :
  (0 <= z <= 255 -> String.length (toHex (ofZ z)) = 2%nat)
  /\ (256 <= z <= 4095 -> String.length (toHex (ofZ z)) = 3%nat).
Proof.
  unfold ofZ. rewrite toHex_Fin, roundQ_integer. split; intros Hz.
  - pose proof paddedHex_two_digits as H. rewrite forallb_forall in H.
    specialize (H (Z.to_nat z)). rewrite Z2Nat.id in H by lia.
    apply Nat.eqb_eq, H, in_seq. lia.
  - pose proof paddedHex_three_digits as H. rewrite forallb_forall in H.
    specialize (H (Z.to_nat z)). rewrite Z2Nat.id in H by lia.
    apply Nat.eqb_eq, H, in_seq. lia.
Qed.

(** X17. [rgbToHex] does not clamp: with an integer red channel from 256 to
    4095 and bytes for green and blue, the red group has three digits and
    the string has eight characters, so it is not a [#RRGGBB] colour. *)
Theorem X17_rgbToHex_does_not_clamp (r g b : Z) :
  256 <= r <= 4095 -> isByte g -> isByte b ->
  String.length (rgbToHex (ofZ r) (ofZ g) (ofZ b)) = 8%nat.
Proof.
  intros Hr Hg Hb. unfold rgbToHex.
  rewrite toUpperCase_length. cbn [append String.length].
  rewrite !append_length.
  rewrite (proj2 (toHex_length r) Hr), (proj1 (toHex_length g) Hg),
    (proj1 (toHex_length b) Hb).
  reflexivity.
Qed.

Lemma X17_rgbToHex_does_not_clamp_witness :
  String.length (rgbToHex (ofZ 256) (ofZ 0) (ofZ 17)) = 8%nat.
Proof.
  apply (X17_rgbToHex_does_not_clamp 256 0 17); unfold isByte; lia.
Defined.
